(** * XSD to LinkML schema translation: shallow embedding and properties

    The development follows the Python modules of the translation engine:
    [utils], [reference_resolver], [constraint_handler], [documentation],
    [slot_builder] and [identity_processor].  Python dictionaries with a
    fixed set of keys (class and slot definitions) are records whose fields
    are options (an absent key is [None]); dictionaries used as maps are
    [gmap]s; Python sets are [gset]s, or lists when the iteration order is
    observable. *)

From Stdlib Require Import ZArith Ascii String DecimalString.
From stdpp Require Import base option list strings gmap fin_maps fin_sets.

Local Open Scope string_scope.
Local Open Scope list_scope.
Local Open Scope stdpp_scope.

(** ** Python string operations *)

Module PyStr.

Definition nonempty (s : string) : bool :=
  match s with EmptyString => false | String _ _ => true end.

(** Truth value of an [Optional[str]]: [None] and the empty string are falsy. *)
Definition truthy (o : option string) : bool :=
  match o with Some s => nonempty s | None => false end.

Fixpoint contains_char (c : ascii) (s : string) : bool :=
  match s with
  | EmptyString => false
  | String a r => if Ascii.eqb a c then true else contains_char c r
  end.

(** [s.split(c)[-1]]: what follows the last occurrence of [c]. *)
Fixpoint after_last (c : ascii) (s : string) : string :=
  match s with
  | EmptyString => EmptyString
  | String a r =>
      if contains_char c r then after_last c r
      else if Ascii.eqb a c then r else s
  end.

Definition startswith (s p : string) : bool := String.prefix p s.

Definition endswith (s suffix : string) : bool :=
  let n := String.length s in
  let m := String.length suffix in
  (m <=? n)%nat && String.eqb (String.substring (n - m) m s) suffix.

(** [s[:-k]] for a positive [k]. *)
Definition drop_last (k : nat) (s : string) : string :=
  String.substring 0 (String.length s - k) s.

(** [s[1:]] *)
Definition tail (s : string) : string :=
  match s with EmptyString => EmptyString | String _ r => r end.

(** [s.replace(a, b)] for single characters. *)
Fixpoint replace_char (a b : ascii) (s : string) : string :=
  match s with
  | EmptyString => EmptyString
  | String c r => String (if Ascii.eqb c a then b else c) (replace_char a b r)
  end.

(** [s.replace("//", "/")]: non-overlapping occurrences, left to right. *)
Fixpoint collapse_double_slash (s : string) : string :=
  match s with
  | EmptyString => EmptyString
  | String c r =>
      match r with
      | String d r' =>
          if Ascii.eqb c "/" && Ascii.eqb d "/"
          then String "/" (collapse_double_slash r')
          else String c (collapse_double_slash r)
      | EmptyString => s
      end
  end.

(** [s.split(c)]: always at least one piece. *)
Fixpoint split_char (c : ascii) (s : string) : list string :=
  match s with
  | EmptyString => [EmptyString]
  | String a r =>
      if Ascii.eqb a c then EmptyString :: split_char c r
      else match split_char c r with
           | p :: ps => String a p :: ps
           | [] => [String a EmptyString]
           end
  end.

(** [s.split(c, 1)] when [c] occurs in [s]: text before and after the
    first occurrence. *)
Fixpoint partition_first (c : ascii) (s : string) : option (string * string) :=
  match s with
  | EmptyString => None
  | String a r =>
      if Ascii.eqb a c then Some (EmptyString, r)
      else match partition_first c r with
           | Some (k, v) => Some (String a k, v)
           | None => None
           end
  end.

(** Characters are code points 0..255.  [str.isspace] holds for the
    ASCII white space, the separators 0x1c..0x1f, NEL and NBSP. *)
Definition is_space (c : ascii) : bool :=
  let n := nat_of_ascii c in
  ((9 <=? n) && (n <=? 13) || (28 <=? n) && (n <=? 32)
   || (n =? 133) || (n =? 160))%nat.

Fixpoint lstrip (s : string) : string :=
  match s with
  | EmptyString => EmptyString
  | String a r => if is_space a then lstrip r else s
  end.

Fixpoint rstrip (s : string) : string :=
  match s with
  | EmptyString => EmptyString
  | String a r =>
      match rstrip r with
      | EmptyString => if is_space a then EmptyString else String a EmptyString
      | r' => String a r'
      end
  end.

Definition strip (s : string) : string := rstrip (lstrip s).

(** Line boundaries of [str.splitlines] among the code points 0..255;
    a carriage return followed by a line feed is one boundary. *)
Definition is_linebreak (c : ascii) : bool :=
  let n := nat_of_ascii c in
  ((10 <=? n) && (n <=? 13) || (28 <=? n) && (n <=? 30) || (n =? 133))%nat.

Fixpoint splitlines_go (cur : string) (s : string) : list string :=
  match s with
  | EmptyString =>
      match cur with EmptyString => [] | _ => [String.rev cur] end
  | String a r =>
      if is_linebreak a then
        match r with
        | String b r' =>
            if Ascii.eqb a "013" && Ascii.eqb b "010"
            then String.rev cur :: splitlines_go EmptyString r'
            else String.rev cur :: splitlines_go EmptyString r
        | EmptyString => [String.rev cur]
        end
      else splitlines_go (String a cur) r
  end.

Definition splitlines (s : string) : list string := splitlines_go EmptyString s.

(** [s.split()]: maximal runs of non-space characters. *)
Fixpoint split_ws_go (cur : string) (s : string) : list string :=
  match s with
  | EmptyString =>
      match cur with EmptyString => [] | _ => [String.rev cur] end
  | String a r =>
      if is_space a then
        match cur with
        | EmptyString => split_ws_go EmptyString r
        | _ => String.rev cur :: split_ws_go EmptyString r
        end
      else split_ws_go (String a cur) r
  end.

Definition split_ws (s : string) : list string := split_ws_go EmptyString s.

(** [str.lower] on the code points 0..255: A..Z and the Latin-1 capitals. *)
Definition lower_char (c : ascii) : ascii :=
  let n := nat_of_ascii c in
  if ((65 <=? n) && (n <=? 90)
      || (192 <=? n) && (n <=? 222) && negb (n =? 215))%nat
  then ascii_of_nat (n + 32) else c.

Fixpoint lower (s : string) : string :=
  match s with
  | EmptyString => EmptyString
  | String a r => String (lower_char a) (lower r)
  end.

(** [sep.join(parts)] *)
Fixpoint join (sep : string) (parts : list string) : string :=
  match parts with
  | [] => EmptyString
  | [p] => p
  | p :: ps => p +:+ sep +:+ join sep ps
  end.

(** [str(n)] for a natural number. *)
Definition of_nat (n : nat) : string := NilZero.string_of_uint (Nat.to_uint n).

End PyStr.

(** ** utils.local_name *)

Definition local_name (value : option string) : string :=
  match value with
  | None => ""
  | Some text =>
      if PyStr.contains_char "}" text then PyStr.after_last "}" text
      else if PyStr.contains_char ":" text then PyStr.after_last ":" text
      else text
  end.

(** ** The target schema model *)

(** One annotation entry, [{"tag": ..., "value": ...}]. *)
Record annotation := Annotation { tag : string; value : string }.

Global Instance annotation_eq_dec : EqDecision annotation.
Proof. solve_decision. Defined.

(** A slot definition.  Every key the translation writes on a slot
    dictionary is a field; [None] is an absent key. *)
Record slot := Slot {
  range : option string;
  required : option bool;
  multivalued : option bool;
  identifier : option bool;
  pattern : option string;
  minimum_value : option Z;
  maximum_value : option Z;
  description : option string;
  in_subset : option (list string);
  annotations : option (gmap string annotation)
}.

Global Instance slot_eq_dec : EqDecision slot.
Proof. solve_decision. Defined.

(** The empty dictionary [{}]. *)
Definition empty_slot : slot :=
  Slot None None None None None None None None None None.

(** Truth value of a slot dictionary: only [{}] is falsy. *)
Definition slot_truthy (s : slot) : bool := bool_decide (s ≠ empty_slot).

Definition set_range (v : string) (s : slot) : slot :=
  Slot (Some v) (required s) (multivalued s) (identifier s) (pattern s)
       (minimum_value s) (maximum_value s) (description s) (in_subset s)
       (annotations s).

(** [slot.pop("required", None)] *)
Definition pop_required (s : slot) : slot :=
  Slot (range s) None (multivalued s) (identifier s) (pattern s)
       (minimum_value s) (maximum_value s) (description s) (in_subset s)
       (annotations s).

Definition set_required (b : bool) (s : slot) : slot :=
  Slot (range s) (Some b) (multivalued s) (identifier s) (pattern s)
       (minimum_value s) (maximum_value s) (description s) (in_subset s)
       (annotations s).

(** [slot["multivalued"] = b] *)
Definition set_multivalued (b : bool) (s : slot) : slot :=
  Slot (range s) (required s) (Some b) (identifier s) (pattern s)
       (minimum_value s) (maximum_value s) (description s) (in_subset s)
       (annotations s).

Definition set_identifier (b : bool) (s : slot) : slot :=
  Slot (range s) (required s) (multivalued s) (Some b) (pattern s)
       (minimum_value s) (maximum_value s) (description s) (in_subset s)
       (annotations s).

Definition set_pattern (v : string) (s : slot) : slot :=
  Slot (range s) (required s) (multivalued s) (identifier s) (Some v)
       (minimum_value s) (maximum_value s) (description s) (in_subset s)
       (annotations s).

Definition set_minimum_value (v : Z) (s : slot) : slot :=
  Slot (range s) (required s) (multivalued s) (identifier s) (pattern s)
       (Some v) (maximum_value s) (description s) (in_subset s)
       (annotations s).

Definition set_maximum_value (v : Z) (s : slot) : slot :=
  Slot (range s) (required s) (multivalued s) (identifier s) (pattern s)
       (minimum_value s) (Some v) (description s) (in_subset s)
       (annotations s).

Definition set_description (v : string) (s : slot) : slot :=
  Slot (range s) (required s) (multivalued s) (identifier s) (pattern s)
       (minimum_value s) (maximum_value s) (Some v) (in_subset s)
       (annotations s).

Definition set_in_subset (v : list string) (s : slot) : slot :=
  Slot (range s) (required s) (multivalued s) (identifier s) (pattern s)
       (minimum_value s) (maximum_value s) (description s) (Some v)
       (annotations s).

Definition set_annotations (v : gmap string annotation) (s : slot) : slot :=
  Slot (range s) (required s) (multivalued s) (identifier s) (pattern s)
       (minimum_value s) (maximum_value s) (description s) (in_subset s)
       (Some v).

(** One member of an [exactly_one_of] list,
    [{"slot_conditions": {name: {...}}}]. *)
Record expr := Expr { slot_conditions : gmap string slot }.

Global Instance expr_eq_dec : EqDecision expr.
Proof. solve_decision. Defined.

(** A class definition. *)
Record class_def := ClassDef {
  is_a : option string;
  abstract : option bool;
  attributes : option (gmap string slot);
  exactly_one_of : option (list expr);
  cls_description : option string;
  cls_in_subset : option (list string);
  cls_annotations : option (gmap string annotation)
}.

Global Instance class_def_eq_dec : EqDecision class_def.
Proof. solve_decision. Defined.

Definition empty_class : class_def :=
  ClassDef None None None None None None None.

Definition class_truthy (c : class_def) : bool := bool_decide (c ≠ empty_class).

Definition set_attributes (a : gmap string slot) (c : class_def) : class_def :=
  ClassDef (is_a c) (abstract c) (Some a) (exactly_one_of c)
           (cls_description c) (cls_in_subset c) (cls_annotations c).

Definition set_exactly_one_of (l : list expr) (c : class_def) : class_def :=
  ClassDef (is_a c) (abstract c) (attributes c) (Some l)
           (cls_description c) (cls_in_subset c) (cls_annotations c).

(** [linkml_schema["classes"]] and [linkml_schema["enums"]]; an enumeration
    is kept as the list of its permissible values. *)
Record linkml_schema := LinkmlSchema {
  classes : gmap string class_def;
  enums : gmap string (list string)
}.

Definition set_classes (c : gmap string class_def) (s : linkml_schema) : linkml_schema :=
  LinkmlSchema c (enums s).

Definition set_enums (e : gmap string (list string)) (s : linkml_schema) : linkml_schema :=
  LinkmlSchema (classes s) e.

(** ** reference_resolver.ReferenceResolver *)

Record reference_resolver := ReferenceResolver {
  rr_classes : gmap string class_def;
  inheritance_map : gmap string string;
  known_class_names : gset string
}.

Section Resolver.

Variable self : reference_resolver.

(** The parent looked up in each round of the three ancestor walks:
    the class's own [is_a] when the class is defined (and not [{}]) and the
    value is truthy, else the entry of the inheritance map. *)
Definition class_base (current : string) : option string :=
  match rr_classes self !! current with
  | Some cls_def => if class_truthy cls_def then is_a cls_def else None
  | None => None
  end.

Definition next_base (current : string) : option string :=
  let base := class_base current in
  if PyStr.truthy base then base else inheritance_map self !! current.

(** Every walk visits each name at most once, and a name that has a
    successor is a key of one of the two maps: this many rounds are never
    used up (see [ancestors_loop_fuel]). *)
Definition walk_fuel : nat :=
  S (size (dom (rr_classes self) ∪ dom (inheritance_map self))).

(** The [while current and current not in visited] loop of
    [select_keyref_range]; [None] when the rounds run out. *)
Fixpoint ancestors_loop (fuel : nat) (visited : gset string)
    (current : option string) : option (list string) :=
  match current with
  | Some c =>
      if PyStr.nonempty c && bool_decide (c ∉ visited) then
        match fuel with
        | O => None
        | S fuel' =>
            cons c <$> ancestors_loop fuel' ({[c]} ∪ visited) (next_base c)
        end
      else Some []
  | None => Some []
  end.

Definition ancestors (cls_name : string) : list string :=
  default [] (ancestors_loop walk_fuel ∅ (Some cls_name)).

(** The [while current] loop of [class_is_ref_like]. *)
Fixpoint ref_like_loop (fuel : nat) (visited : gset string)
    (current : option string) : option bool :=
  match current with
  | Some c =>
      if PyStr.nonempty c then
        if PyStr.endswith c "Ref" || String.eqb c "Reference" then Some true
        else if bool_decide (c ∈ visited) then Some false
        else match fuel with
             | O => None
             | S fuel' => ref_like_loop fuel' ({[c]} ∪ visited) (next_base c)
             end
      else Some false
  | None => Some false
  end.

Definition class_is_ref_like (class_name : option string) : bool :=
  if PyStr.truthy class_name
  then default false (ref_like_loop walk_fuel ∅ class_name)
  else false.

(** [candidate = name[:-k]; if candidate in self.known_class_names] *)
Definition known_prefix (k : nat) (name : string) : option string :=
  let candidate := PyStr.drop_last k name in
  if bool_decide (candidate ∈ known_class_names self) then Some candidate else None.

(** The [while current] loop of [reference_target_for_class]; the result
    of a finished loop is [Some (Some c)] when it returned [c] from inside
    and [Some None] when it fell through. *)
Fixpoint ref_target_loop (fuel : nat) (visited : gset string)
    (current : option string) : option (option string) :=
  match current with
  | Some c =>
      if PyStr.nonempty c then
        if bool_decide (c ∈ visited) then Some None
        else match fuel with
             | O => None
             | S fuel' =>
                 let found :=
                   match class_base c with
                   | Some base =>
                       if PyStr.nonempty base && PyStr.endswith base "Ref"
                       then known_prefix 3 base else None
                   | None => None
                   end in
                 match found with
                 | Some candidate => Some (Some candidate)
                 | None => ref_target_loop fuel' ({[c]} ∪ visited) (next_base c)
                 end
             end
      else Some None
  | None => Some None
  end.

Definition reference_target_for_class (owner_class : string)
    (type_name_local : option string) : option string :=
  let by_owner :=
    if PyStr.nonempty owner_class && PyStr.endswith owner_class "Ref"
    then known_prefix 3 owner_class else None in
  match by_owner with
  | Some candidate => Some candidate
  | None =>
      match default None (ref_target_loop walk_fuel ∅ (Some owner_class)) with
      | Some candidate => Some candidate
      | None =>
          match type_name_local with
          | Some t =>
              if PyStr.nonempty t && PyStr.endswith t "ID"
              then known_prefix 2 t else None
          | None => None
          end
      end
  end.

(** [common.intersection_update(ancestors)] over the remaining lists,
    leaving the loop as soon as [common] is empty. *)
Fixpoint intersect_rest (common : gset string) (rest : list (list string))
    : gset string :=
  match rest with
  | [] => common
  | ancestors :: rest' =>
      let common' := common ∩ list_to_set ancestors in
      if decide (common' = ∅) then common' else intersect_rest common' rest'
  end.

(** The ancestor lists collected by the first loop: empty names are
    skipped, and so are empty lists. *)
Definition ancestor_lists (target_classes : list string) : list (list string) :=
  omap (λ cls_name,
          if PyStr.nonempty cls_name then
            match ancestors cls_name with
            | [] => None
            | l => Some l
            end
          else None)
       target_classes.

(** [target_classes] is the candidate set in its iteration order. *)
Definition select_keyref_range (target_classes : list string) : option string :=
  match target_classes with
  | [] => None
  | [c] => Some c
  | _ =>
      match ancestor_lists target_classes with
      | [] => None
      | first :: rest =>
          let common := intersect_rest (list_to_set first) rest in
          if decide (common = ∅) then None
          else List.find (λ ancestor, bool_decide (ancestor ∈ common)) first
      end
  end.

End Resolver.

(** *** Nearest common ancestor *)

(** The class [a] lies on the ancestor chain of every candidate. *)
Definition on_every_chain (self : reference_resolver) (candidates : list string)
    (a : string) : bool :=
  forallb (λ c, bool_decide (a ∈ ancestors self c)) candidates.

(** The selection as the specification words it: no candidate, none; one
    candidate, that one; otherwise the first class of the first candidate's
    chain that lies on the chain of every candidate. *)
Definition nearest_common_ancestor (self : reference_resolver)
    (candidates : list string) : option string :=
  match candidates with
  | [] => None
  | [c] => Some c
  | c :: _ => List.find (on_every_chain self candidates) (ancestors self c)
  end.

(** The inheritance of the example: [DerivedA] and [DerivedB] are children
    of [Base]. *)
Definition derived_of (base : string) : class_def :=
  ClassDef (Some base) None None None None None None.

Definition base_derived_resolver : reference_resolver :=
  ReferenceResolver
    (<["Base" := ClassDef None None None None (Some "root") None None]>
       (<["DerivedA" := derived_of "Base"]>
          (<["DerivedB" := derived_of "Base"]> ∅)))
    ∅ ∅.

(** *** The loops as chains *)

(** What the ancestor loop computes, as a relation: the chain stops at a
    missing or empty name and at a name already visited, and otherwise goes
    on from the parent. *)
Inductive chain_from (self : reference_resolver)
    : gset string → option string → list string → Prop :=
| chain_end visited current :
    (∀ c, current = Some c → c = "" ∨ c ∈ visited) →
    chain_from self visited current []
| chain_next visited c l :
    c ≠ "" → c ∉ visited →
    chain_from self ({[c]} ∪ visited) (next_base self c) l →
    chain_from self visited (Some c) (c :: l).

(** ** The source content model *)

(** [max_occurs] is an integer or the string ["unbounded"]. *)
Inductive occurs_bound :=
| BoundInt (n : Z)
| BoundStr (s : string).

(** A particle of a content model.  The [items] of a group are what its
    [iter_model()] yields, in order; [XsdOther] is any particle that is
    neither an element nor a group (a wildcard). *)
Local Unset Elimination Schemes.
Inductive node :=
| XsdElement (name : option string) (ref : option (option string)) (min_occurs : Z)
| XsdGroup (model : string) (max_occurs : option occurs_bound)
    (occurs : option (list (option Z))) (items : list node)
| XsdOther.
Local Set Elimination Schemes.

(** ** constraint_handler.ChoiceConstraintHandler *)

Record choice_constraint_handler := ChoiceConstraintHandler {
  h_schema : linkml_schema;
  choice_slot_membership : gmap string (gset string);
  choice_repeat_membership : gmap string (gset string)
}.

(** [choice_is_repeating]; on a particle that is no group both attributes
    are missing. *)
Definition choice_is_repeating (group : node) : bool :=
  match group with
  | XsdGroup _ maxo occurs _ =>
      match maxo with
      | Some (BoundStr s) => String.eqb s "unbounded"
      | Some (BoundInt n) => (1 <? n)%Z
      | None =>
          match occurs with
          | Some occurs_tuple =>
              match last occurs_tuple with
              | Some None => true
              | _ => false
              end
          | None => false
          end
      end
  | _ => false
  end.

(** A branch of a choice: the slots it introduces, each with its
    requiredness inside the branch. *)
Abbreviation branch := (list (string * bool)).

Fixpoint collect_branch_slots (item : node) : branch :=
  match item with
  | XsdElement name ref min_occurs =>
      let raw := if PyStr.truthy name then name else default None ref in
      let slot_name := local_name raw in
      if PyStr.nonempty slot_name
      then [(slot_name, negb (min_occurs =? 0)%Z)]
      else []
  | XsdGroup _ _ _ items =>
      (fix visit_all (subs : list node) : branch :=
         match subs with
         | [] => []
         | sub :: subs' => collect_branch_slots sub ++ visit_all subs'
         end) items
  | XsdOther => []
  end.

Definition branch_nonempty (b : branch) : bool :=
  match b with [] => false | _ => true end.

Fixpoint extract_choice_branches (group : node) : list branch :=
  match group with
  | XsdGroup _ _ _ items =>
      filter (λ b, branch_nonempty b = true)
        ((fix over (its : list node) : list branch :=
            match its with
            | [] => []
            | item :: its' =>
                match item with
                | XsdGroup model _ _ _ =>
                    if String.eqb model "choice"
                    then extract_choice_branches item ++ over its'
                    else collect_branch_slots item :: over its'
                | XsdElement _ _ _ => collect_branch_slots item :: over its'
                | XsdOther => over its'
                end
            end) items)
  | _ => []
  end.

(** [{"slot_conditions": {slot_name: {"required": True}}}] *)
Definition required_expr (slot_name : string) : expr :=
  Expr {[ slot_name := set_required true empty_slot ]}.

Definition slot_set (b : branch) : gset string := list_to_set (b.*1).

(** [next(iter(slot_set))] *)
Definition first_of (s : gset string) : option string := head (elements s).

(** [self.membership[class_name].update(universe)] on a [defaultdict(set)]. *)
Definition membership_update (class_name : string) (universe : gset string)
    (m : gmap string (gset string)) : gmap string (gset string) :=
  <[class_name := default ∅ (m !! class_name) ∪ universe]> m.

(** [if x not in l: l.append(x)] *)
Definition append_if_absent {A} `{EqDecision A} (l : list A) (x : A) : list A :=
  if bool_decide (x ∈ l) then l else l ++ [x].

(** The [group] list of [apply_choice_constraint]: the single name of each
    slot set, without repetition, in branch order. *)
Definition exclusive_group (slot_sets : list (gset string)) : list string :=
  foldl (λ group s,
           match first_of s with
           | Some slot_name => append_if_absent group slot_name
           | None => group
           end) [] slot_sets.

(** [existing = cls.setdefault("exactly_one_of", [])] and the loop adding
    one expression per name of the group. *)
Definition add_exactly_one_of (group : list string) (cls : class_def) : class_def :=
  set_exactly_one_of
    (foldl (λ existing slot_name, append_if_absent existing (required_expr slot_name))
           (default [] (exactly_one_of cls)) group)
    cls.

Definition apply_choice_constraint (self : choice_constraint_handler)
    (class_name : string) (branches : list branch) (repeating : bool)
    : choice_constraint_handler :=
  if (length branches <? 2)%nat then self
  else
    let cls := default empty_class (classes (h_schema self) !! class_name) in
    let slot_sets := map slot_set branches in
    let universe : gset string := ⋃ slot_sets in
    let cls' :=
      if forallb (λ s, (size s =? 1)%nat) slot_sets
      then add_exactly_one_of (exclusive_group slot_sets) cls
      else cls in
    ChoiceConstraintHandler
      (set_classes (<[class_name := cls']> (classes (h_schema self))) (h_schema self))
      (membership_update class_name universe (choice_slot_membership self))
      (if repeating
       then membership_update class_name universe (choice_repeat_membership self)
       else choice_repeat_membership self).

Definition is_choice (item : node) : bool :=
  match item with
  | XsdGroup model _ _ _ => String.eqb model "choice"
  | _ => false
  end.

Definition items_of (group : node) : list node :=
  match group with XsdGroup _ _ _ items => items | _ => [] end.

Definition collect_choice_constraints (self : choice_constraint_handler)
    (class_name : string) (content : option node) : choice_constraint_handler :=
  match content with
  | Some (XsdGroup _ _ _ _ as content) =>
      let self1 :=
        if is_choice content
        then apply_choice_constraint self class_name
               (extract_choice_branches content) (choice_is_repeating content)
        else self in
      foldl (λ self' item,
               if is_choice item
               then apply_choice_constraint self' class_name
                      (extract_choice_branches item) (choice_is_repeating item)
               else self')
            self1 (items_of content)
  | _ => self
  end.

(** One round of either inner loop of the relaxation pass: [change] is
    [pop_required] in the first pass and [set_multivalued true] in the
    second. *)
Definition relax_slot (change : slot → slot) (attrs : gmap string slot)
    (slot_name : string) : gmap string slot :=
  match attrs !! slot_name with
  | Some s => if slot_truthy s then <[slot_name := change s]> attrs else attrs
  | None => attrs
  end.

(** One round of either outer loop.  A class without [attributes] gets a
    fresh empty dictionary from [cls.get("attributes", {})], in which every
    lookup misses. *)
Definition relax_class (change : slot → slot) (class_name : string)
    (slot_names : gset string) (cs : gmap string class_def)
    : gmap string class_def :=
  match cs !! class_name with
  | Some cls =>
      if class_truthy cls then
        match attributes cls with
        | Some attrs =>
            <[class_name :=
                set_attributes (foldl (relax_slot change) attrs (elements slot_names)) cls]> cs
        | None => cs
        end
      else cs
  | None => cs
  end.

Definition relax_choice_constraints (self : choice_constraint_handler)
    : choice_constraint_handler :=
  let cs1 := map_fold (relax_class pop_required)
               (classes (h_schema self)) (choice_slot_membership self) in
  let cs2 := map_fold (relax_class (set_multivalued true))
               cs1 (choice_repeat_membership self) in
  ChoiceConstraintHandler (set_classes cs2 (h_schema self))
    (choice_slot_membership self) (choice_repeat_membership self).

(** *** What the relaxation pass does to each class and slot *)

Definition members_of (m : gmap string (gset string)) (class_name : string)
    : gset string :=
  default ∅ (m !! class_name).

(** The change is applied to non-empty slot dictionaries only. *)
Definition guarded (change : slot → slot) (s : slot) : slot :=
  if slot_truthy s then change s else s.

Definition relaxed_attrs (change : slot → slot) (names : gset string)
    (attrs : gmap string slot) : gmap string slot :=
  map_imap (λ n s, Some (if bool_decide (n ∈ names) then guarded change s else s))
           attrs.

Definition relaxed_class (change : slot → slot) (names : gset string)
    (cls : class_def) : class_def :=
  match attributes cls with
  | Some attrs => set_attributes (relaxed_attrs change names attrs) cls
  | None => cls
  end.

(** A slot after both passes. *)
Definition relaxed_slot (in_choice in_repeat : bool) (s : slot) : slot :=
  let s1 := if in_choice then guarded pop_required s else s in
  if in_repeat then guarded (set_multivalued true) s1 else s1.

(** *** Single-slot branches *)

(** The branch introduces the slot [n] and no other. *)
Definition single_slot (b : branch) (n : string) : Prop :=
  b ≠ [] ∧ Forall (λ p, p.1 = n) b.

(** The state of the example: class [Sample] holds two slots, one of them
    required, and nothing is recorded yet. *)
Definition string_slot (req : option bool) : slot :=
  Slot (Some "string") req None None None None None None None None.

Definition sample_handler : choice_constraint_handler :=
  ChoiceConstraintHandler
    (LinkmlSchema
       {[ "Sample" :=
            ClassDef None None
              (Some (<["A" := string_slot (Some true)]>
                       {[ "X" := string_slot None ]}))
              None (Some "Complex type Sample") None None ]}
       ∅)
    ∅ ∅.

(** A choice with the single branch [A]. *)
Definition one_branch_choice : node :=
  XsdGroup "choice" (Some (BoundInt 1)) None [XsdElement (Some "A") None 1].

(** A repeating choice with the single branch [X]. *)
Definition one_branch_repeating_choice : node :=
  XsdGroup "choice" None (Some [Some 1%Z; None])
    [XsdElement (Some "X") None 0].

(** A choice among [A], [B] and [C], and a repeating choice between [X]
    and [Y]. *)
Definition abc_choice : node :=
  XsdGroup "choice" (Some (BoundInt 1)) None
    [XsdElement (Some "A") None 1; XsdElement (Some "B") None 1;
     XsdElement (Some "C") None 1].

Definition xy_repeating_choice : node :=
  XsdGroup "choice" (Some (BoundInt 5)) None
    [XsdElement (Some "X") None 1; XsdElement (Some "Y") None 1].

(** The slot [n] of class [cn], if the class holds it. *)
Definition slot_of (self : choice_constraint_handler) (cn n : string)
    : option slot :=
  cls ← classes (h_schema self) !! cn;
  attrs ← attributes cls;
  attrs !! n.

Definition exactly_one_of_of (self : choice_constraint_handler) (cn : string)
    : option (list expr) :=
  classes (h_schema self) !! cn ≫= exactly_one_of.

(** The ways of being repeatable: an explicit count above one, or no upper
    bound.  The schema library reports a group without upper bound by a
    missing [max_occurs] and an [occurs] pair that ends in none; the string
    ["unbounded"] is accepted as well. *)
Definition repeatable (group : node) : Prop :=
  match group with
  | XsdGroup _ (Some (BoundInt k)) _ _ => (1 < k)%Z
  | XsdGroup _ (Some (BoundStr s)) _ _ => s = "unbounded"
  | XsdGroup _ None (Some occurs_tuple) _ => last occurs_tuple = Some None
  | _ => False
  end.

(** The choice groups that [collect_choice_constraints] visits, in the
    order in which it visits them: the content itself, then its items. *)
Definition choices_of (content : node) : list node :=
  filter (λ group, is_choice group = true) (content :: items_of content).

(** A repeating choice between [X] and [Y] without upper bound, and a
    sequence that holds it next to the element [A]. *)
Definition xy_unbounded_choice : node :=
  XsdGroup "choice" None (Some [Some 1%Z; None])
    [XsdElement (Some "X") None 1; XsdElement (Some "Y") None 1].

Definition sequence_with_choice : node :=
  XsdGroup "sequence" (Some (BoundInt 1)) (Some [Some 1%Z; Some 1%Z])
    [XsdElement (Some "A") None 1; xy_unbounded_choice].

(** *** The pass changes two keys and nothing else *)

(** [s'] has the keys of [s] other than [required] and [multivalued],
    with the same values. *)
Definition same_other_keys (s s' : slot) : Prop :=
  range s' = range s ∧ identifier s' = identifier s ∧ pattern s' = pattern s
  ∧ minimum_value s' = minimum_value s ∧ maximum_value s' = maximum_value s
  ∧ description s' = description s ∧ in_subset s' = in_subset s
  ∧ annotations s' = annotations s.

(** [c'] has the keys of [c] other than [attributes], with the same values. *)
Definition same_class_keys (c c' : class_def) : Prop :=
  is_a c' = is_a c ∧ abstract c' = abstract c
  ∧ exactly_one_of c' = exactly_one_of c
  ∧ cls_description c' = cls_description c
  ∧ cls_in_subset c' = cls_in_subset c
  ∧ cls_annotations c' = cls_annotations c.

(** ** utils: primitive types *)

Definition PRIMITIVE_RANGES : gset string :=
  list_to_set
    ["string"; "integer"; "float"; "boolean"; "date"; "time"; "datetime"; "uri"].

Definition type_table : list (string * string) :=
    [("string", "string"); ("token", "string"); ("normalizedString", "string");
     ("anyURI", "uri"); ("float", "float"); ("double", "float");
     ("decimal", "float"); ("integer", "integer"); ("int", "integer");
     ("long", "integer"); ("short", "integer"); ("byte", "integer");
     ("nonNegativeInteger", "integer"); ("positiveInteger", "integer");
     ("unsignedLong", "integer"); ("unsignedInt", "integer");
     ("unsignedShort", "integer"); ("unsignedByte", "integer");
     ("boolean", "boolean"); ("date", "date"); ("dateTime", "datetime");
     ("time", "time"); ("ID", "string"); ("IDREF", "string");
     ("IDREFS", "string")].

Definition XSD_TO_LINKML_TYPE_MAP : gmap string string := list_to_map type_table.

(** The pattern facet of a simple type: its own [pattern] and the
    [pattern] of each member of its [patterns] and [regexps] lists. *)
Record pattern_facet := PatternFacet {
  pf_pattern : option string;
  pf_patterns : list (option string);
  pf_regexps : list (option string)
}.

(** A type as the translation meets it: a bare type name, or a type node
    with the attributes the translation reads.  A node's base types form a
    finite chain, so a node is never its own base. *)
Local Unset Elimination Schemes.
Inductive xsd_type :=
| XsdTypeStr (text : string)
| XsdTypeNode (name : option string) (base_type : option xsd_type)
    (enumeration : list string) (pattern_of : option pattern_facet)
    (min_value max_value : option Z).
Local Set Elimination Schemes.

Definition type_name_of (t : xsd_type) : option string :=
  match t with
  | XsdTypeStr _ => None
  | XsdTypeNode name _ _ _ _ _ => name
  end.

Definition table_lookup (type_name : string) : option string :=
  XSD_TO_LINKML_TYPE_MAP !! type_name.

Global Arguments table_lookup : simpl never.
Global Arguments PRIMITIVE_RANGES : simpl never.
Global Arguments XSD_TO_LINKML_TYPE_MAP : simpl never.

Fixpoint map_xsd_node (xsd_type : xsd_type) : string :=
  match xsd_type with
  | XsdTypeStr text =>
      let type_name := local_name (Some text) in
      if PyStr.nonempty type_name
      then default "string" (table_lookup type_name)
      else "string"
  | XsdTypeNode name base_type _ _ _ _ =>
      if PyStr.truthy name then
        let type_name := local_name name in
        if PyStr.nonempty type_name then
          match table_lookup type_name with
          | Some mapped => mapped
          | None =>
              match base_type with
              | Some base =>
                  let mapped := map_xsd_node base in
                  if PyStr.nonempty mapped then mapped else "string"
              | None => "string"
              end
          end
        else "string"
      else
        match base_type with
        | Some base => map_xsd_node base
        | None => "string"
        end
  end.

Definition map_xsd_primitive (xsd_type : option xsd_type) : string :=
  match xsd_type with
  | None => "string"
  | Some t => map_xsd_node t
  end.

(** *** The walk along the restriction chain *)

(** A type followed by its base types, nearest first. *)
Fixpoint restriction_chain (t : xsd_type) : list xsd_type :=
  t :: match t with
       | XsdTypeNode _ (Some base) _ _ _ _ => restriction_chain base
       | _ => []
       end.

(** The name a type of the chain goes by, if it has one. *)
Definition declared_name (t : xsd_type) : option string :=
  match t with
  | XsdTypeStr text => Some text
  | XsdTypeNode name _ _ _ _ _ => if PyStr.truthy name then name else None
  end.

(** The mapping as the specification words it: the first name along the
    chain that the table knows decides; the answer is ["string"] when the
    chain ends first, and when a declared name has no local part. *)
Fixpoint first_mapped (chain : list xsd_type) : string :=
  match chain with
  | [] => "string"
  | t :: rest =>
      match declared_name t with
      | None => first_mapped rest
      | Some raw =>
          let type_name := local_name (Some raw) in
          if PyStr.nonempty type_name then
            match table_lookup type_name with
            | Some mapped => mapped
            | None => first_mapped rest
            end
          else "string"
      end
  end.

(** An anonymous restriction of a named type that restricts [xs:int]. *)
Definition percent_type : xsd_type :=
  XsdTypeNode None
    (Some (XsdTypeNode (Some "{http://www.openmicroscopy.org/Schemas/OME}Percent")
             (Some (XsdTypeNode (Some "{http://www.w3.org/2001/XMLSchema}int")
                      None [] None None None))
             [] None None None))
    [] None (Some 0%Z) (Some 100%Z).

(** ** documentation *)

(** The three keys that documentation and vendor extensions are merged
    into; a class definition and a slot definition both have them. *)
Class DocTarget (T : Type) := {
  doc_description : T → option string;
  doc_set_description : string → T → T;
  doc_in_subset : T → option (list string);
  doc_set_in_subset : list string → T → T;
  doc_annotations : T → option (gmap string annotation);
  doc_set_annotations : gmap string annotation → T → T
}.

Global Instance slot_doc_target : DocTarget slot := {|
  doc_description := description;
  doc_set_description := set_description;
  doc_in_subset := in_subset;
  doc_set_in_subset := set_in_subset;
  doc_annotations := annotations;
  doc_set_annotations := set_annotations
|}.

Global Instance class_doc_target : DocTarget class_def := {|
  doc_description := cls_description;
  doc_set_description v c :=
    ClassDef (is_a c) (abstract c) (attributes c) (exactly_one_of c)
             (Some v) (cls_in_subset c) (cls_annotations c);
  doc_in_subset := cls_in_subset;
  doc_set_in_subset v c :=
    ClassDef (is_a c) (abstract c) (attributes c) (exactly_one_of c)
             (cls_description c) (Some v) (cls_annotations c);
  doc_annotations := cls_annotations;
  doc_set_annotations v c :=
    ClassDef (is_a c) (abstract c) (attributes c) (exactly_one_of c)
             (cls_description c) (cls_in_subset c) (Some v)
|}.

Definition TIER_SUBSET_LOOKUP : gmap string string :=
  list_to_map [("1", "NBO_Tier1"); ("2", "NBO_Tier2"); ("3", "NBO_Tier3")].

Definition newline : string := String "010" EmptyString.

(** [metadata[key].append(value)] on a [defaultdict(list)], which keeps
    its keys in insertion order. *)
Fixpoint metadata_append (key value : string) (metadata : list (string * list string))
    : list (string * list string) :=
  match metadata with
  | [] => [(key, [value])]
  | (k, vs) :: rest =>
      if String.eqb k key then (k, vs ++ [value]) :: rest
      else (k, vs) :: metadata_append key value rest
  end.

(** One round of the loop of [split_doc_metadata]. *)
Definition split_doc_line (acc : list string * list (string * list string))
    (raw_line : string) : list string * list (string * list string) :=
  let '(description_lines, metadata) := acc in
  let line := PyStr.strip raw_line in
  if PyStr.nonempty line then
    match PyStr.partition_first "=" line with
    | Some (key, value) =>
        let key := PyStr.strip key in
        let value := PyStr.strip value in
        if PyStr.nonempty key then
          if String.eqb (PyStr.lower key) "description"
          then (description_lines ++ [value], metadata)
          else (description_lines, metadata_append key value metadata)
        else (description_lines ++ [line], metadata)
    | None => (description_lines ++ [line], metadata)
    end
  else acc.

Definition split_doc_metadata (doc_text : string)
    : string * list (string * list string) :=
  let '(description_lines, metadata) :=
    foldl split_doc_line ([], []) (PyStr.splitlines doc_text) in
  (PyStr.strip (PyStr.join newline description_lines), metadata).

Section Merger.

Context {T : Type} `{DocTarget T}.

(** The tokens of one tier value, looked up and appended when new. *)
Definition add_tier_tokens (subset_list : list string) (raw_value : string)
    : list string :=
  if PyStr.nonempty raw_value then
    foldl (λ subset_list token,
             match TIER_SUBSET_LOOKUP !! PyStr.strip token with
             | Some subset_name =>
                 if PyStr.nonempty subset_name
                 then append_if_absent subset_list subset_name
                 else subset_list
             | None => subset_list
             end)
          subset_list (PyStr.split_ws (PyStr.replace_char "," " " raw_value))
  else subset_list.

(** The annotations written for one metadata key: the values in order,
    each under the key itself when it is the first value and the name is
    free, else under the name with the index appended. *)
Definition annotate_values (key : string) (values : list string)
    (annotations : gmap string annotation) : gmap string annotation :=
  let ann_base := PyStr.replace_char " " "_" key in
  foldl (λ annotations '(idx, value),
           let ann_key :=
             if (idx =? 0)%nat && bool_decide (annotations !! ann_base = None)
             then ann_base
             else ann_base +:+ "_" +:+ PyStr.of_nat idx in
           <[ann_key := Annotation key value]> annotations)
        annotations (imap (λ idx value, (idx, value)) values).

Definition is_tier (key : string) : bool :=
  String.eqb (PyStr.lower key) "tier".

Definition apply_metadata_to_target (target : T)
    (metadata : list (string * list string)) : T :=
  match metadata with
  | [] => target
  | _ =>
      let tier_values :=
        concat (map snd (filter (λ kv, is_tier kv.1 = true) metadata)) in
      let metadata := filter (λ kv, is_tier kv.1 = false) metadata in
      let target :=
        match tier_values with
        | [] => target
        | _ =>
            doc_set_in_subset
              (foldl add_tier_tokens (default [] (doc_in_subset target)) tier_values)
              target
        end in
      match metadata with
      | [] => target
      | _ =>
          doc_set_annotations
            (foldl (λ annotations '(key, values),
                      annotate_values key values annotations)
                   (default ∅ (doc_annotations target)) metadata)
            target
      end
  end.

(** [apply_doc_metadata]; the documentation value is the text that
    [get_documentation] returned, if any. *)
Definition apply_doc_metadata (target : T) (doc_value : option string) : T :=
  match doc_value with
  | Some text =>
      if PyStr.nonempty text then
        let clean_text := PyStr.strip text in
        if PyStr.nonempty clean_text then
          let '(description, metadata) := split_doc_metadata clean_text in
          let target :=
            if PyStr.nonempty description
            then doc_set_description description target else target in
          apply_metadata_to_target target metadata
        else target
      else target
  | None => target
  end.

End Merger.

(** An element under [appinfo], or a child of the [xsdfu] wrapper. *)
Record xml_leaf := XmlLeaf { leaf_tag : string; leaf_text : option string }.

Record xml_node := XmlNode {
  node_tag : string;
  node_text : option string;
  node_children : list xml_leaf
}.

(** An annotation of the source schema: the text [get_documentation]
    extracts from it, and, when it has an element tree, the children of each
    [appinfo] element found in it. *)
Record xsd_annotation := XsdAnnotation {
  documentation : option string;
  elem : option (list (list xml_node))
}.

Section AppInfo.

Context {T : Type} `{DocTarget T}.

Definition record_appinfo_entry (target : T) (tag : string)
    (text : option string) : T :=
  let name := local_name (Some tag) in
  let stripped := PyStr.strip (default "" text) in
  let value := if PyStr.nonempty stripped then stripped else "true" in
  let annotations := default ∅ (doc_annotations target) in
  let key :=
    if bool_decide (annotations !! name = None) then name
    else name +:+ "_" +:+ PyStr.of_nat (size annotations) in
  doc_set_annotations (<[key := Annotation name value]> annotations) target.

Definition apply_appinfo_node (target : T) (node : xml_node) : T :=
  if String.eqb (PyStr.lower (local_name (Some (node_tag node)))) "xsdfu"
  then foldl (λ target child,
                record_appinfo_entry target (leaf_tag child) (leaf_text child))
             target (node_children node)
  else record_appinfo_entry target (node_tag node) (node_text node).

Definition apply_appinfo_metadata (target : T)
    (annotation : option xsd_annotation) : T :=
  match annotation with
  | Some a =>
      match elem a with
      | Some appinfos =>
          foldl (λ target appinfo, foldl apply_appinfo_node target appinfo)
                target appinfos
      | None => target
      end
  | None => target
  end.

End AppInfo.

Definition get_documentation (annotation : option xsd_annotation) : option string :=
  annotation ≫= documentation.

(** The documentation text of the example. *)
Definition tiered_doc : string :=
  "tier = 1" +:+ newline +:+ "SomeTag = foo" +:+ newline
  +:+ "This is the description.".

(** *** Annotation names that collide *)

(** A documentation text in which [X] occurs twice, after a key that is
    spelled like the index-suffixed name of the second occurrence. *)
Definition colliding_doc : string :=
  "X_1 = c" +:+ newline +:+ "X = a" +:+ newline +:+ "X = b".

Definition repeated_key_doc (v1 v2 : string) : string :=
  "X = " +:+ v1 +:+ newline +:+ "X = " +:+ v2.

(** The annotation entries of a slot. *)
Definition annotations_of (s : slot) : list (string * annotation) :=
  map_to_list (default ∅ (annotations s)).

(** ** slot_builder.SlotBuilder *)

(** An attribute declaration of the source schema. *)
Record xsd_attribute := XsdAttribute {
  attr_type : option xsd_type;
  attr_annotation : option xsd_annotation;
  attr_use : option string
}.

(** The builder shares the schema dictionary with its reference resolver,
    which reads [classes] from it. *)
Record slot_builder := SlotBuilder {
  sb_schema : linkml_schema;
  sb_inheritance_map : gmap string string;
  sb_known_class_names : gset string;
  attr_description_overrides : gmap string (gmap string string)
}.

Definition sb_reference_resolver (self : slot_builder) : reference_resolver :=
  ReferenceResolver (classes (sb_schema self)) (sb_inheritance_map self)
    (sb_known_class_names self).

Definition is_word_char (c : ascii) : bool :=
  let n := nat_of_ascii c in
  ((48 <=? n) && (n <=? 57) || (65 <=? n) && (n <=? 90)
   || (97 <=? n) && (n <=? 122) || (n =? 95))%nat.

(** [re.sub(r"[^A-Za-z0-9_]+", "_", s)]: [in_run] tells that the
    previous character was replaced already. *)
Fixpoint squash_non_word (in_run : bool) (s : string) : string :=
  match s with
  | EmptyString => EmptyString
  | String c r =>
      if is_word_char c then String c (squash_non_word false r)
      else if in_run then squash_non_word true r
           else String "_" (squash_non_word true r)
  end.

Definition sanitize_enum_name (class_name attr_name : string) : string :=
  squash_non_word false ("Enum_" +:+ class_name +:+ "_" +:+ attr_name).

(** The keys of [{str(v): {} for v in values}], in order. *)
Definition permissible_values (values : list string) : list string :=
  foldl append_if_absent [] values.

Definition ensure_enum_for_slot (schema : linkml_schema)
    (class_name attr_name : string) (values : list string)
    : string * linkml_schema :=
  let enum_name := sanitize_enum_name class_name attr_name in
  match enums schema !! enum_name with
  | None =>
      (enum_name,
       set_enums (<[enum_name := permissible_values values]> (enums schema)) schema)
  | Some _ => (enum_name, schema)
  end.

Definition enumeration_of (t : option xsd_type) : list string :=
  match t with
  | Some (XsdTypeNode _ _ enumeration _ _ _) => enumeration
  | _ => []
  end.

Definition pattern_facet_of (t : option xsd_type) : option pattern_facet :=
  match t with
  | Some (XsdTypeNode _ _ _ pat _ _) => pat
  | _ => None
  end.

Definition min_value_of (t : option xsd_type) : option Z :=
  match t with
  | Some (XsdTypeNode _ _ _ _ lo _) => lo
  | _ => None
  end.

Definition max_value_of (t : option xsd_type) : option Z :=
  match t with
  | Some (XsdTypeNode _ _ _ _ _ hi) => hi
  | _ => None
  end.

(** The pattern of a facet: its own, else that of the first member of
    [patterns], else that of the first member of [regexps]. *)
Definition pattern_value_of (facet : pattern_facet) : option string :=
  let first_pattern (members : list (option string)) :=
    match members with p :: _ => p | [] => None end in
  let v := pf_pattern facet in
  let v := if PyStr.truthy v then v else first_pattern (pf_patterns facet) in
  let v := if PyStr.truthy v then v else first_pattern (pf_regexps facet) in
  if PyStr.truthy v then v else None.

Definition slot_from_attribute (self : slot_builder) (owner_class attr_name : string)
    (attr_obj : xsd_attribute) : slot * linkml_schema :=
  let attr_type := attr_type attr_obj in
  let slot := set_range (map_xsd_primitive attr_type) empty_slot in
  let type_name_local := local_name (attr_type ≫= type_name_of) in
  let attr_name_lower := PyStr.lower attr_name in
  let resolver := sb_reference_resolver self in
  let slot :=
    if String.eqb attr_name_lower "id"
       && class_is_ref_like resolver (Some owner_class)
    then
      match reference_target_for_class resolver owner_class (Some type_name_local) with
      | Some target_candidate =>
          if PyStr.nonempty target_candidate
          then set_range target_candidate slot else slot
      | None => slot
      end
    else slot in
  let doc := get_documentation (attr_annotation attr_obj) in
  let custom_doc :=
    default ∅ (attr_description_overrides self !! owner_class) !! attr_name in
  let slot := apply_doc_metadata slot doc in
  let slot :=
    match custom_doc with
    | Some text => if PyStr.nonempty text then set_description text slot else slot
    | None => slot
    end in
  let slot := apply_appinfo_metadata slot (attr_annotation attr_obj) in
  let enum_values := enumeration_of attr_type in
  let '(slot, schema) :=
    match enum_values with
    | [] => (slot, sb_schema self)
    | _ =>
        let '(enum_name, schema) :=
          ensure_enum_for_slot (sb_schema self) owner_class attr_name enum_values in
        (set_range enum_name slot, schema)
    end in
  let slot :=
    match pattern_facet_of attr_type with
    | Some facet =>
        match pattern_value_of facet with
        | Some pattern_value => set_pattern pattern_value slot
        | None => slot
        end
    | None => slot
    end in
  let slot :=
    match min_value_of attr_type with
    | Some min_inclusive => set_minimum_value min_inclusive slot
    | None => slot
    end in
  let slot :=
    match max_value_of attr_type with
    | Some max_inclusive => set_maximum_value max_inclusive slot
    | None => slot
    end in
  let slot :=
    if bool_decide (attr_use attr_obj = Some "required")
    then set_required true slot else slot in
  let slot :=
    if String.eqb attr_name_lower "id"
       || PyStr.nonempty type_name_local && PyStr.endswith type_name_local "ID"
    then set_identifier true slot else slot in
  (slot, schema).

(** A reference class [ImageRef] next to the class [Image] it points to. *)
Definition image_builder : slot_builder :=
  SlotBuilder
    (LinkmlSchema
       (<["Image" := ClassDef None None None None (Some "An image") None None]>
          {[ "ImageRef" := derived_of "Reference" ]})
       ∅)
    ∅ {[ "Image"; "ImageRef" ]} ∅.

Definition id_attribute (enumeration : list string) : xsd_attribute :=
  XsdAttribute
    (Some (XsdTypeNode (Some "{http://www.openmicroscopy.org/Schemas/OME}ImageID")
             (Some (XsdTypeStr "xs:string")) enumeration None None None))
    None (Some "required").

(** ** identity_processor.IdentityProcessor *)

(** What a keyref refers to: the qualified name it was declared with, or
    the constraint it was resolved to (its [name] and its [str()]). *)
Inductive refer_target :=
| ReferName (qname : string)
| ReferIdentity (name : option string) (text : string).

(** An identity constraint of the source schema.  [selector] is the path of
    the selector, if the constraint has a selector; [fields] are the paths
    of its fields. *)
Inductive identity :=
| XsdKey (selector : option string) (fields : list string)
| XsdUnique (selector : option string) (fields : list string)
| XsdKeyref (refer : option refer_target) (selector : option string)
    (fields : list string)
| XsdOtherIdentity.

(** [[seg for seg in path.replace("//", "/").split("/") if seg and seg != "."]] *)
Definition path_segments (path : string) : list string :=
  filter (λ seg, PyStr.nonempty seg = true ∧ seg ≠ ".")
         (PyStr.split_char "/" (PyStr.collapse_double_slash path)).

(** The slot a field path names: its last step, without the [@] of an
    attribute step and without a prefix. *)
Definition field_slot_name (field_path : string) : string :=
  let field_segment := default "" (last (PyStr.split_char "/" field_path)) in
  let field_segment :=
    if PyStr.startswith field_segment "@" then PyStr.tail field_segment
    else field_segment in
  local_name (Some field_segment).

(** [key_target_map.setdefault(key, set()).add(target_class)]; the set is
    kept as the list of its members, in the order in which they were added.
    Python iterates the set in an order of its own; what is proved of the
    processor below does not depend on which order it is. *)
Definition key_target_add (key target_class : string)
    (key_target_map : gmap string (list string)) : gmap string (list string) :=
  <[key := append_if_absent (default [] (key_target_map !! key)) target_class]>
    key_target_map.

(** [{"range": t, "annotations": {"references_t": {"tag": "references",
    "value": t}}}] *)
Definition reference_slot (range_target : string) : slot :=
  set_annotations
    {[ "references_" +:+ range_target := Annotation "references" range_target ]}
    (set_range range_target empty_slot).

Section IdentityProcessor.

(** The converter that owns the schema, and the two callbacks into it that
    the processor is built with; a callback that raises returns [None].
    The reference resolver reads the converter's schema. *)
Variable converter : Type.
Variable add_attribute : string → string → slot → converter → option converter.
Variable add_unique_key : string → string → list string → converter → option converter.
Variable resolver_of : converter → reference_resolver.

(** The state of the loop of [process_identities]. *)
Definition identities_state : Type := converter * gmap string (list string).

(** The slot names of a key or unique constraint. *)
Definition key_slot_names (fields : list string) : list string :=
  omap (λ field_path,
          if PyStr.nonempty field_path then
            let field_segment := field_slot_name field_path in
            if PyStr.nonempty field_segment then Some field_segment else None
          else None)
       fields.

Definition register_key_path (key_local_name : string) (slot_names : list string)
    (st : option identities_state) (path : string) : option identities_state :=
  '(conv, key_target_map) ← st;
  let path := PyStr.strip path in
  if PyStr.nonempty path then
    match last (path_segments path) with
    | Some target_segment =>
        if bool_decide (target_segment = "*" ∨ target_segment = ".")
        then Some (conv, key_target_map)
        else
          let target_class := local_name (Some target_segment) in
          if PyStr.nonempty target_class then
            conv' ← add_unique_key target_class key_local_name slot_names conv;
            Some (conv', key_target_add key_local_name target_class key_target_map)
          else Some (conv, key_target_map)
    | None => Some (conv, key_target_map)
    end
  else Some (conv, key_target_map).

Definition process_key (ident_name : string) (selector : option string)
    (fields : list string) (st : identities_state) : option identities_state :=
  match selector with
  | None => Some st
  | Some selector_path =>
      let selector_paths :=
        if PyStr.nonempty selector_path
        then map PyStr.strip (PyStr.split_char "|" selector_path)
        else [selector_path] in
      let slot_names := key_slot_names fields in
      match slot_names with
      | [] => Some st
      | _ =>
          foldl (register_key_path (local_name (Some ident_name)) slot_names)
                (Some st) selector_paths
      end
  end.

Definition refer_key_of (refer : refer_target) : string :=
  match refer with
  | ReferName qname => local_name (Some qname)
  | ReferIdentity name text =>
      if PyStr.truthy name then local_name name else local_name (Some text)
  end.

(** One round of the loop over the fields of a keyref. *)
Definition add_reference_field (source_class : string)
    (range_target : option string) (st : option converter)
    (field_path : string) : option converter :=
  conv ← st;
  if PyStr.nonempty field_path then
    let slot_name := field_slot_name field_path in
    if PyStr.nonempty slot_name && PyStr.truthy range_target then
      add_attribute source_class slot_name
        (reference_slot (default "" range_target)) conv
    else Some conv
  else Some conv.

(** The candidate classes of a keyref: those of the key it refers to. *)
Definition keyref_target_classes (key_target_map : gmap string (list string))
    (refer : refer_target) : list string :=
  default [] (key_target_map !! refer_key_of refer).

Definition process_keyref (refer : option refer_target) (selector : option string)
    (fields : list string) (st : identities_state) : option identities_state :=
  let '(conv, key_target_map) := st in
  match refer with
  | None => Some st
  | Some refer =>
      let target_classes := keyref_target_classes key_target_map refer in
      let selector_path := default "" selector in
      match last (path_segments selector_path) with
      | None => Some st
      | Some source_segment =>
          if bool_decide (source_segment = "*" ∨ source_segment = ".")
          then Some st
          else
            let source_class := local_name (Some source_segment) in
            let range_target :=
              select_keyref_range (resolver_of conv) target_classes in
            conv' ← foldl (add_reference_field source_class range_target)
                          (Some conv) fields;
            Some (conv', key_target_map)
      end
  end.

Definition process_identity (st : option identities_state)
    (entry : string * identity) : option identities_state :=
  st ← st;
  match entry.2 with
  | XsdKey selector fields | XsdUnique selector fields =>
      process_key entry.1 selector fields st
  | XsdKeyref refer selector fields => process_keyref refer selector fields st
  | XsdOtherIdentity => Some st
  end.

(** [process_identities] on the [identities] of the schema, in order;
    [None] when a callback raised. *)
Definition process_identities (identities : list (string * identity))
    (conv : converter) : option converter :=
  fst <$> foldl process_identity (Some (conv, ∅)) identities.

End IdentityProcessor.

(** A keyref with nothing to point at, or with no field to carry the
    reference. *)
Definition keyref_unresolvable (converter : Type)
    (resolver_of : converter → reference_resolver)
    (st : identities_state converter)
    (refer : refer_target) (fields : list string) : Prop :=
  let candidates := keyref_target_classes st.2 refer in
  candidates = []
  ∨ (Forall (λ c, c ≠ "") candidates ∧ (2 ≤ length candidates)%nat
     ∧ ∀ a, on_every_chain (resolver_of st.1) candidates a = false)
  ∨ Forall (λ p, p = "") fields.

(** A converter that logs the slots and the unique keys it is asked to
    add. *)
Definition logging_converter : Type :=
  reference_resolver * list (string * string * slot)
  * list (string * string * list string).

Definition log_attribute (class_name slot_name : string) (slot_def : slot)
    (conv : logging_converter) : option logging_converter :=
  let '(r, slots, keys) := conv in
  Some (r, slots ++ [(class_name, slot_name, slot_def)], keys).

Definition log_unique_key (class_name key_name : string) (slot_names : list string)
    (conv : logging_converter) : option logging_converter :=
  let '(r, slots, keys) := conv in
  Some (r, slots, keys ++ [(class_name, key_name, slot_names)]).

(** A converter whose [add_attribute] always raises. *)
Definition refuse_attribute (class_name slot_name : string) (slot_def : slot)
    (conv : logging_converter) : option logging_converter :=
  None.

Definition logging_resolver (conv : logging_converter) : reference_resolver :=
  conv.1.1.

(** Keys on [DerivedA] and on [DerivedA | DerivedB], and keyrefs to each of
    them and to a key that does not exist. *)
Definition lost_keyref : identity :=
  XsdKeyref (Some (ReferName "{ns}NoSuchKey")) (Some ".//ns:Holder") ["@Ref"].

Definition sample_identities : list (string * identity) :=
  [ ("{ns}AKey", XsdKey (Some ".//ns:DerivedA") ["@ID"]);
    ("{ns}ABKey", XsdUnique (Some "ns:DerivedA | ns:DerivedB") ["@Name"]);
    ("{ns}LostRef", lost_keyref);
    ("{ns}ARef",
     XsdKeyref (Some (ReferIdentity (Some "{ns}AKey") "XsdKey(name='AKey')"))
       (Some ".//ns:Holder") ["@ARef"]);
    ("{ns}ABRef",
     XsdKeyref (Some (ReferName "{ns}ABKey")) (Some ".//ns:Holder") ["ns:ABRef"]) ].

(** ** Further notions used by the properties *)

(** The naming convention of reference classes, as [class_is_ref_like]
    tests it on each class it visits. *)
Definition ref_named (class_name : string) : bool :=
  PyStr.endswith class_name "Ref" || String.eqb class_name "Reference".

(** The branches one item of a choice contributes, before the empty ones
    are dropped: those of a nested choice, else the item's own slots. *)
Definition branches_of_item (item : node) : list branch :=
  match item with
  | XsdGroup model _ _ _ =>
      if String.eqb model "choice" then extract_choice_branches item
      else [collect_branch_slots item]
  | XsdElement _ _ _ => [collect_branch_slots item]
  | XsdOther => []
  end.

(** [self'] records at least what [self] records: both membership maps
    have grown, and every class of [self] is still there with the same keys,
    its [exactly_one_of] list extended at the end. *)
Definition handler_extends (self self' : choice_constraint_handler) : Prop :=
  enums (h_schema self') = enums (h_schema self)
  ∧ (∀ c, members_of (choice_slot_membership self) c
          ⊆ members_of (choice_slot_membership self') c)
  ∧ (∀ c, members_of (choice_repeat_membership self) c
          ⊆ members_of (choice_repeat_membership self') c)
  ∧ (∀ c cls, classes (h_schema self) !! c = Some cls →
       ∃ cls' more,
         classes (h_schema self') !! c = Some cls'
         ∧ is_a cls' = is_a cls ∧ abstract cls' = abstract cls
         ∧ attributes cls' = attributes cls
         ∧ cls_description cls' = cls_description cls
         ∧ cls_in_subset cls' = cls_in_subset cls
         ∧ cls_annotations cls' = cls_annotations cls
         ∧ default [] (exactly_one_of cls')
           = default [] (exactly_one_of cls) ++ more).

(** Every repeating-choice member of a class is a choice member of it, and
    no [exactly_one_of] list holds an expression twice. *)
Definition handler_consistent (self : choice_constraint_handler) : Prop :=
  (∀ c, members_of (choice_repeat_membership self) c
        ⊆ members_of (choice_slot_membership self) c)
  ∧ (∀ c cls, classes (h_schema self) !! c = Some cls →
              NoDup (default [] (exactly_one_of cls))).

(** What [split_doc_metadata] keeps true of the metadata it collects. *)
Definition metadata_well_formed (metadata : list (string * list string)) : Prop :=
  NoDup metadata.*1
  ∧ Forall (λ kv, kv.1 ≠ "" ∧ PyStr.lower kv.1 ≠ "description" ∧ kv.2 ≠ [])
           metadata.

(** The subset names of [TIER_SUBSET_LOOKUP]. *)
Definition tier_subsets : list string := ["NBO_Tier1"; "NBO_Tier2"; "NBO_Tier3"].

(** [l'] is [l] with tier subsets appended, and has no repetition if [l]
    has none. *)
Definition subsets_extended (l l' : list string) : Prop :=
  (∃ more, l' = l ++ more ∧ Forall (λ n, n ∈ tier_subsets) more)
  ∧ (NoDup l → NoDup l').

(** The annotation names of a slot. *)
Definition annotation_names (s : slot) : gset string :=
  dom (default ∅ (annotations s)).

(** Every character of [s] satisfies [p]. *)
Fixpoint all_chars (p : ascii → bool) (s : string) : bool :=
  match s with
  | EmptyString => true
  | String c r => p c && all_chars p r
  end.

(** The stages of [slot_from_attribute], named for the properties below:
    the range before the enumeration step, the slot after documentation and
    vendor extensions are merged, and the facets and flags set at the end. *)
Definition reference_or_primitive (self : slot_builder)
    (owner_class attr_name : string) (attr_obj : xsd_attribute) : string :=
  let primitive := map_xsd_primitive (attr_type attr_obj) in
  if String.eqb (PyStr.lower attr_name) "id"
     && class_is_ref_like (sb_reference_resolver self) (Some owner_class)
  then
    match reference_target_for_class (sb_reference_resolver self) owner_class
            (Some (local_name (attr_type attr_obj ≫= type_name_of))) with
    | Some target_candidate =>
        if PyStr.nonempty target_candidate then target_candidate else primitive
    | None => primitive
    end
  else primitive.

Definition documented_slot (self : slot_builder)
    (owner_class attr_name : string) (attr_obj : xsd_attribute) : slot :=
  let slot :=
    set_range (reference_or_primitive self owner_class attr_name attr_obj)
      empty_slot in
  let slot := apply_doc_metadata slot (get_documentation (attr_annotation attr_obj)) in
  let slot :=
    match default ∅ (attr_description_overrides self !! owner_class) !! attr_name with
    | Some text => if PyStr.nonempty text then set_description text slot else slot
    | None => slot
    end in
  apply_appinfo_metadata slot (attr_annotation attr_obj).

Definition is_identifier_attribute (attr_name : string) (attr_obj : xsd_attribute)
    : bool :=
  let type_name_local := local_name (attr_type attr_obj ≫= type_name_of) in
  String.eqb (PyStr.lower attr_name) "id"
  || PyStr.nonempty type_name_local && PyStr.endswith type_name_local "ID".

Definition finished_slot (attr_name : string) (attr_obj : xsd_attribute)
    (documented : slot) : slot :=
  let attr_type := attr_type attr_obj in
  let slot :=
    match pattern_facet_of attr_type with
    | Some facet =>
        match pattern_value_of facet with
        | Some pattern_value => set_pattern pattern_value documented
        | None => documented
        end
    | None => documented
    end in
  let slot :=
    match min_value_of attr_type with
    | Some min_inclusive => set_minimum_value min_inclusive slot
    | None => slot
    end in
  let slot :=
    match max_value_of attr_type with
    | Some max_inclusive => set_maximum_value max_inclusive slot
    | None => slot
    end in
  let slot :=
    if bool_decide (attr_use attr_obj = Some "required")
    then set_required true slot else slot in
  if is_identifier_attribute attr_name attr_obj
  then set_identifier true slot else slot.

(** A builder with a description override for the attribute [Name] of
    [Image], and an attribute that carries its own documentation. *)
Definition described_builder : slot_builder :=
  SlotBuilder (LinkmlSchema ∅ ∅) ∅ ∅
    {[ "Image" := {[ "Name" := "The name of the image" ]} ]}.

Definition documented_attribute : xsd_attribute :=
  XsdAttribute None (Some (XsdAnnotation (Some "A name.") None)) None.

(** What the loop of [process_identities] keeps true of its key map: every
    key it knows has target classes, each recorded once and none of them
    without a name. *)
Definition key_targets_well_formed (key_target_map : gmap string (list string))
    : Prop :=
  map_Forall (λ _ target_classes,
                target_classes ≠ [] ∧ NoDup target_classes
                ∧ Forall (λ c, c ≠ "") target_classes)
             key_target_map.

(** The calls a logging converter has recorded: reference slots under named
    slots, and keys over named slots on named classes. *)
Definition logged_calls_well_formed (conv : logging_converter) : Prop :=
  Forall (λ call : string * string * slot,
            call.1.2 ≠ "" ∧ ∃ t, t ≠ "" ∧ call.2 = reference_slot t)
         conv.1.2
  ∧ Forall (λ call : string * string * list string,
              call.1.1 ≠ "" ∧ call.2 ≠ [] ∧ Forall (λ n, n ≠ "") call.2)
           conv.2.

(** ** slot_builder.SlotBuilder.build_child_element_slot *)

(** The type of a child element: complex ([is_complex()] holds), with its
    name if it has one, or else a type that [map_xsd_primitive] maps. *)
Inductive element_type :=
| ComplexType (name : option string)
| SimpleType (t : xsd_type).

(** A child element of a content model, with the attributes that
    [build_child_element_slot] reads.  [child_min_occurs] is [None] when the
    attribute is missing or no integer. *)
Record xsd_child := XsdChild {
  child_name : option string;
  child_annotation : option xsd_annotation;
  child_ref : option refer_target;
  child_type : option element_type;
  child_min_occurs : option Z;
  child_max_occurs : option occurs_bound;
  child_occurs : option (list (option Z))
}.

(** [bool(occurs_tuple)] *)
Definition occurs_truthy (occurs_tuple : option (list (option Z))) : bool :=
  match occurs_tuple with
  | Some (_ :: _) => true
  | _ => false
  end.

(** [occurs_tuple[-1]] of a non-empty tuple. *)
Definition occurs_last (occurs_tuple : option (list (option Z))) : option Z :=
  default None (occurs_tuple ≫= last).

Definition child_is_multivalued (child : xsd_child) : bool :=
  let maxo := child_max_occurs child in
  let occurs_tuple := child_occurs child in
  let maxo :=
    match maxo with
    | None =>
        if occurs_truthy occurs_tuple
        then BoundInt <$> occurs_last occurs_tuple else None
    | Some _ => maxo
    end in
  match maxo with
  | Some (BoundStr s) => String.eqb s "unbounded"
  | Some (BoundInt n) => (1 <? n)%Z
  | None =>
      occurs_truthy occurs_tuple
      && bool_decide (occurs_last occurs_tuple = None)
  end.

Definition fallback_description (child_name parent_class : string) : string :=
  "Child element " +:+ child_name +:+ " of " +:+ parent_class.

(** The result is the triple [(slot_def, child_name, child_range)], or
    [None]. *)
Definition build_child_element_slot (parent_class : string)
    (child_qname : option string) (child : xsd_child)
    : option (slot * string * option string) :=
  let raw_name :=
    if PyStr.truthy child_qname then child_qname else child_name child in
  let name := local_name raw_name in
  let name :=
    if PyStr.nonempty name then name else local_name (child_name child) in
  if PyStr.nonempty name then
    let child_doc := get_documentation (child_annotation child) in
    let child_range :=
      match child_ref child with
      | Some ref_target => Some (refer_key_of ref_target)
      | None =>
          match child_type child with
          | Some (ComplexType type_name) =>
              if PyStr.truthy type_name then Some (local_name type_name)
              else Some name
          | Some (SimpleType t) => Some (map_xsd_primitive (Some t))
          | None => None
          end
      end in
    let slot_def :=
      set_range
        (if PyStr.truthy child_range then default "" child_range else "string")
        empty_slot in
    let slot_def :=
      match child_min_occurs child with
      | Some mino => if (1 <=? mino)%Z then set_required true slot_def else slot_def
      | None => slot_def
      end in
    let slot_def :=
      if child_is_multivalued child then set_multivalued true slot_def
      else slot_def in
    let slot_def :=
      if PyStr.truthy child_doc then apply_doc_metadata slot_def child_doc
      else
        match description slot_def with
        | None => set_description (fallback_description name parent_class) slot_def
        | Some _ => slot_def
        end in
    let slot_def := apply_appinfo_metadata slot_def (child_annotation child) in
    Some (slot_def, name, child_range)
  else None.

(** A group with the occurrence attributes of a child. *)
Definition group_like (child : xsd_child) : node :=
  XsdGroup "choice" (child_max_occurs child) (child_occurs child) [].

(** A child that refers to the element [Image] and may repeat. *)
Definition image_child : xsd_child :=
  XsdChild None None (Some (ReferName "{ns}Image")) None (Some 0%Z) None
    (Some [Some 0%Z; None]).

(** A required child of a simple type. *)
Definition count_child : xsd_child :=
  XsdChild (Some "{ns}Count") None None (Some (SimpleType (XsdTypeStr "xs:integer")))
    (Some 1%Z) (Some (BoundInt 1)) None.

(** One round of [collect_choice_constraints]: the choice [group] is
    recorded for the class. *)
Definition record_choice (class_name : string)
    (self : choice_constraint_handler) (group : node)
    : choice_constraint_handler :=
  apply_choice_constraint self class_name (extract_choice_branches group)
    (choice_is_repeating group).

(** The choice among [A], [B] and [C] inside an optional sequence of the
    content. *)
Definition nested_choice_content : node :=
  XsdGroup "sequence" (Some (BoundInt 1)) (Some [Some 1%Z; Some 1%Z])
    [XsdElement (Some "X") None 1;
     XsdGroup "sequence" (Some (BoundInt 1)) (Some [Some 0%Z; Some 1%Z])
       [XsdElement (Some "D") None 1; abc_choice]].

(** * Properties *)

(** ** String operations on examples *)

Example local_name_clark : local_name (Some "{http://x}Image") = "Image".
Proof. reflexivity. Qed.

Example local_name_prefixed : local_name (Some "xs:string") = "string".
Proof. reflexivity. Qed.

Example strip_example : PyStr.strip "  tier = 1 " = "tier = 1".
Proof. reflexivity. Qed.

Example splitlines_example :
  PyStr.splitlines (String "a" (String "010" (String "b" (String "013" (String "010" "c")))))
  = ["a"; "b"; "c"].
Proof. reflexivity. Qed.

Example split_ws_example : PyStr.split_ws " 1  2 3" = ["1"; "2"; "3"].
Proof. reflexivity. Qed.

Example of_nat_example : PyStr.of_nat 12 = "12".
Proof. reflexivity. Qed.

(** ** Reference resolver: the ancestor walks finish within [walk_fuel] rounds *)

Section ResolverFacts.

Variable self : reference_resolver.

Let names : gset string := dom (rr_classes self) ∪ dom (inheritance_map self).

Lemma next_base_in_names c b : next_base self c = Some b → c ∈ names.
Proof.
  unfold next_base, class_base, names. intros H.
  destruct (rr_classes self !! c) as [cls|] eqn:Hc.
  - apply elem_of_union_l, elem_of_dom. eauto.
  - simpl in H. apply elem_of_union_r, elem_of_dom. eauto.
Qed.

Lemma unvisited_shrinks c (visited : gset string) :
  c ∈ names → c ∉ visited →
  size (names ∖ ({[c]} ∪ visited)) < size (names ∖ visited).
Proof.
  intros Hc Hv. apply subset_size.
  split.
  - intros x. rewrite !elem_of_difference, elem_of_union. tauto.
  - intros Hsub. specialize (Hsub c).
    rewrite !elem_of_difference, elem_of_union, elem_of_singleton in Hsub.
    tauto.
Qed.

Lemma ancestors_loop_fuel fuel visited current :
  size (names ∖ visited) < fuel →
  is_Some (ancestors_loop self fuel visited current).
Proof.
  revert visited current.
  induction fuel as [|fuel IH]; intros visited current Hlt; [lia|].
  destruct current as [c|]; simpl; [|eauto].
  destruct (PyStr.nonempty c && bool_decide (c ∉ visited)) eqn:Hgo; [|eauto].
  apply andb_prop in Hgo as [_ Hv]. apply bool_decide_eq_true_1 in Hv.
  apply fmap_is_Some.
  destruct (next_base self c) as [b|] eqn:Hb.
  - apply IH. apply next_base_in_names in Hb.
    pose proof (unvisited_shrinks c visited Hb Hv). lia.
  - destruct fuel; simpl; eauto.
Qed.

Lemma ref_like_loop_fuel fuel visited current :
  size (names ∖ visited) < fuel →
  is_Some (ref_like_loop self fuel visited current).
Proof.
  revert visited current.
  induction fuel as [|fuel IH]; intros visited current Hlt; [lia|].
  destruct current as [c|]; simpl; [|eauto].
  destruct (PyStr.nonempty c); [|eauto].
  destruct (PyStr.endswith c "Ref" || String.eqb c "Reference"); [eauto|].
  destruct (bool_decide (c ∈ visited)) eqn:Hv; [eauto|].
  apply bool_decide_eq_false_1 in Hv.
  destruct (next_base self c) as [b|] eqn:Hb.
  - apply IH. apply next_base_in_names in Hb.
    pose proof (unvisited_shrinks c visited Hb Hv). lia.
  - destruct fuel; simpl; eauto.
Qed.

Lemma ref_target_loop_fuel fuel visited current :
  size (names ∖ visited) < fuel →
  is_Some (ref_target_loop self fuel visited current).
Proof.
  revert visited current.
  induction fuel as [|fuel IH]; intros visited current Hlt; [lia|].
  destruct current as [c|]; simpl; [|eauto].
  destruct (PyStr.nonempty c); [|eauto].
  destruct (bool_decide (c ∈ visited)) eqn:Hv; [eauto|].
  apply bool_decide_eq_false_1 in Hv.
  match goal with |- is_Some (match ?f with _ => _ end) => destruct f end;
    [eauto|].
  destruct (next_base self c) as [b|] eqn:Hb.
  - apply IH. apply next_base_in_names in Hb.
    pose proof (unvisited_shrinks c visited Hb Hv). lia.
  - destruct fuel; simpl; eauto.
Qed.

Lemma walk_fuel_enough : size (names ∖ ∅) < walk_fuel self.
Proof.
  unfold walk_fuel. fold names.
  assert (size (names ∖ ∅) ≤ size names)%nat.
  { apply subseteq_size. intros x. rewrite elem_of_difference. tauto. }
  lia.
Qed.

(** More rounds than needed change nothing. *)
Lemma ancestors_loop_more fuel fuel' visited current l :
  ancestors_loop self fuel visited current = Some l → (fuel ≤ fuel')%nat →
  ancestors_loop self fuel' visited current = Some l.
Proof.
  revert fuel' visited current l.
  induction fuel as [|fuel IH]; intros fuel' visited current l H Hle.
  - destruct current as [c|]; simpl in *;
      destruct fuel'; simpl; try done;
      destruct (PyStr.nonempty c && bool_decide (c ∉ visited)); done.
  - destruct fuel' as [|fuel']; [lia|].
    destruct current as [c|]; simpl in *; [|done].
    destruct (PyStr.nonempty c && bool_decide (c ∉ visited)); [|done].
    destruct (ancestors_loop self fuel _ _) as [l'|] eqn:Hl'; [|done].
    erewrite IH; [done|exact Hl'|lia].
Qed.

Lemma ancestors_total cls_name fuel :
  (walk_fuel self ≤ fuel)%nat →
  ancestors_loop self fuel ∅ (Some cls_name) = Some (ancestors self cls_name).
Proof.
  intros Hle. unfold ancestors.
  destruct (ancestors_loop_fuel (walk_fuel self) ∅ (Some cls_name) walk_fuel_enough)
    as [l Hl].
  rewrite Hl. simpl. eapply ancestors_loop_more; eauto.
Qed.

Lemma class_is_ref_like_total class_name :
  PyStr.truthy class_name = true →
  ref_like_loop self (walk_fuel self) ∅ class_name
  = Some (class_is_ref_like self class_name).
Proof.
  intros Ht. unfold class_is_ref_like. rewrite Ht.
  destruct (ref_like_loop_fuel (walk_fuel self) ∅ class_name walk_fuel_enough)
    as [b Hb].
  by rewrite Hb.
Qed.

Lemma ref_target_loop_total owner_class :
  is_Some (ref_target_loop self (walk_fuel self) ∅ (Some owner_class)).
Proof. apply ref_target_loop_fuel, walk_fuel_enough. Qed.

(** A candidate's chain starts with the candidate itself. *)
Lemma ancestors_head cls_name :
  cls_name ≠ "" → ∃ l, ancestors self cls_name = cls_name :: l.
Proof.
  intros Hne.
  pose proof (ancestors_total cls_name (walk_fuel self) (le_n _)) as H.
  unfold walk_fuel in H at 1. simpl in H.
  assert (PyStr.nonempty cls_name = true) as Hn by (by destruct cls_name).
  rewrite Hn in H. rewrite bool_decide_eq_true_2 in H by set_solver.
  simpl in H.
  destruct (ancestors_loop self _ _ _) as [l|]; [|done].
  simpl in H. injection H as <-. eauto.
Qed.

Lemma ancestors_empty_name : ancestors self "" = [].
Proof. reflexivity. Qed.

End ResolverFacts.

(** ** Reference resolver: the nearest common ancestor *)

Section SelectFacts.

Variable self : reference_resolver.

Lemma ancestor_lists_cons c (cs : list string) :
  ancestor_lists self (c :: cs)
  = match (if PyStr.nonempty c then
             match ancestors self c with [] => None | l => Some l end
           else None) with
    | Some l => l :: ancestor_lists self cs
    | None => ancestor_lists self cs
    end.
Proof. reflexivity. Qed.

Lemma ancestor_lists_all (candidates : list string) :
  Forall (λ c, c ≠ "") candidates →
  ancestor_lists self candidates = map (ancestors self) candidates.
Proof.
  induction 1 as [|c cs Hc _ IH]; [done|].
  rewrite ancestor_lists_cons, IH.
  destruct (ancestors_head self c Hc) as [l Hl].
  assert (PyStr.nonempty c = true) as -> by (by destruct c).
  simpl. by rewrite Hl.
Qed.

Lemma elem_of_intersect_rest a common rest :
  a ∈ intersect_rest common rest ↔ a ∈ common ∧ Forall (λ l, a ∈ l) rest.
Proof.
  revert common. induction rest as [|l rest IH]; intros common; simpl.
  - split; [intros; split; [done|constructor]|tauto].
  - destruct (decide (common ∩ list_to_set l = ∅)) as [He|Hne].
    + rewrite He. split; [by intros ?%not_elem_of_empty|].
      intros [Ha Hall]. inversion Hall; subst.
      assert (a ∈ common ∩ (list_to_set l : gset string)) as Hin
        by (apply elem_of_intersection; split; [done|by apply elem_of_list_to_set]).
      by rewrite He in Hin.
    + rewrite IH, elem_of_intersection, elem_of_list_to_set.
      split.
      * intros [[? ?] ?]. split; [done|by constructor].
      * intros [? Hall]. inversion Hall; subst. tauto.
Qed.

Lemma find_ext_elem {A} (p q : A → bool) (l : list A) :
  (∀ x, x ∈ l → p x = q x) → List.find p l = List.find q l.
Proof.
  induction l as [|x l IH]; intros H; [done|]. simpl.
  rewrite (H x) by constructor.
  destruct (q x); [done|]. apply IH. intros y Hy. apply H. by constructor.
Qed.

Lemma find_none_all {A} (p : A → bool) (l : list A) :
  (∀ x, x ∈ l → p x = false) → List.find p l = None.
Proof.
  induction l as [|x l IH]; intros H; [done|]. simpl.
  rewrite (H x) by constructor. apply IH. intros y Hy. apply H. by constructor.
Qed.

Lemma on_every_chain_spec candidates a :
  on_every_chain self candidates a = true
  ↔ Forall (λ l, a ∈ l) (map (ancestors self) candidates).
Proof.
  unfold on_every_chain. rewrite forallb_forall, Forall_map, Forall_forall.
  split; intros H c Hc.
  - apply list_elem_of_In in Hc. apply H in Hc. by apply bool_decide_eq_true_1 in Hc.
  - apply bool_decide_eq_true_2, H. by apply list_elem_of_In.
Qed.

Lemma select_keyref_range_spec (candidates : list string) :
  Forall (λ c, c ≠ "") candidates →
  select_keyref_range self candidates = nearest_common_ancestor self candidates.
Proof.
  intros Hne.
  destruct candidates as [|c1 [|c2 cs]]; [done|done|].
  unfold select_keyref_range, nearest_common_ancestor.
  rewrite (ancestor_lists_all _ Hne).
  set (tc := c1 :: c2 :: cs) in *.
  change (map (ancestors self) tc)
    with (ancestors self c1 :: map (ancestors self) (c2 :: cs)).
  cbv beta iota.
  set (common := intersect_rest _ _).
  assert (∀ a, a ∈ ancestors self c1 →
               bool_decide (a ∈ common) = on_every_chain self tc a) as Hpred.
  { intros a Ha. apply eq_true_iff_eq.
    rewrite bool_decide_eq_true, on_every_chain_spec.
    unfold common. rewrite elem_of_intersect_rest, elem_of_list_to_set.
    unfold tc. simpl. rewrite (Forall_cons _ (ancestors self c1)). tauto. }
  destruct (decide (common = ∅)) as [He|_].
  - symmetry. apply find_none_all. intros a Ha.
    rewrite <- Hpred by done. apply bool_decide_eq_false_2.
    rewrite He. apply not_elem_of_empty.
  - by apply find_ext_elem.
Qed.

End SelectFacts.

(** C1.  [select_keyref_range] returns none on the empty candidate set and
    the sole element on a singleton; on any set of (non-empty) class names,
    whatever the order in which the set is iterated, it returns the first
    class of the first candidate's self-to-root chain that lies on every
    candidate's chain, and none if there is no such class.  With [DerivedA]
    and [DerivedB] children of [Base] it returns [Base] on both of them,
    [DerivedA] on [DerivedA] alone and none on the empty set. *)
Theorem select_keyref_range_nearest_common_ancestor :
  (∀ self, select_keyref_range self [] = None)
  ∧ (∀ self c, select_keyref_range self [c] = Some c)
  ∧ (∀ self candidates,
       Forall (λ c, c ≠ "") candidates →
       select_keyref_range self candidates
       = nearest_common_ancestor self candidates)
  ∧ select_keyref_range base_derived_resolver ["DerivedA"; "DerivedB"] = Some "Base"
  ∧ select_keyref_range base_derived_resolver ["DerivedB"; "DerivedA"] = Some "Base"
  ∧ select_keyref_range base_derived_resolver ["DerivedA"] = Some "DerivedA"
  ∧ select_keyref_range base_derived_resolver [] = None.
Proof.
  split; [done|]. split; [done|].
  split; [intros; by apply select_keyref_range_spec|].
  repeat split; vm_compute; reflexivity.
Qed.

Lemma select_keyref_range_nearest_common_ancestor_witness :
  Forall (λ c, c ≠ "") ["DerivedA"; "DerivedB"]
  ∧ select_keyref_range base_derived_resolver ["DerivedA"; "DerivedB"]
    = nearest_common_ancestor base_derived_resolver ["DerivedA"; "DerivedB"].
Proof.
  assert (Forall (λ c, c ≠ "") ["DerivedA"; "DerivedB"]) as H
    by (repeat constructor; discriminate).
  split; [exact H|].
  exact (proj1 (proj2 (proj2 select_keyref_range_nearest_common_ancestor))
           base_derived_resolver ["DerivedA"; "DerivedB"] H).
Defined.

Lemma ancestors_loop_chain self fuel visited current l :
  ancestors_loop self fuel visited current = Some l →
  chain_from self visited current l.
Proof.
  revert visited current l.
  induction fuel as [|fuel IH]; intros visited current l H;
    destruct current as [c|]; simpl in H;
    try (injection H as <-; constructor; intros ? [=]);
    destruct (PyStr.nonempty c) eqn:Hn;
    destruct (decide (c ∈ visited)) as [Hv|Hv];
    rewrite ?(bool_decide_eq_true_2 _ Hv), ?(bool_decide_eq_false_2 _ Hv) in H;
    try rewrite (bool_decide_eq_false_2 (c ∉ visited)) in H by tauto;
    try rewrite (bool_decide_eq_true_2 (c ∉ visited)) in H by tauto;
    simpl in H; try done;
    try (injection H as <-; constructor; intros ? [= <-];
         destruct c; simpl in Hn; by auto).
  destruct (ancestors_loop self fuel _ _) as [l'|] eqn:Hl'; [|done].
  injection H as <-. constructor; [by destruct c|done|by apply IH].
Qed.

Lemma ancestors_chain self cls_name :
  chain_from self ∅ (Some cls_name) (ancestors self cls_name).
Proof.
  eapply ancestors_loop_chain. apply ancestors_total. reflexivity.
Qed.

(** ** Constraint handler: the relaxation pass, class by class *)

Section RelaxFacts.

Variable change : slot → slot.

Lemma relax_slot_lookup attrs x n :
  relax_slot change attrs x !! n
  = if decide (n = x) then guarded change <$> attrs !! n else attrs !! n.
Proof.
  unfold relax_slot, guarded.
  destruct (decide (n = x)) as [->|Hne].
  - destruct (attrs !! x) as [s|] eqn:Hs; [|by rewrite Hs].
    simpl. destruct (slot_truthy s); [by rewrite lookup_insert_eq|by rewrite Hs].
  - destruct (attrs !! x) as [s|]; [|done].
    destruct (slot_truthy s); [by rewrite lookup_insert_ne|done].
Qed.

Lemma foldl_relax_slot_lookup (l : list string) attrs n :
  NoDup l →
  foldl (relax_slot change) attrs l !! n
  = if bool_decide (n ∈ l) then guarded change <$> attrs !! n else attrs !! n.
Proof.
  intros Hnd. revert attrs.
  induction Hnd as [|x l Hx Hnd IH]; intros attrs; [done|].
  simpl. rewrite IH, relax_slot_lookup.
  destruct (decide (n = x)) as [->|Hne].
  - rewrite (bool_decide_eq_false_2 (x ∈ l)) by done.
    rewrite (bool_decide_eq_true_2 (x ∈ x :: l)) by constructor. done.
  - destruct (decide (n ∈ l)) as [Hin|Hnin].
    + rewrite !bool_decide_eq_true_2; [done|by constructor|done].
    + rewrite !bool_decide_eq_false_2; [done| |done].
      intros [?|?]%elem_of_cons; done.
Qed.

Lemma relaxed_attrs_lookup names attrs n :
  relaxed_attrs change names attrs !! n
  = (λ s, if bool_decide (n ∈ names) then guarded change s else s) <$> attrs !! n.
Proof.
  unfold relaxed_attrs. rewrite map_lookup_imap. by destruct (attrs !! n).
Qed.

Lemma foldl_relax_slot_elements (names : gset string) attrs :
  foldl (relax_slot change) attrs (elements names)
  = relaxed_attrs change names attrs.
Proof.
  apply map_eq. intros n.
  rewrite foldl_relax_slot_lookup by apply NoDup_elements.
  rewrite relaxed_attrs_lookup.
  destruct (decide (n ∈ names)) as [Hin|Hnin].
  - rewrite !bool_decide_eq_true_2; [done|done|by apply elem_of_elements].
  - rewrite !bool_decide_eq_false_2; [by destruct (attrs !! n)|done|].
    by rewrite elem_of_elements.
Qed.

Lemma set_attributes_same cls attrs :
  attributes cls = Some attrs → set_attributes attrs cls = cls.
Proof. destruct cls; simpl; by intros ->. Qed.

Lemma relaxed_class_empty cls : relaxed_class change ∅ cls = cls.
Proof.
  unfold relaxed_class. destruct (attributes cls) as [attrs|] eqn:Ha; [|done].
  assert (relaxed_attrs change ∅ attrs = attrs) as ->.
  { apply map_eq. intros n. rewrite relaxed_attrs_lookup.
    rewrite bool_decide_eq_false_2 by apply not_elem_of_empty.
    by destruct (attrs !! n). }
  by apply set_attributes_same.
Qed.

Lemma relax_class_lookup_eq cn names cs :
  relax_class change cn names cs !! cn = relaxed_class change names <$> cs !! cn.
Proof.
  unfold relax_class, relaxed_class.
  destruct (cs !! cn) as [cls|] eqn:Hc; [|by rewrite Hc].
  destruct (class_truthy cls) eqn:Ht.
  - simpl. destruct (attributes cls) as [attrs|] eqn:Ha; [|done].
    by rewrite lookup_insert_eq, foldl_relax_slot_elements.
  - rewrite Hc. unfold class_truthy in Ht.
    apply bool_decide_eq_false_1 in Ht.
    destruct (decide (cls = empty_class)) as [->|]; [done|tauto].
Qed.

Lemma relax_class_lookup_ne c cn names cs :
  c ≠ cn → relax_class change c names cs !! cn = cs !! cn.
Proof.
  intros Hne. unfold relax_class.
  destruct (cs !! c) as [cls|]; [|done].
  destruct (class_truthy cls); [|done].
  destruct (attributes cls); [|done].
  by rewrite lookup_insert_ne.
Qed.

(** Either outer loop, whatever the order in which it meets the classes. *)
Lemma relax_fold_lookup (m : gmap string (gset string)) cs cn :
  map_fold (relax_class change) cs m !! cn
  = relaxed_class change (members_of m cn) <$> cs !! cn.
Proof.
  revert cn.
  apply (map_fold_weak_ind
           (λ r m', ∀ cn, r !! cn
                          = relaxed_class change (members_of m' cn) <$> cs !! cn)).
  - intros cn. unfold members_of. rewrite lookup_empty. simpl.
    destruct (cs !! cn) as [cls|]; [|done]. simpl.
    by rewrite relaxed_class_empty.
  - intros c names m' r Hc IH cn. unfold members_of in *.
    destruct (decide (c = cn)) as [->|Hne].
    + rewrite relax_class_lookup_eq, IH, Hc, lookup_insert_eq. simpl.
      destruct (cs !! cn) as [cls|]; [|done]. simpl.
      by rewrite relaxed_class_empty.
    + by rewrite relax_class_lookup_ne, IH, lookup_insert_ne.
Qed.

End RelaxFacts.

Lemma relax_choice_constraints_lookup self cn :
  classes (h_schema (relax_choice_constraints self)) !! cn
  = (λ cls, relaxed_class (set_multivalued true)
              (members_of (choice_repeat_membership self) cn)
              (relaxed_class pop_required
                 (members_of (choice_slot_membership self) cn) cls))
    <$> classes (h_schema self) !! cn.
Proof.
  unfold relax_choice_constraints. simpl.
  rewrite !relax_fold_lookup. by destruct (classes (h_schema self) !! cn).
Qed.

(** A slot held by a class, before and after the pass. *)
Lemma relax_choice_constraints_slot self cn cls attrs n s :
  classes (h_schema self) !! cn = Some cls →
  attributes cls = Some attrs →
  attrs !! n = Some s →
  ∃ cls' attrs',
    classes (h_schema (relax_choice_constraints self)) !! cn = Some cls'
    ∧ attributes cls' = Some attrs'
    ∧ attrs' !! n
      = Some (relaxed_slot
                (bool_decide (n ∈ members_of (choice_slot_membership self) cn))
                (bool_decide (n ∈ members_of (choice_repeat_membership self) cn))
                s).
Proof.
  intros Hc Ha Hn.
  rewrite relax_choice_constraints_lookup, Hc. simpl.
  unfold relaxed_class at 2. rewrite Ha.
  unfold relaxed_class. simpl.
  eexists _, _. split; [done|]. split; [done|].
  rewrite !relaxed_attrs_lookup, Hn. simpl. unfold relaxed_slot.
  destruct (bool_decide (n ∈ members_of (choice_slot_membership self) cn));
    destruct (bool_decide (n ∈ members_of (choice_repeat_membership self) cn));
    done.
Qed.

Lemma relax_choice_constraints_slot_inv self cn cls' attrs' n s' :
  classes (h_schema (relax_choice_constraints self)) !! cn = Some cls' →
  attributes cls' = Some attrs' →
  attrs' !! n = Some s' →
  ∃ cls attrs s,
    classes (h_schema self) !! cn = Some cls
    ∧ attributes cls = Some attrs
    ∧ attrs !! n = Some s
    ∧ s' = relaxed_slot
             (bool_decide (n ∈ members_of (choice_slot_membership self) cn))
             (bool_decide (n ∈ members_of (choice_repeat_membership self) cn))
             s.
Proof.
  intros Hc' Ha' Hn'.
  rewrite relax_choice_constraints_lookup in Hc'.
  destruct (classes (h_schema self) !! cn) as [cls|] eqn:Hc; [|done].
  simpl in Hc'. injection Hc' as <-.
  destruct (attributes cls) as [attrs|] eqn:Ha.
  - destruct (attrs !! n) as [s|] eqn:Hn.
    + destruct (relax_choice_constraints_slot self cn cls attrs n s Hc Ha Hn)
        as (cls2 & attrs2 & H1 & H2 & H3).
      rewrite relax_choice_constraints_lookup, Hc in H1. simpl in H1.
      injection H1 as <-. rewrite Ha' in H2. injection H2 as <-.
      rewrite Hn' in H3. injection H3 as ->. eauto 10.
    + unfold relaxed_class in Ha'. rewrite Ha in Ha'. simpl in Ha'.
      injection Ha' as <-.
      rewrite !relaxed_attrs_lookup, Hn in Hn'. done.
  - unfold relaxed_class in Ha'. repeat (rewrite Ha in Ha'; simpl in Ha'). done.
Qed.

Lemma relaxed_slot_required in_repeat s :
  required (relaxed_slot true in_repeat s) = None.
Proof.
  unfold relaxed_slot, guarded.
  destruct (slot_truthy s) eqn:Hs.
  - destruct in_repeat; [|done].
    by destruct (slot_truthy (pop_required s)).
  - unfold slot_truthy in Hs. apply bool_decide_eq_false_1 in Hs.
    destruct (decide (s = empty_slot)) as [->|]; [|tauto].
    by destruct in_repeat.
Qed.

Lemma relaxed_slot_multivalued in_choice s :
  pop_required s ≠ empty_slot →
  multivalued (relaxed_slot in_choice true s) = Some true.
Proof.
  intros Hne. unfold relaxed_slot, guarded.
  assert (s ≠ empty_slot) as Hs by (intros ->; by apply Hne).
  assert (slot_truthy s = true) as Ht by (by apply bool_decide_eq_true_2).
  assert (slot_truthy (pop_required s) = true) as Ht'
    by (by apply bool_decide_eq_true_2).
  destruct in_choice; by rewrite ?Ht, ?Ht'.
Qed.

Lemma relaxed_slot_untouched s : relaxed_slot false false s = s.
Proof. reflexivity. Qed.

(** ** Constraint handler: what recording a choice does *)

Section ApplyFacts.

Variables (self : choice_constraint_handler) (class_name : string)
          (branches : list branch) (repeating : bool).

Let self' := apply_choice_constraint self class_name branches repeating.
Let universe : gset string := ⋃ (map slot_set branches).

Lemma apply_choice_constraint_short :
  (length branches < 2)%nat → self' = self.
Proof.
  intros H. unfold self', apply_choice_constraint.
  by rewrite (proj2 (Nat.ltb_lt _ _) H).
Qed.

Lemma elem_of_universe n :
  n ∈ universe ↔ ∃ b, b ∈ branches ∧ n ∈ b.*1.
Proof.
  unfold universe. rewrite elem_of_union_list. split.
  - intros (X & HX & Hn). apply list_elem_of_fmap in HX as (b & -> & Hb).
    exists b. split; [done|]. unfold slot_set in Hn.
    by apply elem_of_list_to_set in Hn.
  - intros (b & Hb & Hn). exists (slot_set b). split.
    + apply list_elem_of_fmap. eauto.
    + unfold slot_set. by apply elem_of_list_to_set.
Qed.

Hypothesis Hlong : (2 ≤ length branches)%nat.

Lemma apply_choice_constraint_members :
  members_of (choice_slot_membership self') class_name
  = members_of (choice_slot_membership self) class_name ∪ universe.
Proof.
  unfold self', apply_choice_constraint.
  rewrite (proj2 (Nat.ltb_ge _ _) Hlong). simpl.
  unfold members_of, membership_update. by rewrite lookup_insert_eq.
Qed.

Lemma apply_choice_constraint_repeat_members :
  repeating = true →
  members_of (choice_repeat_membership self') class_name
  = members_of (choice_repeat_membership self) class_name ∪ universe.
Proof.
  intros ->. unfold self', apply_choice_constraint.
  rewrite (proj2 (Nat.ltb_ge _ _) Hlong). simpl.
  unfold members_of, membership_update. by rewrite lookup_insert_eq.
Qed.

Lemma apply_choice_constraint_class :
  classes (h_schema self') !! class_name
  = Some (let cls := default empty_class (classes (h_schema self) !! class_name) in
          if forallb (λ s, (size s =? 1)%nat) (map slot_set branches)
          then add_exactly_one_of (exclusive_group (map slot_set branches)) cls
          else cls).
Proof.
  unfold self', apply_choice_constraint.
  rewrite (proj2 (Nat.ltb_ge _ _) Hlong). simpl.
  by rewrite lookup_insert_eq.
Qed.

(** The class keeps the attributes it had. *)
Lemma apply_choice_constraint_attributes cls attrs :
  classes (h_schema self) !! class_name = Some cls →
  attributes cls = Some attrs →
  ∃ cls', classes (h_schema self') !! class_name = Some cls'
          ∧ attributes cls' = Some attrs.
Proof.
  intros Hc Ha. rewrite apply_choice_constraint_class, Hc. simpl.
  eexists. split; [done|].
  by destruct (forallb _ _).
Qed.

End ApplyFacts.

(** ** Constraint handler: choices of single-slot branches *)

Lemma slot_set_single b n : single_slot b n → slot_set b = {[n]}.
Proof.
  intros [Hne Hall]. unfold slot_set. apply set_eq. intros x.
  rewrite elem_of_list_to_set, elem_of_singleton, list_elem_of_fmap.
  split.
  - intros (p & -> & Hp). rewrite Forall_forall in Hall. by apply Hall.
  - intros ->. destruct b as [|p b]; [done|].
    exists p. split; [|by constructor]. by inversion Hall.
Qed.

Lemma slot_sets_single (branches : list branch) names :
  Forall2 single_slot branches names →
  map slot_set branches = map (λ n, {[n]}) names.
Proof.
  induction 1 as [|b n bs ns Hb _ IH]; [done|].
  simpl. by rewrite IH, (slot_set_single b n).
Qed.

Lemma singletons_size (names : list string) :
  forallb (λ s : gset string, (size s =? 1)%nat) (map (λ n, {[n]}) names) = true.
Proof.
  induction names as [|n ns IH]; [done|].
  cbn [map forallb]. by rewrite size_singleton, IH.
Qed.

Lemma first_of_singleton (n : string) : first_of {[n]} = Some n.
Proof. unfold first_of. by rewrite elements_singleton. Qed.

Lemma exclusive_group_singletons (names : list string) :
  exclusive_group (map (λ n, {[n]}) names) = foldl append_if_absent [] names.
Proof.
  unfold exclusive_group. generalize (@nil string) as acc.
  induction names as [|n ns IH]; intros acc; [done|].
  simpl. by rewrite first_of_singleton, IH.
Qed.

Section AppendIfAbsent.

Context {A B : Type} `{EqDecision B} (f : A → B).

Lemma foldl_append_if_absent_elem (l : list A) (acc : list B) x :
  x ∈ foldl (λ a n, append_if_absent a (f n)) acc l
  ↔ x ∈ acc ∨ ∃ n, n ∈ l ∧ x = f n.
Proof.
  revert acc. induction l as [|n l IH]; intros acc; simpl.
  - split; [by left|]. intros [?|(n & Hn & _)]; [done|by inversion Hn].
  - rewrite IH. unfold append_if_absent.
    destruct (decide (f n ∈ acc)) as [Hin|Hnin].
    + rewrite bool_decide_eq_true_2 by done. split.
      * intros [?|(m & Hm & ->)]; [by left|].
        right. exists m. split; [by constructor|done].
      * intros [?|(m & Hm & ->)]; [by left|].
        apply elem_of_cons in Hm as [-> |Hm]; [by left|].
        right. eauto.
    + rewrite bool_decide_eq_false_2 by done.
      rewrite elem_of_app, list_elem_of_singleton. split.
      * intros [[?| ->]|(m & Hm & ->)]; [by left| |].
        -- right. exists n. split; [constructor|done].
        -- right. exists m. split; [by constructor|done].
      * intros [?|(m & Hm & ->)]; [by left; left|].
        apply elem_of_cons in Hm as [-> |Hm]; [by left; right|].
        right. eauto.
Qed.

Lemma foldl_append_if_absent_fresh (l : list A) (acc : list B) :
  NoDup (acc ++ map f l) →
  foldl (λ a n, append_if_absent a (f n)) acc l = acc ++ map f l.
Proof.
  revert acc. induction l as [|n l IH]; intros acc Hnd; simpl.
  - by rewrite app_nil_r.
  - unfold append_if_absent at 2.
    apply NoDup_app in Hnd as Hparts. destruct Hparts as (_ & Hdisj & _).
    rewrite bool_decide_eq_false_2.
    + rewrite IH; rewrite <- app_assoc; done.
    + intros Hin. apply (Hdisj _ Hin). simpl. constructor.
Qed.

End AppendIfAbsent.

Lemma required_expr_inj n m : required_expr n = required_expr m → n = m.
Proof.
  intros H. apply (f_equal slot_conditions) in H.
  unfold required_expr in H. cbn [slot_conditions] in H.
  assert (({[m := set_required true empty_slot]} : gmap string slot) !! n
          = Some (set_required true empty_slot)) as Hl
    by (rewrite <- H; apply lookup_singleton_eq).
  apply lookup_singleton_Some in Hl as [-> _]. done.
Qed.

Lemma exclusive_group_elem (names : list string) n :
  n ∈ foldl append_if_absent [] names ↔ n ∈ names.
Proof.
  pose proof (foldl_append_if_absent_elem (λ x : string, x) names [] n) as H.
  rewrite H. split.
  - intros [Hn|(m & Hm & ->)]; [by inversion Hn|done].
  - intros Hn. right. eauto.
Qed.

Lemma exclusive_group_nodup (names : list string) :
  NoDup names → foldl append_if_absent [] names = names.
Proof.
  intros Hnd.
  pose proof (foldl_append_if_absent_fresh (λ x : string, x) names []) as H.
  rewrite map_id in H. by apply H.
Qed.

Example abc_choice_branches :
  extract_choice_branches abc_choice
  = [[("A", true)]; [("B", true)]; [("C", true)]].
Proof. reflexivity. Qed.

Example abc_choice_encoded :
  let h := relax_choice_constraints
             (collect_choice_constraints sample_handler "Sample" (Some abc_choice)) in
  exactly_one_of_of h "Sample"
  = Some [required_expr "A"; required_expr "B"; required_expr "C"]
  ∧ slot_of h "Sample" "A" = Some (string_slot None).
Proof. vm_compute. split; reflexivity. Qed.

Lemma apply_choice_constraint_single_slots
    (self : choice_constraint_handler) (cn : string)
    (branches : list branch) (names : list string) (repeating : bool) :
  (2 ≤ length branches)%nat →
  Forall2 single_slot branches names →
  let prior :=
    default [] (exactly_one_of
                  (default empty_class (classes (h_schema self) !! cn))) in
  ∃ exprs,
    exactly_one_of_of (apply_choice_constraint self cn branches repeating) cn
    = Some exprs
    ∧ (∀ e, e ∈ exprs ↔ e ∈ prior ∨ ∃ n, n ∈ names ∧ e = required_expr n)
    ∧ (prior = [] → NoDup names → exprs = map required_expr names).
Proof.
  intros Hlong Hsingle prior.
  unfold exactly_one_of_of.
  rewrite apply_choice_constraint_class by done.
  rewrite (slot_sets_single _ _ Hsingle), singletons_size,
    exclusive_group_singletons.
  cbn [mbind option_bind add_exactly_one_of set_exactly_one_of exactly_one_of].
  fold prior. eexists. split; [done|]. split.
  - intros e. rewrite foldl_append_if_absent_elem.
    split; (intros [?|(n & Hn & ->)]; [by left|right; exists n]);
      (split; [|done]); by apply exclusive_group_elem.
  - intros Hprior Hnd. rewrite Hprior, (exclusive_group_nodup _ Hnd).
    apply (foldl_append_if_absent_fresh required_expr names []). simpl.
    apply NoDup_fmap_2; [|done]. intros ? ?. apply required_expr_inj.
Qed.

Lemma single_slot_names_recorded
    (self : choice_constraint_handler) (cn : string)
    (branches : list branch) (names : list string) (repeating : bool) n :
  (2 ≤ length branches)%nat →
  Forall2 single_slot branches names →
  n ∈ names →
  n ∈ members_of
        (choice_slot_membership
           (apply_choice_constraint self cn branches repeating)) cn.
Proof.
  intros Hlong Hsingle Hn.
  rewrite apply_choice_constraint_members by done.
  apply elem_of_union_r, elem_of_universe.
  apply list_elem_of_lookup in Hn as [i Hi].
  destruct (Forall2_lookup_r _ _ _ _ _ Hsingle Hi) as (b & Hb & [Hne Hall]).
  exists b. split; [by eapply list_elem_of_lookup_2|].
  destruct b as [|p b]; [done|]. inversion Hall; subst.
  simpl. constructor.
Qed.

Lemma relax_choice_member_required self cn n s :
  n ∈ members_of (choice_slot_membership self) cn →
  slot_of (relax_choice_constraints self) cn n = Some s →
  required s = None.
Proof.
  intros Hn Hs. unfold slot_of in Hs.
  destruct (classes (h_schema (relax_choice_constraints self)) !! cn)
    as [cls'|] eqn:Hc'; [|done].
  simpl in Hs. destruct (attributes cls') as [attrs'|] eqn:Ha'; [|done].
  simpl in Hs.
  destruct (relax_choice_constraints_slot_inv _ _ _ _ _ _ Hc' Ha' Hs)
    as (cls & attrs & s0 & _ & _ & _ & ->).
  rewrite bool_decide_eq_true_2 by done. apply relaxed_slot_required.
Qed.

(** C2 fails as stated on a choice with one branch: the branch contributes
    exactly one slot name, yet no [exactly_one_of] is recorded and the slot
    stays required after the relaxation pass. *)
Lemma single_branch_choice_not_encoded :
  let h := relax_choice_constraints
             (collect_choice_constraints sample_handler "Sample"
                (Some one_branch_choice)) in
  extract_choice_branches one_branch_choice = [[("A", true)]]
  ∧ exactly_one_of_of h "Sample" = None
  ∧ (slot_of h "Sample" "A" ≫= required) = Some true.
Proof. vm_compute. repeat split; reflexivity. Qed.

Lemma repeatable_is_repeating group :
  repeatable group ↔ choice_is_repeating group = true.
Proof.
  destruct group as [| model [[k|s]|] [occurs_tuple|] items |]; simpl;
    try done; try (symmetry; apply Z.ltb_lt);
    try (by rewrite String.eqb_eq).
  by destruct (last occurs_tuple) as [[final|]|].
Qed.

(** C3 fails as stated on a repeatable choice with one branch: its slot is
    not marked multivalued by the relaxation pass. *)
Lemma single_branch_repeating_choice_not_multivalued :
  let h := relax_choice_constraints
             (collect_choice_constraints sample_handler "Sample"
                (Some one_branch_repeating_choice)) in
  choice_is_repeating one_branch_repeating_choice = true
  ∧ extract_choice_branches one_branch_repeating_choice = [[("X", false)]]
  ∧ slot_of h "Sample" "X" = Some (string_slot None)
  ∧ (slot_of h "Sample" "X" ≫= multivalued) = None.
Proof. vm_compute. repeat split; reflexivity. Qed.

Lemma extract_choice_branches_nonempty group :
  Forall (λ b, b ≠ []) (extract_choice_branches group).
Proof.
  destruct group as [| model maxo occurs items |]; simpl; try constructor.
  apply Forall_forall. intros b Hb.
  apply list_elem_of_filter in Hb as [Hb _]. by destruct b.
Qed.

Lemma relax_unrecorded_slot self cn n s :
  n ∉ members_of (choice_slot_membership self) cn →
  slot_of self cn n = Some s →
  ∃ s', slot_of (relax_choice_constraints self) cn n = Some s'
        ∧ required s' = required s.
Proof.
  intros Hn Hs. unfold slot_of in Hs.
  destruct (classes (h_schema self) !! cn) as [cls|] eqn:Hc; [|done].
  simpl in Hs. destruct (attributes cls) as [attrs|] eqn:Ha; [|done].
  simpl in Hs.
  destruct (relax_choice_constraints_slot self cn cls attrs n s Hc Ha Hs)
    as (cls2 & attrs2 & Hc2 & Ha2 & Hn2).
  eexists. split.
  - unfold slot_of. rewrite Hc2. simpl. rewrite Ha2. simpl. exact Hn2.
  - rewrite (bool_decide_eq_false_2 _ Hn). unfold relaxed_slot, guarded.
    destruct (bool_decide (n ∈ members_of (choice_repeat_membership self) cn));
      [by destruct (slot_truthy s)|reflexivity].
Qed.

Lemma relaxed_slot_same_other_keys a b s : same_other_keys s (relaxed_slot a b s).
Proof.
  unfold relaxed_slot, guarded.
  destruct a, b; simpl;
    repeat match goal with |- context [slot_truthy ?x] => destruct (slot_truthy x) end;
    by repeat split.
Qed.

Lemma relaxed_slot_required_unrecorded b s :
  required (relaxed_slot false b s) = required s.
Proof.
  unfold relaxed_slot, guarded. destruct b; [|done].
  by destruct (slot_truthy s).
Qed.

Lemma relaxed_slot_multivalued_unrecorded a s :
  multivalued (relaxed_slot a false s) = multivalued s.
Proof.
  unfold relaxed_slot, guarded. destruct a; [|done].
  by destruct (slot_truthy s).
Qed.

Lemma relaxed_slot_multivalued_cases a s :
  multivalued (relaxed_slot a true s) = multivalued s
  ∨ multivalued (relaxed_slot a true s) = Some true.
Proof.
  unfold relaxed_slot, guarded.
  match goal with |- context [slot_truthy (if a then ?x else _)] =>
    destruct (slot_truthy (if a then x else s)) end; [by right|left].
  destruct a; [|done]. by destruct (slot_truthy s).
Qed.

Lemma relaxed_class_same_keys change names cls :
  same_class_keys cls (relaxed_class change names cls).
Proof.
  unfold relaxed_class. destruct (attributes cls); by repeat split.
Qed.

Lemma relaxed_class_attributes change names cls :
  attributes (relaxed_class change names cls)
  = relaxed_attrs change names <$> attributes cls.
Proof.
  unfold relaxed_class. destruct (attributes cls) eqn:Ha; [done|].
  by rewrite Ha.
Qed.

(** C4.  The relaxation pass leaves both membership maps and the
    enumerations as they are, keeps the set of classes, and in every class
    keeps every key but [attributes]; a class recorded in neither map is
    identical after the pass, a class without attributes stays without,
    and a class with attributes keeps exactly its slot names.  A
    slot keeps every key other than [required] and [multivalued]; its
    [required] key is either unchanged or removed, and removed only if the
    slot is recorded as a choice member of the class; its [multivalued] key
    is either unchanged or set to true, and set only if the slot is recorded
    as a repeating-choice member; a slot recorded in neither map is
    identical after the pass. *)
Theorem relax_choice_constraints_frame (self : choice_constraint_handler) :
  let self' := relax_choice_constraints self in
  choice_slot_membership self' = choice_slot_membership self
  ∧ choice_repeat_membership self' = choice_repeat_membership self
  ∧ enums (h_schema self') = enums (h_schema self)
  ∧ (∀ cn, classes (h_schema self) !! cn = None →
           classes (h_schema self') !! cn = None)
  ∧ (∀ cn, members_of (choice_slot_membership self) cn = ∅ →
           members_of (choice_repeat_membership self) cn = ∅ →
           classes (h_schema self') !! cn = classes (h_schema self) !! cn)
  ∧ (∀ cn cls, classes (h_schema self) !! cn = Some cls →
       ∃ cls', classes (h_schema self') !! cn = Some cls'
               ∧ same_class_keys cls cls'
               ∧ (attributes cls = None → attributes cls' = None)
               ∧ (∀ attrs, attributes cls = Some attrs →
                    ∃ attrs', attributes cls' = Some attrs'
                              ∧ dom attrs' = dom attrs))
  ∧ (∀ cn n s, slot_of self cn n = Some s →
       ∃ s', slot_of self' cn n = Some s'
             ∧ same_other_keys s s'
             ∧ (required s' = required s
                ∨ (n ∈ members_of (choice_slot_membership self) cn
                   ∧ required s' = None))
             ∧ (multivalued s' = multivalued s
                ∨ (n ∈ members_of (choice_repeat_membership self) cn
                   ∧ multivalued s' = Some true))
             ∧ (n ∉ members_of (choice_slot_membership self) cn →
                n ∉ members_of (choice_repeat_membership self) cn →
                s' = s)).
Proof.
  intros self'. repeat split; try done.
  - intros cn Hc. unfold self'.
    by rewrite relax_choice_constraints_lookup, Hc.
  - intros cn H1 H2. unfold self'.
    rewrite relax_choice_constraints_lookup, H1, H2.
    destruct (classes (h_schema self) !! cn) as [cls|]; [|done].
    simpl. by rewrite !relaxed_class_empty.
  - intros cn cls Hc. unfold self'.
    rewrite relax_choice_constraints_lookup, Hc. simpl.
    eexists. split; [done|]. repeat split.
    1-6: by (unfold relaxed_class; destruct (attributes cls) eqn:Ha;
             simpl; rewrite ?Ha).
    + intros Ha. by rewrite !relaxed_class_attributes, Ha.
    + intros attrs Ha. rewrite !relaxed_class_attributes, Ha. simpl.
      eexists. split; [done|].
      apply set_eq. intros n. rewrite !elem_of_dom.
      rewrite !relaxed_attrs_lookup. by rewrite !fmap_is_Some.
  - intros cn n s Hs. unfold slot_of in Hs.
    destruct (classes (h_schema self) !! cn) as [cls|] eqn:Hc; [|done].
    simpl in Hs. destruct (attributes cls) as [attrs|] eqn:Ha; [|done].
    simpl in Hs.
    destruct (relax_choice_constraints_slot self cn cls attrs n s Hc Ha Hs)
      as (cls2 & attrs2 & Hc2 & Ha2 & Hn2).
    eexists. split.
    { unfold slot_of, self'. rewrite Hc2. simpl. rewrite Ha2. simpl. exact Hn2. }
    split; [apply relaxed_slot_same_other_keys|].
    split; [|split].
    + destruct (decide (n ∈ members_of (choice_slot_membership self) cn)) as [H1|H1].
      * right. split; [done|].
        rewrite (bool_decide_eq_true_2 _ H1). apply relaxed_slot_required.
      * left. rewrite (bool_decide_eq_false_2 _ H1).
        apply relaxed_slot_required_unrecorded.
    + destruct (decide (n ∈ members_of (choice_repeat_membership self) cn)) as [H2|H2].
      * rewrite (bool_decide_eq_true_2 _ H2).
        destruct (relaxed_slot_multivalued_cases
                    (bool_decide (n ∈ members_of (choice_slot_membership self) cn)) s)
          as [->| ->]; [by left|by right].
      * left. rewrite (bool_decide_eq_false_2 _ H2).
        apply relaxed_slot_multivalued_unrecorded.
    + intros H1 H2.
      by rewrite (bool_decide_eq_false_2 _ H1), (bool_decide_eq_false_2 _ H2).
Qed.

Lemma relax_choice_constraints_frame_witness :
  let h := apply_choice_constraint sample_handler "Sample"
             (extract_choice_branches abc_choice) false in
  ∃ s', slot_of (relax_choice_constraints h) "Sample" "X" = Some s'
        ∧ same_other_keys (string_slot None) s'
        ∧ s' = string_slot None.
Proof.
  intros h.
  destruct (relax_choice_constraints_frame h) as (_ & _ & _ & _ & _ & _ & H).
  destruct (H "Sample" "X" (string_slot None)) as (s' & Hs' & Hk & _ & _ & Hid).
  { reflexivity. }
  exists s'. split; [exact Hs'|]. split; [exact Hk|].
  apply Hid; vm_compute; discriminate.
Defined.

(** ** Primitive type mapper *)

Lemma xsd_type_chain_ind (P : xsd_type → Prop) :
  (∀ text, P (XsdTypeStr text)) →
  (∀ name enumeration pat lo hi, P (XsdTypeNode name None enumeration pat lo hi)) →
  (∀ name base enumeration pat lo hi,
     P base → P (XsdTypeNode name (Some base) enumeration pat lo hi)) →
  ∀ t, P t.
Proof.
  intros Hstr Hroot Hnode.
  fix IH 1. intros [text | name [base|] enumeration pat lo hi].
  - apply Hstr.
  - apply Hnode, IH.
  - apply Hroot.
Qed.

Lemma table_values_primitive type_name mapped :
  table_lookup type_name = Some mapped → mapped ∈ PRIMITIVE_RANGES.
Proof.
  unfold table_lookup, XSD_TO_LINKML_TYPE_MAP.
  intros Hl. apply elem_of_list_to_map_2 in Hl.
  assert (forallb (λ p, bool_decide (p.2 ∈ PRIMITIVE_RANGES)) type_table = true)
    as H by (vm_compute; reflexivity).
  rewrite forallb_forall in H.
  apply list_elem_of_In, H in Hl. by apply bool_decide_eq_true_1 in Hl.
Qed.

Lemma string_primitive : "string" ∈ PRIMITIVE_RANGES.
Proof.
  assert (bool_decide ("string" ∈ PRIMITIVE_RANGES) = true) as H
    by (vm_compute; reflexivity).
  by apply bool_decide_eq_true_1 in H.
Qed.

Lemma primitive_nonempty p : p ∈ PRIMITIVE_RANGES → PyStr.nonempty p = true.
Proof.
  intros H. destruct p; [|done]. exfalso.
  assert (bool_decide ("" ∈ PRIMITIVE_RANGES) = false) as Hf
    by (vm_compute; reflexivity).
  by apply bool_decide_eq_false_1 in Hf.
Qed.

Lemma map_xsd_node_primitive t : map_xsd_node t ∈ PRIMITIVE_RANGES.
Proof.
  induction t as [text | name enumeration pat lo hi
                 | name base enumeration pat lo hi IH] using xsd_type_chain_ind;
    cbn [map_xsd_node restriction_chain first_mapped declared_name].
  - destruct (PyStr.nonempty _); [|apply string_primitive].
    destruct (table_lookup _) eqn:Hl; cbn [default];
      [exact (table_values_primitive _ _ Hl)|apply string_primitive].
  - destruct (PyStr.truthy name); [|apply string_primitive].
    destruct (PyStr.nonempty _); [|apply string_primitive].
    destruct (table_lookup _) eqn:Hl;
      [exact (table_values_primitive _ _ Hl)|apply string_primitive].
  - destruct (PyStr.truthy name); [|exact IH].
    destruct (PyStr.nonempty (local_name name)); [|apply string_primitive].
    destruct (table_lookup _) eqn:Hl; [exact (table_values_primitive _ _ Hl)|].
    rewrite (primitive_nonempty _ IH). exact IH.
Qed.

Lemma map_xsd_node_first_mapped t :
  map_xsd_node t = first_mapped (restriction_chain t).
Proof.
  induction t as [text | name enumeration pat lo hi
                 | name base enumeration pat lo hi IH] using xsd_type_chain_ind;
    cbn [map_xsd_node restriction_chain first_mapped declared_name].
  - destruct (PyStr.nonempty _); [|reflexivity].
    destruct (table_lookup _); reflexivity.
  - destruct name as [raw|]; [|reflexivity].
    destruct (PyStr.truthy (Some raw)); [|reflexivity].
    destruct (PyStr.nonempty _); [|reflexivity].
    destruct (table_lookup _); reflexivity.
  - destruct name as [raw|]; [|exact IH].
    destruct (PyStr.truthy (Some raw)); [|exact IH].
    destruct (PyStr.nonempty (local_name (Some raw))); [|reflexivity].
    destruct (table_lookup _); [reflexivity|].
    rewrite (primitive_nonempty _ (map_xsd_node_primitive base)). exact IH.
Qed.

(** C9.  [map_xsd_primitive] is total and its result is always one of the
    primitive type names; it is ["string"] for a missing type; and for a
    type node it is the table entry of the first name along the node's
    base-type chain that the table knows, and ["string"] when the chain
    ends without one or a name cannot be determined. *)
Theorem map_xsd_primitive_first_mapped_on_chain :
  (∀ xsd_type, map_xsd_primitive xsd_type ∈ PRIMITIVE_RANGES)
  ∧ map_xsd_primitive None = "string"
  ∧ (∀ t, map_xsd_primitive (Some t) = first_mapped (restriction_chain t)).
Proof.
  split; [|split; [done|]].
  - intros [t|]; [apply map_xsd_node_primitive|apply string_primitive].
  - intros t. apply map_xsd_node_first_mapped.
Qed.

Example map_xsd_primitive_percent :
  map_xsd_primitive (Some percent_type) = "integer".
Proof. vm_compute. reflexivity. Qed.

Example map_xsd_primitive_unknown :
  map_xsd_primitive (Some (XsdTypeStr "xs:QName")) = "string".
Proof. vm_compute. reflexivity. Qed.

(** ** Documentation merger *)

Example split_tiered_doc :
  split_doc_metadata tiered_doc
  = ("This is the description.", [("tier", ["1"]); ("SomeTag", ["foo"])]).
Proof. vm_compute. reflexivity. Qed.

(** C7.  Merging the documentation text
    ["tier = 1\nSomeTag = foo\nThis is the description."] into an empty
    target, be it a slot or a class, sets the description to exactly
    ["This is the description."], the subset list to the tier-1 subset
    [NBO_Tier1], and the annotations to the single entry [SomeTag] with tag
    [SomeTag] and value [foo]; nothing else is set. *)
Theorem apply_doc_metadata_tiered_doc :
  apply_doc_metadata empty_slot (Some tiered_doc)
  = Slot None None None None None None None
      (Some "This is the description.") (Some ["NBO_Tier1"])
      (Some {[ "SomeTag" := Annotation "SomeTag" "foo" ]})
  ∧ apply_doc_metadata empty_class (Some tiered_doc)
    = ClassDef None None None None
        (Some "This is the description.") (Some ["NBO_Tier1"])
        (Some {[ "SomeTag" := Annotation "SomeTag" "foo" ]}).
Proof. split; vm_compute; reflexivity. Qed.

(** C8 does not hold of the code: the index-suffixed name is not checked
    against the entries already present.  In one merge, the second [X] is
    stored under [X_1] and replaces the entry that the key [X_1] put there;
    in two successive merges of a text with [X] twice, the second merge
    replaces the [X_1] entry of the first; and a vendor-extension entry [a]
    recorded after [a_2] and [a] is stored under [a_2] again. *)
Theorem annotation_suffix_overwrites :
  (let t := apply_doc_metadata empty_slot (Some colliding_doc) in
   split_doc_metadata colliding_doc = ("", [("X_1", ["c"]); ("X", ["a"; "b"])])
   ∧ annotations t
     = Some (<["X_1" := Annotation "X" "b"]> {[ "X" := Annotation "X" "a" ]}))
  ∧ (let t1 := apply_doc_metadata empty_slot (Some (repeated_key_doc "a" "b")) in
     let t2 := apply_doc_metadata t1 (Some (repeated_key_doc "c" "d")) in
     (annotations t1 ≫= (.!! "X_1")) = Some (Annotation "X" "b")
     ∧ (annotations t2 ≫= (.!! "X_1")) = Some (Annotation "X" "d")
     ∧ length (annotations_of t2) = 3%nat)
  ∧ (let t2 := record_appinfo_entry
                 (record_appinfo_entry empty_slot "a_2" (Some "first"))
                 "a" (Some "second") in
     let t3 := record_appinfo_entry t2 "a" (Some "third") in
     (annotations t2 ≫= (.!! "a_2")) = Some (Annotation "a_2" "first")
     ∧ (annotations t3 ≫= (.!! "a_2")) = Some (Annotation "a" "third")
     ∧ length (annotations_of t3) = 2%nat).
Proof. vm_compute. repeat split; reflexivity. Qed.

(** ** Slot builder: merging documentation leaves the other keys alone *)

Section MergerFrame.

Context {T A : Type} `{DocTarget T} (f : T → A).
Hypothesis f_description : ∀ v t, f (doc_set_description v t) = f t.
Hypothesis f_in_subset : ∀ v t, f (doc_set_in_subset v t) = f t.
Hypothesis f_annotations : ∀ v t, f (doc_set_annotations v t) = f t.

Lemma apply_metadata_to_target_frame target metadata :
  f (apply_metadata_to_target target metadata) = f target.
Proof.
  unfold apply_metadata_to_target.
  destruct metadata as [|kv metadata]; [done|].
  destruct (filter _ _) as [|? ?];
    destruct (concat _) as [|? ?];
    rewrite ?f_annotations, ?f_in_subset; done.
Qed.

Lemma apply_doc_metadata_frame target doc_value :
  f (apply_doc_metadata target doc_value) = f target.
Proof.
  unfold apply_doc_metadata.
  destruct doc_value as [text|]; [|done].
  destruct (PyStr.nonempty text); [|done].
  destruct (PyStr.nonempty (PyStr.strip text)); [|done].
  destruct (split_doc_metadata _) as [d m].
  rewrite apply_metadata_to_target_frame.
  destruct (PyStr.nonempty d); [apply f_description|done].
Qed.

Lemma record_appinfo_entry_frame target tag text :
  f (record_appinfo_entry target tag text) = f target.
Proof. unfold record_appinfo_entry. apply f_annotations. Qed.

Lemma apply_appinfo_node_frame target node :
  f (apply_appinfo_node target node) = f target.
Proof.
  unfold apply_appinfo_node.
  destruct (String.eqb _ _); [|apply record_appinfo_entry_frame].
  generalize (node_children node) as l. intros l. revert target.
  induction l as [|c l IH]; intros target; [done|].
  simpl. by rewrite IH, record_appinfo_entry_frame.
Qed.

Lemma apply_appinfo_metadata_frame target annotation :
  f (apply_appinfo_metadata target annotation) = f target.
Proof.
  unfold apply_appinfo_metadata.
  destruct annotation as [a|]; [|done].
  destruct (elem a) as [appinfos|]; [|done].
  revert target. induction appinfos as [|ai ais IH]; intros target; [done|].
  simpl. rewrite IH. clear IH.
  revert target. induction ai as [|n ns IH]; intros target; [done|].
  simpl. by rewrite IH, apply_appinfo_node_frame.
Qed.

End MergerFrame.

Lemma range_apply_doc_metadata (s : slot) doc :
  range (apply_doc_metadata s doc) = range s.
Proof. by apply (apply_doc_metadata_frame range). Qed.

Lemma range_apply_appinfo_metadata (s : slot) annotation :
  range (apply_appinfo_metadata s annotation) = range s.
Proof. by apply (apply_appinfo_metadata_frame range). Qed.

(** C5, as the code has it.  For an attribute named [id] whose owner class
    is reference-like and for which [reference_target_for_class] resolves a
    target class, the slot built by [slot_from_attribute] has that class as
    its range, provided the attribute's type declares no enumeration
    values. *)
Theorem slot_from_attribute_reference_range
    (self : slot_builder) (owner_class attr_name : string)
    (attr_obj : xsd_attribute) (target : string) :
  PyStr.lower attr_name = "id" →
  class_is_ref_like (sb_reference_resolver self) (Some owner_class) = true →
  reference_target_for_class (sb_reference_resolver self) owner_class
    (Some (local_name (attr_type attr_obj ≫= type_name_of))) = Some target →
  target ≠ "" →
  enumeration_of (attr_type attr_obj) = [] →
  range (slot_from_attribute self owner_class attr_name attr_obj).1 = Some target.
Proof.
  intros Hid Hlike Htarget Hne Henum.
  unfold slot_from_attribute.
  rewrite Hid, Hlike, Htarget, Henum.
  assert (PyStr.nonempty target = true) as -> by (by destruct target).
  cbn [String.eqb Ascii.eqb Bool.eqb andb orb fst].
  set (s0 := set_range target _).
  set (s1 := apply_doc_metadata s0 _).
  set (s2 := match default ∅ _ !! attr_name with Some _ => _ | None => _ end).
  set (s3 := apply_appinfo_metadata s2 _).
  assert (range s3 = Some target) as H3.
  { unfold s3. rewrite range_apply_appinfo_metadata.
    assert (range s1 = Some target) as H1
      by (unfold s1; by rewrite range_apply_doc_metadata).
    unfold s2. destruct (default ∅ _ !! attr_name) as [text|]; [|done].
    by destruct (PyStr.nonempty text). }
  clearbody s3. clear s0 s1 s2.
  destruct (pattern_facet_of _) as [facet|];
    [destruct (pattern_value_of facet)|];
    destruct (min_value_of _); destruct (max_value_of _);
    destruct (bool_decide _); simpl; exact H3.
Qed.

Lemma slot_from_attribute_reference_range_witness :
  range (slot_from_attribute image_builder "ImageRef" "id" (id_attribute [])).1
  = Some "Image".
Proof.
  apply (slot_from_attribute_reference_range image_builder "ImageRef" "id"
           (id_attribute []) "Image").
  - reflexivity.
  - vm_compute. reflexivity.
  - vm_compute. reflexivity.
  - discriminate.
  - reflexivity.
Defined.

(** C5 fails as stated when the type of the [id] attribute enumerates its
    values: the owner is reference-like and the target resolves, yet the
    range of the slot is the synthesized enumeration. *)
Lemma slot_from_attribute_enumerated_id :
  class_is_ref_like (sb_reference_resolver image_builder) (Some "ImageRef") = true
  ∧ reference_target_for_class (sb_reference_resolver image_builder) "ImageRef"
      (Some "ImageID") = Some "Image"
  ∧ range (slot_from_attribute image_builder "ImageRef" "id"
             (id_attribute ["Image:0"; "Image:1"])).1
    = Some "Enum_ImageRef_id".
Proof. vm_compute. repeat split; reflexivity. Qed.

(** ** Identity processor: keyrefs that are skipped *)

Section KeyrefSkipped.

Variable converter : Type.
Variable add_attribute : string → string → slot → converter → option converter.
Variable add_unique_key : string → string → list string → converter → option converter.
Variable resolver_of : converter → reference_resolver.

Lemma add_reference_fields_skip source_class range_target fields conv :
  PyStr.truthy range_target = false ∨ Forall (λ p, p = "") fields →
  foldl (add_reference_field converter add_attribute source_class range_target)
        (Some conv) fields = Some conv.
Proof.
  intros Hskip. induction fields as [|p fields IH]; [done|].
  simpl. destruct Hskip as [Hr|Hall].
  - rewrite Hr, andb_false_r.
    destruct (PyStr.nonempty p); apply IH; by left.
  - inversion Hall; subst. simpl. apply IH. by right.
Qed.

Lemma select_keyref_range_no_common self candidates :
  Forall (λ c, c ≠ "") candidates →
  (2 ≤ length candidates)%nat →
  (∀ a, on_every_chain self candidates a = false) →
  select_keyref_range self candidates = None.
Proof.
  intros Hne Hlen Hnone. rewrite select_keyref_range_spec by done.
  destruct candidates as [|c1 [|c2 cs]]; simpl in Hlen; [lia|lia|].
  unfold nearest_common_ancestor. apply find_none_all. intros a _. apply Hnone.
Qed.

Lemma process_keyref_skipped st refer selector fields :
  keyref_unresolvable converter resolver_of st refer fields →
  process_keyref converter add_attribute resolver_of
    (Some refer) selector fields st = Some st.
Proof.
  intros Hskip. destruct st as [conv key_target_map].
  unfold process_keyref.
  destruct (last (path_segments (default "" selector))) as [seg|]; [|done].
  destruct (bool_decide (seg = "*" ∨ seg = ".")); [done|].
  rewrite add_reference_fields_skip; [done|].
  unfold keyref_unresolvable in Hskip. simpl in Hskip.
  destruct Hskip as [Hnil|[(Hne & Hlen & Hnone)|Hfields]].
  - left. by rewrite Hnil.
  - left. by rewrite select_keyref_range_no_common.
  - by right.
Qed.

End KeyrefSkipped.

(** C6.  A keyref whose referred key has no target classes, or whose
    candidate classes have no class on all of their ancestor chains, or all
    of whose field paths are empty, is processed without an exception and
    without a call of [add_attribute], whatever the callbacks do: the
    converter and the key map are as before, and the remaining identity
    constraints are processed as if the keyref were not there. *)
Theorem process_identities_skips_unresolvable_keyref
    (converter : Type)
    (add_attribute : string → string → slot → converter → option converter)
    (add_unique_key : string → string → list string → converter → option converter)
    (resolver_of : converter → reference_resolver)
    (st : identities_state converter) (ident_name : string)
    (refer : refer_target) (selector : option string) (fields : list string)
    (rest : list (string * identity)) :
  keyref_unresolvable converter resolver_of st refer fields →
  process_identity converter add_attribute add_unique_key resolver_of
    (Some st) (ident_name, XsdKeyref (Some refer) selector fields) = Some st
  ∧ foldl (process_identity converter add_attribute add_unique_key resolver_of)
          (Some st) ((ident_name, XsdKeyref (Some refer) selector fields) :: rest)
    = foldl (process_identity converter add_attribute add_unique_key resolver_of)
            (Some st) rest.
Proof.
  intros Hskip.
  assert (process_identity converter add_attribute add_unique_key resolver_of
            (Some st) (ident_name, XsdKeyref (Some refer) selector fields)
          = Some st) as Hstep.
  { unfold process_identity. simpl. by apply process_keyref_skipped. }
  split; [exact Hstep|].
  exact (f_equal
           (λ s, foldl (process_identity converter add_attribute add_unique_key
                          resolver_of) s rest)
           Hstep).
Qed.

Example process_sample_identities :
  process_identities logging_converter log_attribute log_unique_key
    logging_resolver sample_identities (base_derived_resolver, [], [])
  = Some (base_derived_resolver,
          [("Holder", "ARef", reference_slot "DerivedA");
           ("Holder", "ABRef", reference_slot "Base")],
          [("DerivedA", "AKey", ["ID"]); ("DerivedA", "ABKey", ["Name"]);
           ("DerivedB", "ABKey", ["Name"])]).
Proof. vm_compute. reflexivity. Qed.

Lemma process_identities_skips_unresolvable_keyref_witness :
  let st : identities_state logging_converter :=
    ((base_derived_resolver, [], []), ∅) in
  process_identity logging_converter refuse_attribute log_unique_key
    logging_resolver (Some st) ("{ns}LostRef", lost_keyref) = Some st
  ∧ foldl (process_identity logging_converter refuse_attribute log_unique_key
             logging_resolver)
          (Some st) [("{ns}LostRef", lost_keyref)]
    = foldl (process_identity logging_converter refuse_attribute log_unique_key
               logging_resolver)
            (Some st) [].
Proof.
  intros st.
  apply (process_identities_skips_unresolvable_keyref logging_converter
           refuse_attribute log_unique_key logging_resolver st "{ns}LostRef"
           (ReferName "{ns}NoSuchKey") (Some ".//ns:Holder") ["@Ref"] []).
  left. reflexivity.
Defined.

(** ** Reference resolver: what the walks find *)

Lemma ref_like_loop_ancestors self fuel visited current l :
  ancestors_loop self fuel visited current = Some l →
  (∀ v, v ∈ visited → ref_named v = false) →
  ref_like_loop self fuel visited current = Some (existsb ref_named l).
Proof.
  revert visited current l.
  induction fuel as [|fuel IH]; intros visited current l Hl Hvis;
    destruct current as [c|]; simpl in *; try (by injection Hl as <-).
  - destruct (PyStr.nonempty c); [|by injection Hl as <-].
    destruct (decide (c ∈ visited)) as [Hc|Hc].
    + rewrite (bool_decide_eq_false_2 (c ∉ visited)) in Hl by tauto.
      injection Hl as <-. fold (ref_named c). rewrite (Hvis c Hc).
      by rewrite bool_decide_eq_true_2.
    + by rewrite (bool_decide_eq_true_2 (c ∉ visited)) in Hl.
  - destruct (PyStr.nonempty c); [|by injection Hl as <-].
    destruct (decide (c ∈ visited)) as [Hc|Hc].
    + rewrite (bool_decide_eq_false_2 (c ∉ visited)) in Hl by tauto.
      injection Hl as <-. fold (ref_named c). rewrite (Hvis c Hc).
      by rewrite bool_decide_eq_true_2.
    + rewrite (bool_decide_eq_true_2 (c ∉ visited)) in Hl by done.
      simpl in Hl.
      destruct (ancestors_loop self fuel _ _) as [l'|] eqn:Hl'; [|done].
      injection Hl as <-. fold (ref_named c). simpl.
      destruct (ref_named c) eqn:Hn; [done|].
      rewrite bool_decide_eq_false_2 by done.
      apply IH; [done|].
      intros v [->%elem_of_singleton|Hv]%elem_of_union; [done|by apply Hvis].
Qed.

(** X1.  A class is judged reference-like exactly when some class on its
    ancestor chain, the chain [select_keyref_range] walks, is named like a
    reference; the walk ends on every inheritance structure, cyclic or
    not, and a missing class name is never reference-like. *)
Theorem class_is_ref_like_some_ancestor_ref_named :
  (∀ self class_name,
     class_is_ref_like self (Some class_name)
     = existsb ref_named (ancestors self class_name))
  ∧ (∀ self, class_is_ref_like self None = false)
  ∧ (∀ self class_name fuel,
       (walk_fuel self ≤ fuel)%nat →
       ref_like_loop self fuel ∅ (Some class_name)
       = Some (class_is_ref_like self (Some class_name))).
Proof.
  assert (∀ self class_name fuel,
            (walk_fuel self ≤ fuel)%nat →
            ref_like_loop self fuel ∅ (Some class_name)
            = Some (existsb ref_named (ancestors self class_name))) as Hloop.
  { intros self c fuel Hle. apply ref_like_loop_ancestors.
    - by apply ancestors_total.
    - intros v Hv. by apply not_elem_of_empty in Hv. }
  assert (∀ self class_name,
            class_is_ref_like self (Some class_name)
            = existsb ref_named (ancestors self class_name)) as Hchar.
  { intros self c. unfold class_is_ref_like.
    destruct (PyStr.truthy (Some c)) eqn:Ht.
    - by rewrite (Hloop self c (walk_fuel self) (le_n _)).
    - destruct c; [done|discriminate]. }
  split; [exact Hchar|]. split; [done|].
  intros self c fuel Hle. by rewrite Hchar, Hloop.
Qed.

Lemma class_is_ref_like_some_ancestor_ref_named_witness :
  ref_like_loop base_derived_resolver 10 ∅ (Some "DerivedA")
  = Some (class_is_ref_like base_derived_resolver (Some "DerivedA")).
Proof.
  apply (proj2 (proj2 class_is_ref_like_some_ancestor_ref_named)).
  vm_compute. repeat constructor.
Defined.

Lemma known_prefix_known self k name t :
  known_prefix self k name = Some t →
  t ∈ known_class_names self ∧ t = PyStr.drop_last k name.
Proof.
  unfold known_prefix. case_bool_decide; [|done]. by intros [= <-].
Qed.

Lemma ref_target_loop_known self fuel visited current t :
  ref_target_loop self fuel visited current = Some (Some t) →
  t ∈ known_class_names self
  ∧ ∃ c base, class_base self c = Some base
              ∧ PyStr.endswith base "Ref" = true
              ∧ t = PyStr.drop_last 3 base.
Proof.
  revert visited current.
  induction fuel as [|fuel IH]; intros visited current H;
    destruct current as [c|]; simpl in H; try done;
    destruct (PyStr.nonempty c); try done;
    destruct (bool_decide (c ∈ visited)); try done.
  destruct (class_base self c) as [base|] eqn:Hb.
  - destruct (PyStr.nonempty base && PyStr.endswith base "Ref") eqn:Hr.
    + destruct (known_prefix self 3 base) as [cand|] eqn:Hk.
      * injection H as ->. apply known_prefix_known in Hk as [? ?].
        apply andb_prop in Hr as [_ Hr]. eauto 10.
      * by apply IH in H.
    + by apply IH in H.
  - by apply IH in H.
Qed.

(** X2.  Whatever [reference_target_for_class] returns is a known class
    name, obtained by dropping the [Ref] suffix from the owner's name or from
    the [is_a] of a class, or the [ID] suffix from the attribute's type
    name. *)
Theorem reference_target_for_class_known
    (self : reference_resolver) (owner_class : string)
    (type_name_local : option string) (t : string) :
  reference_target_for_class self owner_class type_name_local = Some t →
  t ∈ known_class_names self
  ∧ ((PyStr.endswith owner_class "Ref" = true
      ∧ t = PyStr.drop_last 3 owner_class)
     ∨ (∃ c base, class_base self c = Some base
                  ∧ PyStr.endswith base "Ref" = true
                  ∧ t = PyStr.drop_last 3 base)
     ∨ (∃ n, type_name_local = Some n ∧ PyStr.endswith n "ID" = true
             ∧ t = PyStr.drop_last 2 n)).
Proof.
  unfold reference_target_for_class. intros H.
  destruct (PyStr.nonempty owner_class && PyStr.endswith owner_class "Ref") eqn:Ho.
  - destruct (known_prefix self 3 owner_class) as [cand|] eqn:Hk.
    + injection H as ->. apply known_prefix_known in Hk as [? ?].
      apply andb_prop in Ho as [_ Ho]. split; [done|]. by left.
    + clear Ho. revert H.
      destruct (ref_target_loop self _ _ _) as [[cand|]|] eqn:Hl; simpl.
      * intros [= ->]. apply ref_target_loop_known in Hl as [? ?].
        split; [done|]. by right; left.
      * destruct type_name_local as [n|]; [|done].
        destruct (PyStr.nonempty n && PyStr.endswith n "ID") eqn:Hn; [|done].
        intros Hk'. apply known_prefix_known in Hk' as [? ?].
        apply andb_prop in Hn as [_ Hn]. split; [done|]. right; right. eauto.
      * destruct type_name_local as [n|]; [|done].
        destruct (PyStr.nonempty n && PyStr.endswith n "ID") eqn:Hn; [|done].
        intros Hk'. apply known_prefix_known in Hk' as [? ?].
        apply andb_prop in Hn as [_ Hn]. split; [done|]. right; right. eauto.
  - revert H.
    destruct (ref_target_loop self _ _ _) as [[cand|]|] eqn:Hl; simpl.
    + intros [= ->]. apply ref_target_loop_known in Hl as [? ?].
      split; [done|]. by right; left.
    + destruct type_name_local as [n|]; [|done].
      destruct (PyStr.nonempty n && PyStr.endswith n "ID") eqn:Hn; [|done].
      intros Hk'. apply known_prefix_known in Hk' as [? ?].
      apply andb_prop in Hn as [_ Hn]. split; [done|]. right; right. eauto.
    + destruct type_name_local as [n|]; [|done].
      destruct (PyStr.nonempty n && PyStr.endswith n "ID") eqn:Hn; [|done].
      intros Hk'. apply known_prefix_known in Hk' as [? ?].
      apply andb_prop in Hn as [_ Hn]. split; [done|]. right; right. eauto.
Qed.

Lemma reference_target_for_class_known_witness :
  "Image" ∈ known_class_names (sb_reference_resolver image_builder)
  ∧ ((PyStr.endswith "ImageRef" "Ref" = true
      ∧ "Image" = PyStr.drop_last 3 "ImageRef")
     ∨ (∃ c base, class_base (sb_reference_resolver image_builder) c = Some base
                  ∧ PyStr.endswith base "Ref" = true
                  ∧ "Image" = PyStr.drop_last 3 base)
     ∨ (∃ n, Some "ImageID" = Some n ∧ PyStr.endswith n "ID" = true
             ∧ "Image" = PyStr.drop_last 2 n)).
Proof.
  apply (reference_target_for_class_known (sb_reference_resolver image_builder)
           "ImageRef" (Some "ImageID") "Image").
  vm_compute. reflexivity.
Defined.

Lemma on_every_chain_perm self (l l' : list string) a :
  l ≡ₚ l' → on_every_chain self l a = on_every_chain self l' a.
Proof.
  intros Hp. apply eq_true_iff_eq.
  rewrite !on_every_chain_spec, !Forall_map.
  by rewrite Hp.
Qed.

Lemma select_keyref_range_none_iff self (candidates : list string) :
  Forall (λ c, c ≠ "") candidates →
  (2 ≤ length candidates)%nat →
  select_keyref_range self candidates = None
  ↔ ∀ a, on_every_chain self candidates a = false.
Proof.
  intros Hne Hlen. split.
  - rewrite select_keyref_range_spec by done.
    destruct candidates as [|c1 [|c2 cs]]; simpl in Hlen; [lia|lia|].
    unfold nearest_common_ancestor. intros Hfind a.
    destruct (on_every_chain self (c1 :: c2 :: cs) a) eqn:Ha; [|done].
    exfalso.
    assert (a ∈ ancestors self c1) as Hin.
    { apply on_every_chain_spec in Ha. by inversion Ha. }
    apply list_elem_of_In in Hin.
    by pose proof (find_none _ _ Hfind a Hin) as Hf; rewrite Ha in Hf.
  - by apply select_keyref_range_no_common.
Qed.

(** X3.  What [select_keyref_range] returns for candidates that are class
    names lies on the ancestor chain of every candidate: it is each
    candidate itself or one of its ancestors. *)
Theorem select_keyref_range_common_ancestor
    (self : reference_resolver) (candidates : list string) (a : string) :
  Forall (λ c, c ≠ "") candidates →
  select_keyref_range self candidates = Some a →
  Forall (λ c, a ∈ ancestors self c) candidates.
Proof.
  intros Hne. rewrite select_keyref_range_spec by done.
  destruct candidates as [|c1 [|c2 cs]]; simpl.
  - done.
  - intros [= ->]. constructor; [|done].
    inversion Hne as [|? ? Hc _]; subst.
    destruct (ancestors_head self a Hc) as [l ->]. constructor.
  - intros Hfind. apply find_some in Hfind as [_ Ha].
    apply on_every_chain_spec in Ha. by rewrite Forall_map in Ha.
Qed.

Lemma select_keyref_range_common_ancestor_witness :
  Forall (λ c, "Base" ∈ ancestors base_derived_resolver c) ["DerivedA"; "DerivedB"].
Proof.
  apply (select_keyref_range_common_ancestor base_derived_resolver
           ["DerivedA"; "DerivedB"] "Base").
  - repeat constructor; discriminate.
  - vm_compute. reflexivity.
Defined.

(** X4.  Whether [select_keyref_range] finds a target for a set of class
    names does not depend on the order in which the set is iterated: it
    returns none for one order exactly when it returns none for every
    other. *)
Theorem select_keyref_range_none_any_order
    (self : reference_resolver) (candidates candidates' : list string) :
  Forall (λ c, c ≠ "") candidates →
  candidates ≡ₚ candidates' →
  select_keyref_range self candidates = None
  ↔ select_keyref_range self candidates' = None.
Proof.
  intros Hne Hp.
  assert (Forall (λ c, c ≠ "") candidates') as Hne' by (by rewrite <- Hp).
  destruct (decide (2 ≤ length candidates)%nat) as [Hlen|Hlen].
  - assert (2 ≤ length candidates')%nat as Hlen' by (by rewrite <- Hp).
    rewrite !select_keyref_range_none_iff by done.
    split; intros H a.
    + rewrite <- (on_every_chain_perm self _ _ a Hp). apply H.
    + rewrite (on_every_chain_perm self _ _ a Hp). apply H.
  - destruct candidates as [|c1 [|c2 cs]].
    + apply Permutation_nil_l in Hp as ->. done.
    + apply Permutation_singleton_l in Hp as ->. done.
    + simpl in Hlen. lia.
Qed.

Lemma select_keyref_range_none_any_order_witness :
  select_keyref_range base_derived_resolver ["DerivedA"; "Elsewhere"] = None
  ↔ select_keyref_range base_derived_resolver ["Elsewhere"; "DerivedA"] = None.
Proof.
  apply select_keyref_range_none_any_order.
  - repeat constructor; discriminate.
  - apply perm_swap.
Defined.

(** ** Constraint handler: the branches of a choice *)

Lemma node_nested_ind (P : node → Prop) :
  (∀ name ref min_occurs, P (XsdElement name ref min_occurs)) →
  (∀ model maxo occurs items,
     Forall P items → P (XsdGroup model maxo occurs items)) →
  P XsdOther →
  ∀ item, P item.
Proof.
  intros Helem Hgroup Hother.
  fix IH 1. intros [name ref min_occurs | model maxo occurs items |].
  - apply Helem.
  - apply Hgroup. induction items as [|item items IHitems]; constructor.
    + apply IH.
    + apply IHitems.
  - apply Hother.
Qed.

Lemma collect_branch_slots_group model maxo occurs items :
  collect_branch_slots (XsdGroup model maxo occurs items)
  = flat_map collect_branch_slots items.
Proof.
  simpl. induction items as [|item items IH]; [done|].
  simpl. by rewrite IH.
Qed.

Lemma extract_choice_branches_group model maxo occurs items :
  extract_choice_branches (XsdGroup model maxo occurs items)
  = filter (λ b, branch_nonempty b = true) (flat_map branches_of_item items).
Proof.
  simpl. f_equal. induction items as [|item items IH]; [done|].
  cbn [flat_map]. rewrite <- IH.
  destruct item as [name ref mino | model' maxo' occurs' items' |]; try done.
  unfold branches_of_item. by destruct (String.eqb model' "choice").
Qed.

Lemma collect_branch_slots_names item :
  Forall (λ p, p.1 ≠ "") (collect_branch_slots item).
Proof.
  induction item as [name ref mino | model maxo occurs items IH |]
    using node_nested_ind.
  - simpl. destruct (PyStr.nonempty (local_name _)) eqn:Hn; constructor; [|done].
    simpl. intros Heq. by rewrite Heq in Hn.
  - rewrite collect_branch_slots_group.
    induction IH as [|item items Hitem _ IHitems]; [constructor|].
    simpl. by apply Forall_app.
  - constructor.
Qed.

Lemma extract_choice_branches_names group :
  Forall (Forall (λ p, p.1 ≠ "")) (extract_choice_branches group).
Proof.
  induction group as [name ref mino | model maxo occurs items IH |]
    using node_nested_ind; try constructor.
  rewrite extract_choice_branches_group.
  apply Forall_forall. intros b Hb.
  apply list_elem_of_filter in Hb as [_ Hb].
  apply list_elem_of_In, in_flat_map in Hb as (item & Hitem & Hb).
  apply list_elem_of_In in Hitem, Hb.
  rewrite Forall_forall in IH. specialize (IH item Hitem).
  destruct item as [name ref mino | model' maxo' occurs' items' |];
    unfold branches_of_item in Hb.
  - apply list_elem_of_singleton in Hb as ->. apply collect_branch_slots_names.
  - destruct (String.eqb model' "choice").
    + rewrite Forall_forall in IH. by apply IH.
    + apply list_elem_of_singleton in Hb as ->. apply collect_branch_slots_names.
  - by inversion Hb.
Qed.

(** X5.  [extract_choice_branches] never returns an empty branch, and no
    branch it returns holds a slot with an empty name. *)
Theorem extract_choice_branches_well_formed (group : node) (b : branch) :
  b ∈ extract_choice_branches group →
  b ≠ [] ∧ Forall (λ p, p.1 ≠ "") b.
Proof.
  intros Hb. split.
  - pose proof (extract_choice_branches_nonempty group) as H.
    rewrite Forall_forall in H. by apply H.
  - pose proof (extract_choice_branches_names group) as H.
    rewrite Forall_forall in H. by apply H.
Qed.

Lemma extract_choice_branches_well_formed_witness :
  [("A", true)] ≠ [] ∧ Forall (λ p : string * bool, p.1 ≠ "") [("A", true)].
Proof.
  apply (extract_choice_branches_well_formed abc_choice).
  vm_compute. constructor.
Defined.

(** X6.  A choice nested directly in a group contributes its branches as
    if its items were written in the group itself, whatever the occurrence
    bounds of the nested choice. *)
Theorem extract_choice_branches_nested_choice
    (model : string) (maxo maxo' : option occurs_bound)
    (occurs occurs' : option (list (option Z)))
    (before inner after : list node) :
  extract_choice_branches
    (XsdGroup model maxo occurs
       (before ++ XsdGroup "choice" maxo' occurs' inner :: after))
  = extract_choice_branches
      (XsdGroup model maxo occurs (before ++ inner ++ after)).
Proof.
  rewrite !extract_choice_branches_group.
  rewrite !flat_map_app. cbn [flat_map].
  rewrite !filter_app.
  f_equal. f_equal.
  change (branches_of_item (XsdGroup "choice" maxo' occurs' inner))
    with (extract_choice_branches (XsdGroup "choice" maxo' occurs' inner)).
  rewrite extract_choice_branches_group.
  rewrite list_filter_filter.
  apply list_filter_iff. tauto.
Qed.

(** ** Constraint handler: recording only adds *)

Lemma handler_extends_refl self : handler_extends self self.
Proof.
  repeat split; try done.
  intros c cls Hc. exists cls, []. by rewrite app_nil_r.
Qed.

Lemma handler_extends_trans self1 self2 self3 :
  handler_extends self1 self2 → handler_extends self2 self3 →
  handler_extends self1 self3.
Proof.
  intros (He1 & Hm1 & Hr1 & Hc1) (He2 & Hm2 & Hr2 & Hc2).
  split; [congruence|]. split; [|split].
  - intros c x Hx. by apply Hm2, Hm1.
  - intros c x Hx. by apply Hr2, Hr1.
  - intros c cls Hc.
    destruct (Hc1 c cls Hc) as (cls2 & more1 & Hl1 & ? & ? & ? & ? & ? & ? & Hx1).
    destruct (Hc2 c cls2 Hl1) as (cls3 & more2 & Hl2 & ? & ? & ? & ? & ? & ? & Hx2).
    exists cls3, (more1 ++ more2).
    split; [done|]. repeat split; try congruence.
    by rewrite Hx2, Hx1, app_assoc.
Qed.

Lemma foldl_append_if_absent_prefix {A B} `{EqDecision B} (f : A → B)
    (l : list A) (acc : list B) :
  ∃ more, foldl (λ a n, append_if_absent a (f n)) acc l = acc ++ more.
Proof.
  revert acc. induction l as [|n l IH]; intros acc; simpl.
  - exists []. by rewrite app_nil_r.
  - unfold append_if_absent at 2. case_bool_decide.
    + apply IH.
    + destruct (IH (acc ++ [f n])) as [more ->].
      exists (f n :: more). by rewrite <- app_assoc.
Qed.

Lemma foldl_append_if_absent_nodup {A B} `{EqDecision B} (f : A → B)
    (l : list A) (acc : list B) :
  NoDup acc → NoDup (foldl (λ a n, append_if_absent a (f n)) acc l).
Proof.
  revert acc. induction l as [|n l IH]; intros acc Hnd; simpl; [done|].
  apply IH. unfold append_if_absent. case_bool_decide; [done|].
  apply NoDup_app. split; [done|]. split; [|apply NoDup_singleton].
  intros x Hx ->%list_elem_of_singleton. done.
Qed.

Lemma foldl_append_if_absent_present {A B} `{EqDecision B} (f : A → B)
    (l : list A) (acc : list B) :
  (∀ n, n ∈ l → f n ∈ acc) →
  foldl (λ a n, append_if_absent a (f n)) acc l = acc.
Proof.
  induction l as [|n l IH]; intros Hall; simpl; [done|].
  unfold append_if_absent at 2.
  rewrite bool_decide_eq_true_2 by (apply Hall; constructor).
  apply IH. intros m Hm. apply Hall. by constructor.
Qed.

Lemma members_of_update cn universe m c :
  members_of (membership_update cn universe m) c
  = if decide (cn = c) then members_of m c ∪ universe else members_of m c.
Proof.
  unfold members_of, membership_update.
  destruct (decide (cn = c)) as [->|Hne].
  - by rewrite lookup_insert_eq.
  - by rewrite lookup_insert_ne.
Qed.

Lemma add_exactly_one_of_keys group cls :
  let cls' := add_exactly_one_of group cls in
  is_a cls' = is_a cls ∧ abstract cls' = abstract cls
  ∧ attributes cls' = attributes cls
  ∧ cls_description cls' = cls_description cls
  ∧ cls_in_subset cls' = cls_in_subset cls
  ∧ cls_annotations cls' = cls_annotations cls.
Proof. done. Qed.

Lemma apply_choice_constraint_extends self cn branches repeating :
  handler_extends self (apply_choice_constraint self cn branches repeating).
Proof.
  destruct (decide (length branches < 2)%nat) as [Hshort|Hlong].
  { rewrite apply_choice_constraint_short by done. apply handler_extends_refl. }
  unfold apply_choice_constraint.
  rewrite (proj2 (Nat.ltb_ge _ _)) by lia.
  split; [done|]. split; [|split]; cbn [choice_slot_membership
    choice_repeat_membership h_schema classes set_classes].
  - intros c. rewrite members_of_update. destruct (decide (cn = c)); set_solver.
  - intros c. destruct repeating; [|done].
    rewrite members_of_update. destruct (decide (cn = c)); set_solver.
  - intros c cls Hc. destruct (decide (cn = c)) as [->|Hne].
    + rewrite lookup_insert_eq, Hc. simpl.
      destruct (forallb _ _).
      * destruct (foldl_append_if_absent_prefix required_expr
                    (exclusive_group (map slot_set branches))
                    (default [] (exactly_one_of cls))) as [more Hmore].
        eexists _, more. split; [done|]. repeat split.
        unfold add_exactly_one_of. simpl. exact Hmore.
      * exists cls, []. split; [done|]. by rewrite app_nil_r.
    + rewrite lookup_insert_ne by done.
      exists cls, []. split; [done|]. by rewrite app_nil_r.
Qed.

(** X7.  Processing a content model only adds to what the handler
    records: both membership maps grow, the enumerations are untouched, and
    every class already in the schema keeps all its keys, its attributes
    included, with its [exactly_one_of] list extended at the end. *)
Theorem collect_choice_constraints_extends
    (self : choice_constraint_handler) (class_name : string)
    (content : option node) :
  handler_extends self (collect_choice_constraints self class_name content).
Proof.
  destruct content as [[| model maxo occurs items |]|];
    try apply handler_extends_refl.
  unfold collect_choice_constraints.
  set (content := XsdGroup model maxo occurs items).
  set (self1 := if is_choice content then _ else self).
  assert (handler_extends self self1) as H1.
  { unfold self1. destruct (is_choice content);
      [apply apply_choice_constraint_extends|apply handler_extends_refl]. }
  clearbody self1. revert self1 H1.
  induction (items_of content) as [|item its IH]; intros self1 H1; [done|].
  simpl. apply IH. eapply handler_extends_trans; [exact H1|].
  destruct (is_choice item);
    [apply apply_choice_constraint_extends|apply handler_extends_refl].
Qed.

Lemma apply_choice_constraint_consistent self cn branches repeating :
  handler_consistent self →
  handler_consistent (apply_choice_constraint self cn branches repeating).
Proof.
  intros [Hsub Hnd].
  destruct (decide (length branches < 2)%nat) as [Hshort|Hlong].
  { by rewrite apply_choice_constraint_short. }
  unfold apply_choice_constraint.
  rewrite (proj2 (Nat.ltb_ge _ _)) by lia.
  split; cbn [choice_slot_membership choice_repeat_membership h_schema
                classes set_classes].
  - intros c. specialize (Hsub c). destruct repeating.
    + rewrite !members_of_update. destruct (decide (cn = c)); [|done].
      intros x [Hx|Hx]%elem_of_union; apply elem_of_union; auto.
    + rewrite members_of_update. destruct (decide (cn = c)); [|done].
      intros x Hx. apply elem_of_union. auto.
  - intros c cls'. destruct (decide (cn = c)) as [->|Hne].
    + rewrite lookup_insert_eq. intros [= <-].
      assert (NoDup (default [] (exactly_one_of
                (default empty_class (classes (h_schema self) !! c))))) as Hprior.
      { destruct (classes (h_schema self) !! c) as [cls|] eqn:Hc; simpl.
        - by eapply Hnd.
        - constructor. }
      destruct (forallb _ _); [|done].
      unfold add_exactly_one_of. simpl.
      by apply foldl_append_if_absent_nodup.
    + rewrite lookup_insert_ne by done. apply Hnd.
Qed.

(** X8.  The handler keeps two invariants through every content model it
    processes and through the relaxation pass: a repeating-choice member of
    a class is always a choice member of it too, and an [exactly_one_of]
    list never holds the same expression twice. *)
Theorem handler_consistent_preserved
    (self : choice_constraint_handler) (class_name : string)
    (content : option node) :
  handler_consistent self →
  handler_consistent (collect_choice_constraints self class_name content)
  ∧ handler_consistent (relax_choice_constraints self).
Proof.
  intros Hself. split.
  - destruct content as [[| model maxo occurs items |]|]; try done.
    unfold collect_choice_constraints.
    set (content := XsdGroup model maxo occurs items).
    set (self1 := if is_choice content then _ else self).
    assert (handler_consistent self1) as H1.
    { unfold self1. destruct (is_choice content);
        [by apply apply_choice_constraint_consistent|done]. }
    clearbody self1. revert self1 H1.
    induction (items_of content) as [|item its IH]; intros self1 H1; [done|].
    simpl. apply IH.
    destruct (is_choice item);
      [by apply apply_choice_constraint_consistent|done].
  - destruct Hself as [Hsub Hnd]. split; [exact Hsub|].
    intros c cls' Hc'. rewrite relax_choice_constraints_lookup in Hc'.
    destruct (classes (h_schema self) !! c) as [cls|] eqn:Hc; [|done].
    simpl in Hc'. injection Hc' as <-.
    destruct (relaxed_class_same_keys (set_multivalued true)
                (members_of (choice_repeat_membership self) c)
                (relaxed_class pop_required
                   (members_of (choice_slot_membership self) c) cls))
      as (_ & _ & -> & _).
    destruct (relaxed_class_same_keys pop_required
                (members_of (choice_slot_membership self) c) cls)
      as (_ & _ & -> & _).
    by eapply Hnd.
Qed.

Lemma handler_consistent_preserved_witness :
  handler_consistent
    (collect_choice_constraints sample_handler "Sample" (Some xy_repeating_choice))
  ∧ handler_consistent (relax_choice_constraints sample_handler).
Proof.
  apply handler_consistent_preserved. split.
  - intros c. unfold members_of. simpl. rewrite lookup_empty. done.
  - intros c cls Hc. unfold sample_handler in Hc. simpl in Hc.
    apply lookup_singleton_Some in Hc as [_ <-]. simpl. constructor.
Defined.

(** ** Constraint handler: doing it twice *)

Lemma handler_eq (h h' : choice_constraint_handler) :
  classes (h_schema h) = classes (h_schema h') →
  enums (h_schema h) = enums (h_schema h') →
  choice_slot_membership h = choice_slot_membership h' →
  choice_repeat_membership h = choice_repeat_membership h' →
  h = h'.
Proof.
  destruct h as [[c e] m r], h' as [[c' e'] m' r']. simpl.
  by intros -> -> -> ->.
Qed.

Lemma guarded_idem (change : slot → slot) s :
  (∀ x, change (change x) = change x) →
  guarded change (guarded change s) = guarded change s.
Proof.
  intros Hidem. unfold guarded.
  destruct (slot_truthy s) eqn:Hs; [|by rewrite Hs].
  destruct (slot_truthy (change s)); [apply Hidem|done].
Qed.

Lemma pop_required_absent s : required s = None → pop_required s = s.
Proof. destruct s. simpl. by intros ->. Qed.

Lemma guarded_pop_required_absent s :
  required s = None → guarded pop_required s = s.
Proof.
  intros H. unfold guarded. rewrite (pop_required_absent s H).
  by destruct (slot_truthy s).
Qed.

Lemma required_guarded_pop s : required (guarded pop_required s) = None.
Proof. by rewrite <- (relaxed_slot_required false s). Qed.

Lemma required_guarded_multivalued s :
  required (guarded (set_multivalued true) s) = required s.
Proof. unfold guarded. by destruct (slot_truthy s). Qed.

Lemma relaxed_slot_idem a b s :
  relaxed_slot a b (relaxed_slot a b s) = relaxed_slot a b s.
Proof.
  unfold relaxed_slot. destruct a, b; try done.
  - rewrite (guarded_pop_required_absent
               (guarded (set_multivalued true) (guarded pop_required s)))
      by (by rewrite required_guarded_multivalued, required_guarded_pop).
    apply guarded_idem. by intros [].
  - apply guarded_idem. by intros [].
  - apply guarded_idem. by intros [].
Qed.

Lemma relaxed_both_lookup (M R : gset string) attrs n :
  relaxed_attrs (set_multivalued true) R (relaxed_attrs pop_required M attrs) !! n
  = relaxed_slot (bool_decide (n ∈ M)) (bool_decide (n ∈ R)) <$> attrs !! n.
Proof.
  rewrite !relaxed_attrs_lookup. destruct (attrs !! n) as [s|]; [|done].
  simpl. unfold relaxed_slot.
  by destruct (bool_decide (n ∈ M)), (bool_decide (n ∈ R)).
Qed.

Lemma relaxed_both_idem (M R : gset string) cls :
  let relaxed c :=
    relaxed_class (set_multivalued true) R (relaxed_class pop_required M c) in
  relaxed (relaxed cls) = relaxed cls.
Proof.
  intros relaxed. unfold relaxed, relaxed_class.
  destruct cls as [isa abs [attrs|] eoo d sub ann]; simpl; [|done].
  unfold set_attributes. simpl. do 2 f_equal. apply map_eq. intros n.
  rewrite !relaxed_both_lookup.
  destruct (attrs !! n) as [s|]; [|done]. simpl.
  by rewrite relaxed_slot_idem.
Qed.

(** X9.  The relaxation pass is idempotent: running it again on its own
    result changes nothing. *)
Theorem relax_choice_constraints_idempotent (self : choice_constraint_handler) :
  relax_choice_constraints (relax_choice_constraints self)
  = relax_choice_constraints self.
Proof.
  apply handler_eq; try done.
  apply map_eq. intros cn.
  rewrite (relax_choice_constraints_lookup (relax_choice_constraints self)).
  rewrite relax_choice_constraints_lookup.
  change (choice_slot_membership (relax_choice_constraints self))
    with (choice_slot_membership self).
  change (choice_repeat_membership (relax_choice_constraints self))
    with (choice_repeat_membership self).
  destruct (classes (h_schema self) !! cn) as [cls|]; [|done].
  simpl. f_equal. apply relaxed_both_idem.
Qed.

Lemma membership_update_idem cn (universe : gset string) m :
  membership_update cn universe (membership_update cn universe m)
  = membership_update cn universe m.
Proof.
  unfold membership_update. rewrite lookup_insert_eq. simpl.
  rewrite insert_insert_eq. f_equal.
  apply set_eq. intros x. rewrite !elem_of_union. tauto.
Qed.

Lemma add_exactly_one_of_idem group cls :
  add_exactly_one_of group (add_exactly_one_of group cls)
  = add_exactly_one_of group cls.
Proof.
  unfold add_exactly_one_of at 1.
  set (cls1 := add_exactly_one_of group cls).
  assert (default [] (exactly_one_of cls1)
          = foldl (λ existing slot_name,
                     append_if_absent existing (required_expr slot_name))
                  (default [] (exactly_one_of cls)) group) as Hex by done.
  rewrite foldl_append_if_absent_present.
  - unfold cls1, add_exactly_one_of. by destruct cls.
  - intros n Hn. rewrite Hex. apply foldl_append_if_absent_elem. right. eauto.
Qed.

(** X10.  Recording the same choice for the same class a second time
    changes nothing: neither the class's [exactly_one_of] list nor the
    membership maps. *)
Theorem apply_choice_constraint_idempotent
    (self : choice_constraint_handler) (class_name : string)
    (branches : list branch) (repeating : bool) :
  apply_choice_constraint
    (apply_choice_constraint self class_name branches repeating)
    class_name branches repeating
  = apply_choice_constraint self class_name branches repeating.
Proof.
  destruct (decide (length branches < 2)%nat) as [Hshort|Hlong].
  { by rewrite !apply_choice_constraint_short. }
  unfold apply_choice_constraint.
  rewrite (proj2 (Nat.ltb_ge _ _)) by lia.
  cbn [choice_slot_membership choice_repeat_membership h_schema classes
         set_classes enums].
  apply handler_eq;
    cbn [choice_slot_membership choice_repeat_membership h_schema classes
           set_classes enums]; try done.
  - rewrite lookup_insert_eq. cbn [default]. rewrite insert_insert_eq.
    f_equal. destruct (forallb _ _); [|done]. apply add_exactly_one_of_idem.
  - apply membership_update_idem.
  - destruct repeating; [apply membership_update_idem|done].
Qed.

(** ** Documentation merger: the metadata of a text *)

Lemma metadata_append_keys key value (metadata : list (string * list string)) :
  (metadata_append key value metadata).*1
  = if bool_decide (key ∈ metadata.*1) then metadata.*1 else metadata.*1 ++ [key].
Proof.
  induction metadata as [|[k vs] rest IH]; [done|].
  cbn [metadata_append]. destruct (String.eqb k key) eqn:Hk.
  - apply String.eqb_eq in Hk as ->. rewrite !fmap_cons. cbn [fst].
    by rewrite bool_decide_eq_true_2 by constructor.
  - apply String.eqb_neq in Hk. rewrite !fmap_cons, IH. cbn [fst].
    destruct (decide (key ∈ rest.*1)) as [Hin|Hnin].
    + rewrite !bool_decide_eq_true_2; [done|by constructor|done].
    + rewrite !bool_decide_eq_false_2; [done| |done].
      intros [?|?]%elem_of_cons; congruence.
Qed.

Lemma metadata_append_forall (P : string * list string → Prop) key value metadata :
  Forall P metadata →
  (∀ vs, P (key, vs ++ [value])) →
  Forall P (metadata_append key value metadata).
Proof.
  intros Hall Hnew. induction Hall as [|[k vs] rest Hkv Hrest IH]; simpl.
  - constructor; [apply (Hnew [])|constructor].
  - destruct (String.eqb k key) eqn:Hk.
    + apply String.eqb_eq in Hk as ->. constructor; [apply Hnew|done].
    + by constructor.
Qed.

Lemma split_doc_line_well_formed acc raw_line :
  metadata_well_formed acc.2 →
  metadata_well_formed (split_doc_line acc raw_line).2.
Proof.
  destruct acc as [lines metadata]. intros [Hnd Hall]. unfold split_doc_line.
  destruct (PyStr.nonempty (PyStr.strip raw_line)); [|done].
  destruct (PyStr.partition_first "=" (PyStr.strip raw_line)) as [[key value]|];
    [|done].
  destruct (PyStr.nonempty (PyStr.strip key)) eqn:Hkey; [|done].
  destruct (String.eqb (PyStr.lower (PyStr.strip key)) "description") eqn:Hd;
    [done|].
  simpl. split.
  - rewrite metadata_append_keys. case_bool_decide; [done|].
    apply NoDup_app. split; [done|]. split; [|apply NoDup_singleton].
    intros x Hx ->%list_elem_of_singleton. done.
  - apply metadata_append_forall; [done|]. intros vs. simpl.
    split; [|split].
    + intros Heq. by rewrite Heq in Hkey.
    + by apply String.eqb_neq.
    + by destruct vs.
Qed.

(** X11.  The metadata that [split_doc_metadata] returns has pairwise
    distinct keys; no key is empty or spelled [description] in any case;
    and every key comes with at least one value. *)
Theorem split_doc_metadata_well_formed (doc_text : string) :
  NoDup (split_doc_metadata doc_text).2.*1
  ∧ Forall (λ kv, kv.1 ≠ "" ∧ PyStr.lower kv.1 ≠ "description" ∧ kv.2 ≠ [])
           (split_doc_metadata doc_text).2.
Proof.
  unfold split_doc_metadata.
  assert (metadata_well_formed
            (foldl split_doc_line ([], []) (PyStr.splitlines doc_text)).2) as H.
  { generalize (PyStr.splitlines doc_text) as lines.
    assert (metadata_well_formed (([] : list string, [] : list (string * list string))).2)
      as H0 by (split; constructor).
    revert H0. generalize ([] : list string, [] : list (string * list string)).
    intros acc H0 lines. revert acc H0.
    induction lines as [|l lines IH]; intros acc H0; [done|].
    simpl. apply IH. by apply split_doc_line_well_formed. }
  by destruct (foldl split_doc_line _ _).
Qed.

(** ** Documentation merger: subsets and frame *)

Lemma subsets_extended_refl l : subsets_extended l l.
Proof.
  split; [|done]. exists []. by rewrite app_nil_r.
Qed.

Lemma subsets_extended_trans l1 l2 l3 :
  subsets_extended l1 l2 → subsets_extended l2 l3 → subsets_extended l1 l3.
Proof.
  intros [(m1 & -> & H1) Hn1] [(m2 & -> & H2) Hn2]. split; [|auto].
  exists (m1 ++ m2). split; [by rewrite app_assoc|by apply Forall_app].
Qed.

Lemma tier_lookup_subset token subset_name :
  TIER_SUBSET_LOOKUP !! token = Some subset_name → subset_name ∈ tier_subsets.
Proof.
  unfold TIER_SUBSET_LOOKUP. intros H. apply elem_of_list_to_map_2 in H.
  unfold tier_subsets.
  repeat (apply elem_of_cons in H as [[= _ <-]|H]; [repeat constructor|]).
  by inversion H.
Qed.

Lemma append_if_absent_tier l subset_name :
  subset_name ∈ tier_subsets →
  subsets_extended l (append_if_absent l subset_name).
Proof.
  intros Hin. unfold append_if_absent. case_bool_decide.
  - apply subsets_extended_refl.
  - split.
    + exists [subset_name]. split; [done|]. by constructor.
    + intros Hnd. apply NoDup_app. split; [done|].
      split; [|apply NoDup_singleton].
      intros x Hx ->%list_elem_of_singleton. done.
Qed.

Lemma add_tier_tokens_extended l raw_value :
  subsets_extended l (add_tier_tokens l raw_value).
Proof.
  unfold add_tier_tokens.
  destruct (PyStr.nonempty raw_value); [|apply subsets_extended_refl].
  generalize (PyStr.split_ws (PyStr.replace_char "," " " raw_value)) as tokens.
  intros tokens. revert l.
  induction tokens as [|token tokens IH]; intros l;
    [apply subsets_extended_refl|].
  simpl. eapply subsets_extended_trans; [|apply IH].
  destruct (TIER_SUBSET_LOOKUP !! PyStr.strip token) as [name|] eqn:Hl;
    [|apply subsets_extended_refl].
  destruct (PyStr.nonempty name); [|apply subsets_extended_refl].
  apply append_if_absent_tier. by eapply tier_lookup_subset.
Qed.

Lemma foldl_add_tier_tokens_extended l tier_values :
  subsets_extended l (foldl add_tier_tokens l tier_values).
Proof.
  revert l. induction tier_values as [|v vs IH]; intros l;
    [apply subsets_extended_refl|].
  simpl. eapply subsets_extended_trans; [apply add_tier_tokens_extended|apply IH].
Qed.

Lemma in_subset_apply_metadata_to_target (s : slot) metadata :
  subsets_extended (default [] (in_subset s))
    (default [] (in_subset (apply_metadata_to_target s metadata))).
Proof.
  unfold apply_metadata_to_target.
  destruct metadata as [|kv metadata]; [apply subsets_extended_refl|].
  set (tiers := concat _). set (others := filter _ _).
  assert (subsets_extended (default [] (in_subset s))
            (default [] (in_subset
               (match tiers with
                | [] => s
                | _ => doc_set_in_subset
                         (foldl add_tier_tokens (default [] (doc_in_subset s)) tiers) s
                end)))) as H.
  { destruct tiers as [|t ts]; [apply subsets_extended_refl|].
    apply foldl_add_tier_tokens_extended. }
  by destruct others.
Qed.

(** X12.  Merging a documentation text into a slot only appends to its
    subset list: the entries already there stay in place, what is added is
    one of [NBO_Tier1], [NBO_Tier2], [NBO_Tier3], and a list without
    repetition stays without repetition. *)
Theorem apply_doc_metadata_subsets (s : slot) (doc_value : option string) :
  let before := default [] (in_subset s) in
  let after := default [] (in_subset (apply_doc_metadata s doc_value)) in
  (∃ more, after = before ++ more ∧ Forall (λ n, n ∈ tier_subsets) more)
  ∧ (NoDup before → NoDup after).
Proof.
  change (subsets_extended (default [] (in_subset s))
            (default [] (in_subset (apply_doc_metadata s doc_value)))).
  unfold apply_doc_metadata.
  destruct doc_value as [text|]; [|apply subsets_extended_refl].
  destruct (PyStr.nonempty text); [|apply subsets_extended_refl].
  destruct (PyStr.nonempty (PyStr.strip text)); [|apply subsets_extended_refl].
  destruct (split_doc_metadata _) as [d m].
  eapply subsets_extended_trans; [|apply in_subset_apply_metadata_to_target].
  destruct (PyStr.nonempty d); apply subsets_extended_refl.
Qed.

Lemma apply_doc_metadata_subsets_witness :
  NoDup (default [] (in_subset
           (apply_doc_metadata (set_in_subset ["NBO_Tier1"] empty_slot)
              (Some "tier = 1, 2")))).
Proof.
  apply (apply_doc_metadata_subsets (set_in_subset ["NBO_Tier1"] empty_slot)
           (Some "tier = 1, 2")).
  simpl. apply NoDup_singleton.
Defined.

(** X13.  Merging documentation or vendor extensions changes none of the
    typing keys of a slot (range, required, multivalued, identifier,
    pattern, bounds) and none of the structural keys of a class ([is_a],
    abstract, attributes, [exactly_one_of]); vendor extensions change the
    annotations only. *)
Theorem doc_merges_frame :
  (∀ (s : slot) doc_value annotation,
     let typing (x : slot) :=
       (range x, required x, multivalued x, identifier x, pattern x,
        minimum_value x, maximum_value x) in
     typing (apply_doc_metadata s doc_value) = typing s
     ∧ typing (apply_appinfo_metadata s annotation) = typing s
     ∧ description (apply_appinfo_metadata s annotation) = description s
     ∧ in_subset (apply_appinfo_metadata s annotation) = in_subset s)
  ∧ (∀ (c : class_def) doc_value annotation,
       let structure (x : class_def) :=
         (is_a x, abstract x, attributes x, exactly_one_of x) in
       structure (apply_doc_metadata c doc_value) = structure c
       ∧ structure (apply_appinfo_metadata c annotation) = structure c
       ∧ cls_description (apply_appinfo_metadata c annotation) = cls_description c
       ∧ cls_in_subset (apply_appinfo_metadata c annotation) = cls_in_subset c).
Proof.
  split.
  - intros s doc_value annotation typing. repeat split.
    + by apply (apply_doc_metadata_frame typing).
    + by apply (apply_appinfo_metadata_frame typing).
    + by apply (apply_appinfo_metadata_frame description).
    + by apply (apply_appinfo_metadata_frame in_subset).
  - intros c doc_value annotation structure. repeat split.
    + by apply (apply_doc_metadata_frame structure).
    + by apply (apply_appinfo_metadata_frame structure).
    + by apply (apply_appinfo_metadata_frame cls_description).
    + by apply (apply_appinfo_metadata_frame cls_in_subset).
Qed.

Lemma annotate_values_dom key values (anns : gmap string annotation) :
  dom anns ⊆ dom (annotate_values key values anns).
Proof.
  unfold annotate_values.
  generalize (imap (λ idx value, (idx, value)) values) as ivs.
  intros ivs. revert anns.
  induction ivs as [|[idx value] ivs IH]; intros anns; [done|].
  simpl. etrans; [|apply IH].
  apply dom_insert_subseteq.
Qed.

Lemma annotate_all_dom (metadata : list (string * list string))
    (anns : gmap string annotation) :
  dom anns
  ⊆ dom (foldl (λ annotations '(key, values),
                  annotate_values key values annotations) anns metadata).
Proof.
  revert anns. induction metadata as [|[key values] rest IH]; intros anns; [done|].
  simpl. etrans; [apply (annotate_values_dom key values)|apply IH].
Qed.

Lemma annotation_names_apply_metadata_to_target (s : slot) metadata :
  annotation_names s ⊆ annotation_names (apply_metadata_to_target s metadata).
Proof.
  unfold apply_metadata_to_target, annotation_names.
  destruct metadata as [|kv metadata]; [done|].
  set (tiers := concat _). set (others := filter _ _).
  set (s1 := match tiers with [] => s | _ => _ end).
  assert (annotations s1 = annotations s) as Hs1 by (unfold s1; by destruct tiers).
  destruct others as [|o os]; [by rewrite Hs1|].
  cbn [doc_set_annotations doc_annotations slot_doc_target annotations
         set_annotations default].
  rewrite Hs1. apply annotate_all_dom.
Qed.

Lemma annotation_names_record_appinfo_entry (s : slot) tag text :
  annotation_names s ⊆ annotation_names (record_appinfo_entry s tag text).
Proof.
  unfold record_appinfo_entry, annotation_names.
  cbn [doc_set_annotations doc_annotations slot_doc_target annotations
         set_annotations default].
  apply dom_insert_subseteq.
Qed.

Lemma annotation_names_apply_appinfo_node (s : slot) node :
  annotation_names s ⊆ annotation_names (apply_appinfo_node s node).
Proof.
  unfold apply_appinfo_node.
  destruct (String.eqb _ _); [|apply annotation_names_record_appinfo_entry].
  generalize (node_children node) as children. intros children. revert s.
  induction children as [|c cs IH]; intros s; [done|].
  simpl. etrans; [apply annotation_names_record_appinfo_entry|apply IH].
Qed.

(** X14.  Merging never removes an annotation: every annotation name a slot
    has before a documentation text or a vendor-extension block is merged
    into it, it still has afterwards (the entry under it may have been
    replaced). *)
Theorem merges_keep_annotation_names
    (s : slot) (doc_value : option string) (annotation : option xsd_annotation) :
  annotation_names s ⊆ annotation_names (apply_doc_metadata s doc_value)
  ∧ annotation_names s ⊆ annotation_names (apply_appinfo_metadata s annotation).
Proof.
  split.
  - unfold apply_doc_metadata.
    destruct doc_value as [text|]; [|done].
    destruct (PyStr.nonempty text); [|done].
    destruct (PyStr.nonempty (PyStr.strip text)); [|done].
    destruct (split_doc_metadata _) as [d m].
    etrans; [|apply annotation_names_apply_metadata_to_target].
    by destruct (PyStr.nonempty d).
  - unfold apply_appinfo_metadata.
    destruct annotation as [a|]; [|done].
    destruct (elem a) as [appinfos|]; [|done].
    revert s. induction appinfos as [|ai ais IH]; intros s; [done|].
    simpl. etrans; [|apply IH]. clear IH.
    revert s. induction ai as [|n ns IH]; intros s; [done|].
    simpl. etrans; [apply annotation_names_apply_appinfo_node|apply IH].
Qed.

(** ** Slot builder: enumerations *)

Lemma string_app_assoc (s1 s2 s3 : string) :
  (s1 +:+ s2) +:+ s3 = s1 +:+ (s2 +:+ s3).
Proof.
  induction s1 as [|c s1 IH]; [done|].
  change (String c ((s1 +:+ s2) +:+ s3) = String c (s1 +:+ (s2 +:+ s3))).
  by rewrite IH.
Qed.

Lemma enum_prefix_unfold (s : string) :
  "Enum_" +:+ s = String "E" (String "n" (String "u" (String "m" (String "_" s)))).
Proof. reflexivity. Qed.

Lemma squash_non_word_chars in_run s :
  all_chars is_word_char (squash_non_word in_run s) = true.
Proof.
  revert in_run. induction s as [|c s IH]; intros in_run; [done|].
  simpl. destruct (is_word_char c) eqn:Hc.
  - simpl. by rewrite Hc, IH.
  - destruct in_run; [apply IH|]. simpl. by rewrite IH.
Qed.

(** X15.  The name synthesized for an enumeration consists of letters,
    digits and underscores only, whatever characters the class and
    attribute names hold, and begins with [Enum_]. *)
Theorem sanitize_enum_name_identifier (class_name attr_name : string) :
  all_chars is_word_char (sanitize_enum_name class_name attr_name) = true
  ∧ PyStr.startswith (sanitize_enum_name class_name attr_name) "Enum_" = true.
Proof.
  split; [apply squash_non_word_chars|].
  unfold sanitize_enum_name. rewrite enum_prefix_unfold. simpl.
  unfold PyStr.startswith. by destruct (squash_non_word _ _).
Qed.

Lemma sanitize_enum_name_nonempty class_name attr_name :
  sanitize_enum_name class_name attr_name ≠ "".
Proof. unfold sanitize_enum_name. by rewrite enum_prefix_unfold. Qed.

Lemma sanitize_enum_name_underscore class_name middle attr_name :
  sanitize_enum_name (class_name +:+ "_" +:+ middle) attr_name
  = sanitize_enum_name class_name (middle +:+ "_" +:+ attr_name).
Proof.
  unfold sanitize_enum_name. do 2 f_equal.
  by rewrite !string_app_assoc.
Qed.

(** X16.  Enumeration names are shared across an underscore: an attribute
    [a] of a class named [c_x] and an attribute [x_a] of a class named [c]
    get the same enumeration name, so the enumeration synthesized for the
    second of them is the one of the first, with the first one's values. *)
Theorem enum_name_shared_across_underscore
    (schema : linkml_schema) (class_name middle attr_name : string)
    (values values' : list string) :
  let first := ensure_enum_for_slot schema (class_name +:+ "_" +:+ middle)
                 attr_name values in
  let second := ensure_enum_for_slot first.2 class_name
                  (middle +:+ "_" +:+ attr_name) values' in
  second.1 = first.1 ∧ second.2 = first.2.
Proof.
  intros first second. unfold second, first, ensure_enum_for_slot.
  rewrite sanitize_enum_name_underscore.
  set (enum_name := sanitize_enum_name _ _).
  destruct (enums schema !! enum_name) as [vs|] eqn:Hl; simpl.
  - by rewrite Hl.
  - by rewrite lookup_insert_eq.
Qed.

(** X17.  [ensure_enum_for_slot] defines an enumeration once: afterwards
    the returned name is defined; an enumeration that was already defined
    under any name keeps its values; the classes are untouched; and a
    second call for the same class and attribute, with whatever values,
    changes nothing. *)
Theorem ensure_enum_for_slot_first_wins
    (schema : linkml_schema) (class_name attr_name : string)
    (values values' : list string) :
  let result := ensure_enum_for_slot schema class_name attr_name values in
  result.1 = sanitize_enum_name class_name attr_name
  ∧ is_Some (enums result.2 !! result.1)
  ∧ (∀ n vs, enums schema !! n = Some vs → enums result.2 !! n = Some vs)
  ∧ (enums schema !! result.1 = None →
     enums result.2 !! result.1 = Some (permissible_values values))
  ∧ classes result.2 = classes schema
  ∧ ensure_enum_for_slot result.2 class_name attr_name values' = result.
Proof.
  intros result. unfold result, ensure_enum_for_slot.
  set (enum_name := sanitize_enum_name _ _).
  destruct (enums schema !! enum_name) as [vs|] eqn:Hl; simpl.
  - rewrite Hl. repeat split; eauto. done.
  - rewrite lookup_insert_eq. repeat split; eauto.
    intros n vs Hn. rewrite lookup_insert_ne; [done|]. by intros <-; rewrite Hl in Hn.
Qed.

Lemma ensure_enum_for_slot_first_wins_witness :
  enums (ensure_enum_for_slot (LinkmlSchema ∅ ∅) "Image" "kind" ["a"; "b"; "a"]).2
  !! (ensure_enum_for_slot (LinkmlSchema ∅ ∅) "Image" "kind" ["a"; "b"; "a"]).1
  = Some (permissible_values ["a"; "b"; "a"]).
Proof.
  apply (ensure_enum_for_slot_first_wins (LinkmlSchema ∅ ∅) "Image" "kind"
           ["a"; "b"; "a"] []).
  reflexivity.
Defined.

(** ** Slot builder: the slot of an attribute *)

Lemma slot_from_attribute_stages self owner_class attr_name attr_obj :
  slot_from_attribute self owner_class attr_name attr_obj
  = match enumeration_of (attr_type attr_obj) with
    | [] =>
        (finished_slot attr_name attr_obj
           (documented_slot self owner_class attr_name attr_obj),
         sb_schema self)
    | enum_values =>
        let named :=
          ensure_enum_for_slot (sb_schema self) owner_class attr_name enum_values in
        (finished_slot attr_name attr_obj
           (set_range named.1
              (documented_slot self owner_class attr_name attr_obj)),
         named.2)
    end.
Proof.
  unfold slot_from_attribute, documented_slot, reference_or_primitive,
    finished_slot, is_identifier_attribute.
  destruct (enumeration_of (attr_type attr_obj)) as [|v vs].
  - f_equal. f_equal. f_equal.
    destruct (String.eqb (PyStr.lower attr_name) "id"
              && class_is_ref_like (sb_reference_resolver self) (Some owner_class));
      [|done].
    destruct (reference_target_for_class _ _ _) as [t|]; [|done].
    by destruct (PyStr.nonempty t).
  - destruct (ensure_enum_for_slot _ _ _ _) as [enum_name schema] eqn:He.
    simpl. f_equal. f_equal. f_equal. f_equal.
    destruct (String.eqb (PyStr.lower attr_name) "id"
              && class_is_ref_like (sb_reference_resolver self) (Some owner_class));
      [|done].
    destruct (reference_target_for_class _ _ _) as [t|]; [|done].
    by destruct (PyStr.nonempty t).
Qed.


Lemma reference_target_for_class_in_known self owner_class type_name_local t :
  reference_target_for_class self owner_class type_name_local = Some t →
  t ∈ known_class_names self.
Proof.
  assert (∀ k n, (if PyStr.nonempty n && PyStr.endswith n k
                  then known_prefix self (String.length k) n else None) = Some t →
                 t ∈ known_class_names self) as Hk.
  { intros k n Hn. destruct (_ && _); [|done].
    by apply known_prefix_known in Hn as [? _]. }
  unfold reference_target_for_class. intros H.
  destruct (if PyStr.nonempty owner_class && PyStr.endswith owner_class "Ref"
            then known_prefix self 3 owner_class else None) as [cand|] eqn:Ho.
  - injection H as ->. by apply (Hk "Ref" owner_class).
  - destruct (ref_target_loop self _ _ _) as [[cand|]|] eqn:Hl; simpl in H.
    + injection H as ->. by apply ref_target_loop_known in Hl as [? _].
    + destruct type_name_local as [n|]; [|done]. by apply (Hk "ID" n).
    + destruct type_name_local as [n|]; [|done]. by apply (Hk "ID" n).
Qed.

Lemma map_xsd_primitive_primitive t : map_xsd_primitive t ∈ PRIMITIVE_RANGES.
Proof.
  destruct t as [t|]; [apply map_xsd_node_primitive|apply string_primitive].
Qed.

Lemma reference_or_primitive_resolves self owner_class attr_name attr_obj :
  let r := reference_or_primitive self owner_class attr_name attr_obj in
  r ≠ "" ∧ (r ∈ PRIMITIVE_RANGES ∨ r ∈ sb_known_class_names self).
Proof.
  unfold reference_or_primitive.
  pose proof (map_xsd_primitive_primitive (attr_type attr_obj)) as Hp.
  assert (map_xsd_primitive (attr_type attr_obj) ≠ "") as Hne.
  { apply primitive_nonempty in Hp. by destruct (map_xsd_primitive _). }
  destruct (String.eqb (PyStr.lower attr_name) "id"
            && class_is_ref_like (sb_reference_resolver self) (Some owner_class));
    [|by auto].
  destruct (reference_target_for_class _ _ _) as [t|] eqn:Ht; [|by auto].
  destruct (PyStr.nonempty t) eqn:Hn; [|by auto].
  apply reference_target_for_class_in_known in Ht.
  split; [by destruct t|by right].
Qed.

Section DocumentedFrame.

Context {A : Type} (f : slot → A).
Hypothesis f_description : ∀ v t, f (set_description v t) = f t.
Hypothesis f_in_subset : ∀ v t, f (set_in_subset v t) = f t.
Hypothesis f_annotations : ∀ v t, f (set_annotations v t) = f t.

Lemma documented_slot_frame self owner_class attr_name attr_obj :
  f (documented_slot self owner_class attr_name attr_obj)
  = f (set_range (reference_or_primitive self owner_class attr_name attr_obj)
         empty_slot).
Proof.
  unfold documented_slot.
  rewrite (apply_appinfo_metadata_frame f) by done.
  destruct (default ∅ _ !! attr_name) as [text|];
    [destruct (PyStr.nonempty text)|]; rewrite ?f_description;
    by rewrite (apply_doc_metadata_frame f).
Qed.

End DocumentedFrame.

Section FinishedFrame.

Context {A : Type} (f : slot → A).
Hypothesis f_pattern : ∀ v t, f (set_pattern v t) = f t.
Hypothesis f_minimum_value : ∀ v t, f (set_minimum_value v t) = f t.
Hypothesis f_maximum_value : ∀ v t, f (set_maximum_value v t) = f t.
Hypothesis f_required : ∀ v t, f (set_required v t) = f t.
Hypothesis f_identifier : ∀ v t, f (set_identifier v t) = f t.

Lemma finished_slot_frame attr_name attr_obj s :
  f (finished_slot attr_name attr_obj s) = f s.
Proof.
  unfold finished_slot.
  destruct (is_identifier_attribute _ _); rewrite ?f_identifier;
    (destruct (bool_decide _); rewrite ?f_required);
    (destruct (max_value_of _); rewrite ?f_maximum_value);
    (destruct (min_value_of _); rewrite ?f_minimum_value);
    (destruct (pattern_facet_of _) as [facet|];
       [destruct (pattern_value_of facet)|]; rewrite ?f_pattern); done.
Qed.

End FinishedFrame.

(** X18.  The range of the slot that [slot_from_attribute] builds is never
    empty and always resolves: for an attribute without enumeration it is a
    primitive range or a known class name, and for an attribute with an
    enumeration it is the name of an enumeration that the returned schema
    defines. *)
Theorem slot_from_attribute_range_resolves
    (self : slot_builder) (owner_class attr_name : string)
    (attr_obj : xsd_attribute) :
  let built := slot_from_attribute self owner_class attr_name attr_obj in
  ∃ r, range built.1 = Some r ∧ r ≠ ""
       ∧ match enumeration_of (attr_type attr_obj) with
         | [] => r ∈ PRIMITIVE_RANGES ∨ r ∈ sb_known_class_names self
         | _ => r = sanitize_enum_name owner_class attr_name
                ∧ is_Some (enums built.2 !! r)
         end.
Proof.
  simpl. rewrite slot_from_attribute_stages.
  destruct (enumeration_of (attr_type attr_obj)) as [|v vs]; simpl.
  - rewrite (finished_slot_frame range) by done.
    rewrite (documented_slot_frame range) by done. simpl.
    eexists. split; [done|]. apply reference_or_primitive_resolves.
  - rewrite (finished_slot_frame range) by done. simpl.
    unfold ensure_enum_for_slot.
    destruct (enums (sb_schema self) !! sanitize_enum_name owner_class attr_name)
      as [old|] eqn:He; simpl.
    + eexists. split; [done|]. split; [apply sanitize_enum_name_nonempty|].
      split; [done|]. by rewrite He.
    + eexists. split; [done|]. split; [apply sanitize_enum_name_nonempty|].
      split; [done|]. by rewrite lookup_insert_eq.
Qed.

(** X19.  Of the flags of the slot that [slot_from_attribute] builds,
    [required] is set, to true, exactly when the attribute's use is
    ["required"]; [identifier] is set, to true, exactly when the attribute is
    named [id] in any letter case or the local name of its type ends with
    [ID]; and [multivalued] is never set.  Neither the documentation nor
    the vendor extensions of the attribute have any influence on them. *)
Theorem slot_from_attribute_flags
    (self : slot_builder) (owner_class attr_name : string)
    (attr_obj : xsd_attribute) :
  let s := (slot_from_attribute self owner_class attr_name attr_obj).1 in
  let type_name_local := local_name (attr_type attr_obj ≫= type_name_of) in
  required s
  = (if bool_decide (attr_use attr_obj = Some "required") then Some true else None)
  ∧ identifier s
    = (if String.eqb (PyStr.lower attr_name) "id"
          || PyStr.nonempty type_name_local && PyStr.endswith type_name_local "ID"
       then Some true else None)
  ∧ multivalued s = None.
Proof.
  simpl.
  assert (∀ d,
    required (finished_slot attr_name attr_obj d)
    = (if bool_decide (attr_use attr_obj = Some "required")
       then Some true else required d)
    ∧ identifier (finished_slot attr_name attr_obj d)
      = (if is_identifier_attribute attr_name attr_obj
         then Some true else identifier d)) as Hfin.
  { intros d. unfold finished_slot.
    destruct (is_identifier_attribute attr_name attr_obj);
      destruct (bool_decide (attr_use attr_obj = Some "required"));
      destruct (max_value_of (attr_type attr_obj));
      destruct (min_value_of (attr_type attr_obj));
      (destruct (pattern_facet_of (attr_type attr_obj)) as [facet|];
         [destruct (pattern_value_of facet)|]); done. }
  rewrite slot_from_attribute_stages.
  destruct (enumeration_of (attr_type attr_obj)) as [|v vs]; simpl.
  - destruct (Hfin (documented_slot self owner_class attr_name attr_obj))
      as [-> ->].
    rewrite (finished_slot_frame multivalued) by done.
    rewrite (documented_slot_frame required), (documented_slot_frame identifier),
      (documented_slot_frame multivalued) by done.
    done.
  - destruct (Hfin (set_range
                      (ensure_enum_for_slot (sb_schema self) owner_class attr_name
                         (v :: vs)).1
                      (documented_slot self owner_class attr_name attr_obj)))
      as [-> ->].
    rewrite (finished_slot_frame multivalued) by done. simpl.
    rewrite (documented_slot_frame required), (documented_slot_frame identifier),
      (documented_slot_frame multivalued) by done.
    done.
Qed.

(** X20.  A non-empty description override registered for the owner class
    and the attribute name is the description of the slot that
    [slot_from_attribute] builds, whatever the attribute's documentation and
    vendor extensions say. *)
Theorem slot_from_attribute_description_override
    (self : slot_builder) (owner_class attr_name text : string)
    (by_attribute : gmap string string) (attr_obj : xsd_attribute) :
  attr_description_overrides self !! owner_class = Some by_attribute →
  by_attribute !! attr_name = Some text →
  text ≠ "" →
  description (slot_from_attribute self owner_class attr_name attr_obj).1
  = Some text.
Proof.
  intros Ho Ha Hne. rewrite slot_from_attribute_stages.
  assert (description (documented_slot self owner_class attr_name attr_obj)
          = Some text) as Hd.
  { unfold documented_slot.
    rewrite (apply_appinfo_metadata_frame description) by done.
    rewrite Ho. simpl. rewrite Ha.
    by destruct text. }
  destruct (enumeration_of (attr_type attr_obj)) as [|v vs]; simpl;
    by rewrite (finished_slot_frame description).
Qed.

Lemma slot_from_attribute_description_override_witness :
  description (apply_doc_metadata empty_slot
                 (get_documentation (attr_annotation documented_attribute)))
  = Some "A name."
  ∧ description
      (slot_from_attribute described_builder "Image" "Name" documented_attribute).1
    = Some "The name of the image".
Proof.
  split; [vm_compute; reflexivity|].
  apply (slot_from_attribute_description_override described_builder "Image" "Name"
           "The name of the image" {[ "Name" := "The name of the image" ]}
           documented_attribute);
    [apply lookup_singleton_eq|apply lookup_singleton_eq|discriminate].
Defined.

(** X21.  [slot_from_attribute] never changes the classes of the schema and
    never changes or removes an enumeration the schema has; for an attribute
    without enumeration it returns the schema as it was, and otherwise it adds
    at most the one enumeration named after the owner class and the
    attribute. *)
Theorem slot_from_attribute_schema_frame
    (self : slot_builder) (owner_class attr_name : string)
    (attr_obj : xsd_attribute) :
  let schema := (slot_from_attribute self owner_class attr_name attr_obj).2 in
  classes schema = classes (sb_schema self)
  ∧ enums (sb_schema self) ⊆ enums schema
  ∧ dom (enums schema)
    ⊆ dom (enums (sb_schema self)) ∪ {[ sanitize_enum_name owner_class attr_name ]}
  ∧ (enumeration_of (attr_type attr_obj) = [] → schema = sb_schema self).
Proof.
  simpl. rewrite slot_from_attribute_stages.
  destruct (enumeration_of (attr_type attr_obj)) as [|v vs]; simpl.
  - split; [done|]. split; [done|]. split; [|done].
    apply union_subseteq_l.
  - unfold ensure_enum_for_slot.
    destruct (enums (sb_schema self) !! sanitize_enum_name owner_class attr_name)
      as [old|] eqn:He; simpl.
    + split; [done|]. split; [done|]. split; [|done].
      apply union_subseteq_l.
    + split; [done|]. split; [by apply insert_subseteq|]. split; [|done].
      rewrite dom_insert. intros x Hx.
      apply elem_of_union in Hx as [Hx|Hx]; apply elem_of_union; auto.
Qed.

Lemma slot_from_attribute_schema_frame_witness :
  enumeration_of (attr_type documented_attribute) = []
  ∧ (slot_from_attribute described_builder "Image" "Name" documented_attribute).2
    = sb_schema described_builder.
Proof.
  split; [reflexivity|].
  destruct (slot_from_attribute_schema_frame described_builder "Image" "Name"
              documented_attribute) as (_ & _ & _ & Hsame).
  apply Hsame. reflexivity.
Defined.


(** ** Identity processor: the key map and the calls made *)

Lemma nonempty_true s : PyStr.nonempty s = true ↔ s ≠ "".
Proof. by destruct s. Qed.

Lemma nonempty_false s : PyStr.nonempty s = false ↔ s = "".
Proof. by destruct s. Qed.

Lemma key_target_add_well_formed key target_class key_target_map :
  target_class ≠ "" →
  key_targets_well_formed key_target_map →
  key_targets_well_formed (key_target_add key target_class key_target_map).
Proof.
  intros Hne Hwf. unfold key_target_add.
  apply map_Forall_insert_2; [|done].
  destruct (key_target_map !! key) as [cs|] eqn:Hk; simpl.
  - destruct (Hwf _ _ Hk) as (Hnil & Hnd & Hall).
    unfold append_if_absent. case_bool_decide; [done|].
    split; [by destruct cs|]. split.
    + apply NoDup_app. split; [done|]. split; [|apply NoDup_singleton].
      intros x Hx ->%list_elem_of_singleton. done.
    + apply Forall_app. split; [done|]. by constructor.
  - unfold append_if_absent. rewrite bool_decide_eq_false_2 by by inversion 1.
    simpl. split; [done|]. split; [apply NoDup_singleton|]. by constructor.
Qed.

Lemma key_slot_names_nonempty fields :
  Forall (λ n, n ≠ "") (key_slot_names fields).
Proof.
  unfold key_slot_names. induction fields as [|p fields IH]; [constructor|].
  simpl. destruct (PyStr.nonempty p); [|done].
  destruct (PyStr.nonempty (field_slot_name p)) eqn:Hn; [|done].
  simpl. constructor; [by apply nonempty_true|done].
Qed.

Section IdentityInvariant.

Variable converter : Type.
Variable add_attribute : string → string → slot → converter → option converter.
Variable add_unique_key : string → string → list string → converter → option converter.
Variable resolver_of : converter → reference_resolver.

(** A property of the converter that the two callbacks keep, whatever the
    arguments that the processor passes, as long as they are as [called]
    tells. *)
Variable kept : converter → Prop.
Hypothesis add_attribute_kept : ∀ source_class slot_name t conv conv',
  slot_name ≠ "" → t ≠ "" → kept conv →
  add_attribute source_class slot_name (reference_slot t) conv = Some conv' →
  kept conv'.
Hypothesis add_unique_key_kept : ∀ target_class key_name slot_names conv conv',
  target_class ≠ "" → slot_names ≠ [] → Forall (λ n, n ≠ "") slot_names →
  kept conv →
  add_unique_key target_class key_name slot_names conv = Some conv' →
  kept conv'.

Local Arguments local_name : simpl never.
Local Arguments field_slot_name : simpl never.

Lemma register_key_paths_kept key_local_name slot_names paths st st' :
  slot_names ≠ [] → Forall (λ n, n ≠ "") slot_names →
  (kept st.1 ∧ key_targets_well_formed st.2) →
  foldl (register_key_path converter add_unique_key key_local_name slot_names)
        (Some st) paths = Some st' →
  (kept st' .1 ∧ key_targets_well_formed st' .2).
Proof.
  intros Hnil Hall. revert st.
  induction paths as [|p paths IH]; intros st Hst Hrun; simpl in Hrun.
  - by injection Hrun as <-.
  - destruct st as [conv m]. simpl in Hrun.
    destruct (PyStr.nonempty (PyStr.strip p)); [|by eapply IH].
    destruct (last (path_segments (PyStr.strip p))) as [seg|]; [|by eapply IH].
    destruct (bool_decide (seg = "*" ∨ seg = ".")); [by eapply IH|].
    destruct (PyStr.nonempty (local_name (Some seg))) eqn:Hn; [|by eapply IH].
    apply nonempty_true in Hn.
    destruct (add_unique_key (local_name (Some seg)) key_local_name slot_names conv)
      as [conv'|] eqn:Hadd; simpl in Hrun.
    + eapply IH; [|done]. destruct Hst as [Hk Hm]. split; simpl.
      * by eapply add_unique_key_kept.
      * by apply key_target_add_well_formed.
    + exfalso. clear -Hrun. induction paths as [|q paths IH]; [done|].
      by apply IH.
Qed.

Lemma add_reference_fields_kept source_class range_target fields conv conv' :
  kept conv →
  foldl (add_reference_field converter add_attribute source_class range_target)
        (Some conv) fields = Some conv' →
  kept conv'.
Proof.
  revert conv. induction fields as [|p fields IH]; intros conv Hk Hrun;
    simpl in Hrun.
  - by injection Hrun as <-.
  - destruct (PyStr.nonempty p); [|by eapply IH].
    destruct (PyStr.nonempty (field_slot_name p)) eqn:Hn; [|by eapply IH].
    destruct range_target as [t|]; [|by eapply IH]. simpl in Hrun.
    destruct (PyStr.nonempty t) eqn:Ht; [|by eapply IH]. simpl in Hrun.
    apply nonempty_true in Hn. apply nonempty_true in Ht.
    destruct (add_attribute source_class (field_slot_name p) (reference_slot t) conv)
      as [conv1|] eqn:Hadd.
    + eapply IH; [|done].
      exact (add_attribute_kept _ _ _ _ _ Hn Ht Hk Hadd).
    + exfalso. clear -Hrun. induction fields as [|q fields IH]; [done|].
      by apply IH.
Qed.

Lemma process_identity_kept st entry st' :
  (kept st.1 ∧ key_targets_well_formed st.2) →
  process_identity converter add_attribute add_unique_key resolver_of
    (Some st) entry = Some st' →
  (kept st' .1 ∧ key_targets_well_formed st' .2).
Proof.
  intros Hst Hrun. destruct entry as [ident_name ident]. simpl in Hrun.
  assert (∀ selector fields,
            process_key converter add_unique_key ident_name selector fields st
            = Some st' → (kept st' .1 ∧ key_targets_well_formed st' .2)) as Hkey.
  { intros selector fields Hk. unfold process_key in Hk.
    destruct selector as [selector_path|]; [|by injection Hk as <-].
    pose proof (key_slot_names_nonempty fields) as Hall.
    destruct (key_slot_names fields) as [|n ns] eqn:Hnames;
      [by injection Hk as <-|].
    by eapply register_key_paths_kept in Hk. }
  destruct ident as [selector fields|selector fields|refer selector fields|];
    [by eapply Hkey|by eapply Hkey| |by injection Hrun as <-].
  destruct st as [conv m]. unfold process_keyref in Hrun.
  destruct refer as [refer|]; [|by injection Hrun as <-].
  destruct (last (path_segments (default "" selector))) as [seg|];
    [|by injection Hrun as <-].
  destruct (bool_decide (seg = "*" ∨ seg = ".")); [by injection Hrun as <-|].
  destruct (foldl _ (Some conv) fields) as [conv1|] eqn:Hfold; [|done].
  simpl in Hrun. injection Hrun as <-.
  destruct Hst as [Hk Hm]. split; [|done]. simpl.
  by eapply add_reference_fields_kept.
Qed.

Lemma process_identities_kept identities st st' :
  (kept st.1 ∧ key_targets_well_formed st.2) →
  foldl (process_identity converter add_attribute add_unique_key resolver_of)
        (Some st) identities = Some st' →
  (kept st' .1 ∧ key_targets_well_formed st' .2).
Proof.
  revert st. induction identities as [|entry identities IH]; intros st Hst Hrun.
  - by injection Hrun as <-.
  - cbn [foldl] in Hrun.
    destruct (process_identity converter add_attribute add_unique_key resolver_of
                (Some st) entry) as [st1|] eqn:Hstep.
    + eapply IH; [|done]. by eapply process_identity_kept.
    + exfalso. clear -Hrun. induction identities as [|e identities IH]; [done|].
      by apply IH.
Qed.

End IdentityInvariant.

(** X22.  Whatever the callbacks do, the loop of [process_identities] keeps its
    key map well formed: every key in it has at least one target class, and
    the target classes of a key are distinct and none is the empty name.
    So the candidates that a keyref hands to [select_keyref_range] are always
    distinct non-empty class names. *)
Theorem process_identities_key_map_well_formed
    (converter : Type)
    (add_attribute : string → string → slot → converter → option converter)
    (add_unique_key : string → string → list string → converter → option converter)
    (resolver_of : converter → reference_resolver)
    (identities : list (string * identity))
    (st st' : identities_state converter) :
  key_targets_well_formed st.2 →
  foldl (process_identity converter add_attribute add_unique_key resolver_of)
        (Some st) identities = Some st' →
  key_targets_well_formed st' .2
  ∧ ∀ refer, NoDup (keyref_target_classes st' .2 refer)
             ∧ Forall (λ c, c ≠ "") (keyref_target_classes st' .2 refer).
Proof.
  intros Hwf Hrun.
  assert (key_targets_well_formed st' .2) as Hwf'.
  { eapply (process_identities_kept converter add_attribute add_unique_key
              resolver_of (λ _, True)) in Hrun; [by destruct Hrun|done|done|done]. }
  split; [done|]. intros refer. unfold keyref_target_classes.
  destruct (st' .2 !! refer_key_of refer) as [cs|] eqn:Hk; simpl.
  - by destruct (Hwf' _ _ Hk) as (_ & ? & ?).
  - split; constructor.
Qed.

Lemma process_identities_key_map_well_formed_witness :
  ∃ st', foldl (process_identity logging_converter log_attribute log_unique_key
                  logging_resolver)
               (Some ((base_derived_resolver, [], []), ∅)) sample_identities
         = Some st'
         ∧ keyref_target_classes st' .2 (ReferName "{ns}ABKey")
           = ["DerivedA"; "DerivedB"]
         ∧ key_targets_well_formed st' .2.
Proof.
  eexists. split; [vm_compute; reflexivity|]. split; [vm_compute; reflexivity|].
  apply (process_identities_key_map_well_formed logging_converter log_attribute
           log_unique_key logging_resolver sample_identities
           ((base_derived_resolver, [], []), ∅));
    [apply map_Forall_empty|vm_compute; reflexivity].
Defined.

(** X23.  With callbacks that record their calls and never fail,
    [process_identities] returns, and every call it made is well formed:
    [add_attribute] was called only with a non-empty slot name and a
    reference slot over a non-empty range, and [add_unique_key] only with a
    non-empty class name and a non-empty list of non-empty slot names. *)
Theorem process_identities_logged_calls_well_formed
    (resolver : reference_resolver) (identities : list (string * identity)) :
  ∃ conv,
    process_identities logging_converter log_attribute log_unique_key
      logging_resolver identities (resolver, [], []) = Some conv
    ∧ logged_calls_well_formed conv.
Proof.
  unfold process_identities.
  assert (∀ identities st, ∃ st',
            foldl (process_identity logging_converter log_attribute log_unique_key
                     logging_resolver) (Some st) identities = Some st') as Htotal.
  { assert (∀ sc rt fields conv, ∃ conv',
              foldl (add_reference_field logging_converter log_attribute sc rt)
                    (Some conv) fields = Some conv') as Hfields.
    { intros sc rt fields. induction fields as [|p fields IH]; intros conv;
        [by eexists|]. simpl.
      destruct (PyStr.nonempty p); [|apply IH].
      destruct (_ && _); [|apply IH].
      destruct conv as [[r slots] keys]. simpl. apply IH. }
    assert (∀ k names paths st, ∃ st',
              foldl (register_key_path logging_converter log_unique_key k names)
                    (Some st) paths = Some st') as Hpaths.
    { intros k names paths. induction paths as [|p paths IH]; intros st;
        [by eexists|]. destruct st as [conv m]. simpl.
      destruct (PyStr.nonempty (PyStr.strip p)); [|apply IH].
      destruct (last _) as [seg|]; [|apply IH].
      destruct (bool_decide _); [apply IH|].
      destruct (PyStr.nonempty _); [|apply IH].
      destruct conv as [[r slots] keys]. simpl. apply IH. }
    clear identities. intros identities.
    induction identities as [|[ident_name ident] identities IH]; intros st;
      [by eexists|]. simpl.
    assert (∀ selector fields, ∃ st1,
              process_key logging_converter log_unique_key ident_name selector
                fields st = Some st1) as Hkey.
    { intros selector fields. unfold process_key.
      destruct selector as [sp|]; [|by eexists].
      destruct (key_slot_names fields); [by eexists|]. apply Hpaths. }
    destruct ident as [selector fields|selector fields|refer selector fields|].
    - destruct (Hkey selector fields) as [st1 ->]. apply IH.
    - destruct (Hkey selector fields) as [st1 ->]. apply IH.
    - destruct st as [conv m]. unfold process_keyref.
      destruct refer as [refer|]; [|apply IH].
      destruct (last _) as [seg|]; [|apply IH].
      destruct (bool_decide _); [apply IH|].
      destruct (Hfields (local_name (Some seg))
                  (select_keyref_range (logging_resolver conv)
                     (keyref_target_classes m refer)) fields conv) as [conv1 ->].
      simpl. apply IH.
    - apply IH. }
  destruct (Htotal identities ((resolver, [], []), ∅)) as [[conv m] Hrun].
  exists conv. split; [exact (f_equal (fmap fst) Hrun)|].
  eapply (process_identities_kept logging_converter log_attribute log_unique_key
            logging_resolver logged_calls_well_formed) in Hrun.
  - by destruct Hrun.
  - intros sc n t [[r slots] keys] conv' Hn Ht [Hs Hk] [= <-]. split; [|done].
    simpl. apply Forall_app. split; [done|]. constructor; [|done]. simpl. eauto.
  - intros tc k names [[r slots] keys] conv' Htc Hnil Hall [Hs Hk] [= <-].
    split; [done|]. simpl. apply Forall_app. split; [done|]. by constructor.
  - split; [|apply map_Forall_empty]. split; constructor.
Qed.


(** ** Slot builder: the slot of a child element *)

Section ChildFrame.

Context {A : Type} (f : slot → A).
Hypothesis f_description : ∀ v t, f (set_description v t) = f t.
Hypothesis f_in_subset : ∀ v t, f (set_in_subset v t) = f t.
Hypothesis f_annotations : ∀ v t, f (set_annotations v t) = f t.

Lemma child_documentation_frame (s : slot) doc annotation text :
  f (apply_appinfo_metadata
       (if PyStr.truthy doc then apply_doc_metadata s doc
        else match description s with
             | None => set_description text s
             | Some _ => s
             end)
       annotation)
  = f s.
Proof.
  rewrite (apply_appinfo_metadata_frame f) by done.
  destruct (PyStr.truthy doc).
  - by rewrite (apply_doc_metadata_frame f).
  - by destruct (description s).
Qed.

End ChildFrame.

Lemma build_child_element_slot_some parent_class child_qname child s n r :
  build_child_element_slot parent_class child_qname child = Some (s, n, r) →
  n ≠ ""
  ∧ (r = match child_ref child with
         | Some ref_target => Some (refer_key_of ref_target)
         | None =>
             match child_type child with
             | Some (ComplexType type_name) =>
                 if PyStr.truthy type_name then Some (local_name type_name)
                 else Some n
             | Some (SimpleType t) => Some (map_xsd_primitive (Some t))
             | None => None
             end
         end)
  ∧ ∀ A (f : slot → A),
      (∀ v t, f (set_description v t) = f t) →
      (∀ v t, f (set_in_subset v t) = f t) →
      (∀ v t, f (set_annotations v t) = f t) →
      f s
      = f (let slot_def :=
             set_range (if PyStr.truthy r then default "" r else "string")
               empty_slot in
           let slot_def :=
             match child_min_occurs child with
             | Some mino =>
                 if (1 <=? mino)%Z then set_required true slot_def else slot_def
             | None => slot_def
             end in
           if child_is_multivalued child then set_multivalued true slot_def
           else slot_def).
Proof.
  unfold build_child_element_slot.
  set (name := if PyStr.nonempty (local_name _) then _ else _).
  destruct (PyStr.nonempty name) eqn:Hn; [|done].
  intros [= <- <- <-]. split; [by apply nonempty_true|]. split; [done|].
  intros A f Hd Hi Ha. by rewrite (child_documentation_frame f).
Qed.

(** X24.  [build_child_element_slot] returns nothing exactly when the child
    has no local name, neither by the name it is listed under nor by its
    own.  Otherwise the name it returns is the local name it is listed
    under or, if that is empty, the local name of its own; this name is not
    empty, and the range of the slot is never empty: it is the child range
    it returns if that is not empty, and [string] if there is none or it is
    empty.  A child range that comes from a simple type is a primitive
    range. *)
Theorem build_child_element_slot_named_and_ranged
    (parent_class : string) (child_qname : option string) (child : xsd_child) :
  let listed := local_name child_qname in
  let own := local_name (child_name child) in
  (build_child_element_slot parent_class child_qname child = None
   ↔ listed = "" ∧ own = "")
  ∧ match build_child_element_slot parent_class child_qname child with
    | None => True
    | Some (slot_def, name, child_range) =>
        name = (if PyStr.nonempty listed then listed else own)
        ∧ name ≠ ""
        ∧ (∃ range_name,
             range slot_def = Some range_name ∧ range_name ≠ ""
             ∧ (if PyStr.truthy child_range then child_range = Some range_name
                else range_name = "string"))
        ∧ (child_ref child = None →
           (∃ t, child_type child = Some (SimpleType t)) →
           ∃ p, child_range = Some p ∧ p ∈ PRIMITIVE_RANGES)
    end.
Proof.
  intros listed own.
  assert ((if PyStr.nonempty
                (local_name (if PyStr.truthy child_qname then child_qname
                             else child_name child))
           then local_name (if PyStr.truthy child_qname then child_qname
                            else child_name child)
           else own)
          = if PyStr.nonempty listed then listed else own) as Hname.
  { unfold listed, own. destruct child_qname as [[|a q]|]; simpl;
      by destruct (PyStr.nonempty (local_name (child_name child))). }
  split.
  - unfold build_child_element_slot. fold own. rewrite Hname.
    destruct (PyStr.nonempty listed) eqn:Hl.
    + rewrite Hl. split; [done|]. intros [Hlisted _].
      rewrite Hlisted in Hl. done.
    + apply nonempty_false in Hl.
      destruct (PyStr.nonempty own) eqn:Ho.
      * split; [done|]. intros [_ Hown]. rewrite Hown in Ho. done.
      * apply nonempty_false in Ho. done.
  - destruct (build_child_element_slot parent_class child_qname child)
      as [[[s n] r]|] eqn:Hb; [|done].
    assert (n = if PyStr.nonempty listed then listed else own) as Hn.
    { unfold build_child_element_slot in Hb. fold own in Hb.
      rewrite Hname in Hb.
      destruct (PyStr.nonempty (if PyStr.nonempty listed then listed else own));
        [|done].
      by injection Hb as _ <- _. }
    apply build_child_element_slot_some in Hb as (Hne & Hr & Hf).
    split; [done|]. split; [done|]. split.
    + rewrite (Hf _ range) by done.
      exists (if PyStr.truthy r then default "" r else "string").
      split.
      { destruct (child_min_occurs child) as [m|];
          [destruct (1 <=? m)%Z|]; by destruct (child_is_multivalued child). }
      destruct r as [[|a r]|]; simpl; done.
    + intros Href [t Ht]. rewrite Href, Ht in Hr.
      eexists. split; [done|]. apply map_xsd_primitive_primitive.
Qed.

Lemma build_child_element_slot_named_and_ranged_witness :
  ∃ slot_def,
    build_child_element_slot "Dataset" None count_child
    = Some (slot_def, "Count", Some "integer")
    ∧ "integer" ∈ PRIMITIVE_RANGES.
Proof.
  assert (∃ slot_def, build_child_element_slot "Dataset" None count_child
                      = Some (slot_def, "Count", Some "integer")) as [slot_def Hb]
    by (eexists; vm_compute; reflexivity).
  exists slot_def. split; [exact Hb|].
  destruct (build_child_element_slot_named_and_ranged "Dataset" None count_child)
    as [_ Hspec].
  rewrite Hb in Hspec. destruct Hspec as (_ & _ & _ & Hprimitive).
  destruct (Hprimitive eq_refl (ex_intro _ _ eq_refl)) as (p & Hp & Hin).
  injection Hp as <-. exact Hin.
Defined.

(** X25.  The occurrence flags of the slot that [build_child_element_slot]
    builds depend on the occurrence attributes of the child alone, not on
    its documentation: [required] is set exactly for an integer lower bound
    of at least one, and [multivalued] exactly when the upper bound is
    ["unbounded"] or an integer above one or, where there is none, the last
    entry of a non-empty [occurs] is absent or an integer above one.  This
    covers every case in which [choice_is_repeating] holds of a group with
    the same attributes; [identifier] is never set. *)
Theorem build_child_element_slot_occurrence
    (parent_class : string) (child_qname : option string) (child : xsd_child)
    (slot_def : slot) (name : string) (child_range : option string) :
  build_child_element_slot parent_class child_qname child
  = Some (slot_def, name, child_range) →
  (required slot_def = Some true
   ↔ ∃ mino, child_min_occurs child = Some mino ∧ (1 ≤ mino)%Z)
  ∧ (required slot_def = Some true ∨ required slot_def = None)
  ∧ (multivalued slot_def = Some true
     ↔ child_max_occurs child = Some (BoundStr "unbounded")
       ∨ (∃ n, child_max_occurs child = Some (BoundInt n) ∧ (1 < n)%Z)
       ∨ (child_max_occurs child = None
          ∧ ∃ front final, child_occurs child = Some (front ++ [final])
                           ∧ ∀ n, final = Some n → (1 < n)%Z))
  ∧ (multivalued slot_def = Some true ∨ multivalued slot_def = None)
  ∧ (choice_is_repeating (group_like child) = true →
     multivalued slot_def = Some true)
  ∧ identifier slot_def = None.
Proof.
  intros Hb. apply build_child_element_slot_some in Hb as (_ & _ & Hf).
  assert (required slot_def
          = match child_min_occurs child with
            | Some mino => if (1 <=? mino)%Z then Some true else None
            | None => None
            end) as Hreq.
  { rewrite (Hf _ required) by done.
    destruct (child_min_occurs child) as [m|];
      [destruct (1 <=? m)%Z|]; by destruct (child_is_multivalued child). }
  assert (multivalued slot_def
          = if child_is_multivalued child then Some true else None) as Hmul.
  { rewrite (Hf _ multivalued) by done.
    destruct (child_min_occurs child) as [m|];
      [destruct (1 <=? m)%Z|]; by destruct (child_is_multivalued child). }
  assert (identifier slot_def = None) as Hid.
  { rewrite (Hf _ identifier) by done.
    destruct (child_min_occurs child) as [m|];
      [destruct (1 <=? m)%Z|]; by destruct (child_is_multivalued child). }
  assert (child_is_multivalued child = true
          ↔ child_max_occurs child = Some (BoundStr "unbounded")
            ∨ (∃ n, child_max_occurs child = Some (BoundInt n) ∧ (1 < n)%Z)
            ∨ (child_max_occurs child = None
               ∧ ∃ front final, child_occurs child = Some (front ++ [final])
                                ∧ ∀ n, final = Some n → (1 < n)%Z)) as Hchar.
  { unfold child_is_multivalued.
    destruct (child_max_occurs child) as [[n|s]|].
    - rewrite Z.ltb_lt. split.
      + intros Hlt. right; left. eauto.
      + intros [?|[(n' & [= <-] & ?)|[? _]]]; done.
    - rewrite String.eqb_eq. split.
      + intros ->. by left.
      + intros [[= ->]|[(n' & ? & ?)|[? _]]]; done.
    - destruct (child_occurs child) as [occurs_tuple|]; [|simpl].
      + destruct (decide (occurs_tuple = [])) as [-> |Hne].
        * simpl. split; [done|].
          intros [?|[(n & ? & ?)|(_ & front & final & [= Hnil] & _)]];
            [done|done|]. by destruct front.
        * destruct (exists_last Hne) as (front & final & ->).
          assert (occurs_truthy (Some (front ++ [final])) = true) as ->
            by by destruct front.
          unfold occurs_last. simpl. rewrite last_snoc. simpl.
          destruct final as [n|]; simpl.
          -- rewrite Z.ltb_lt. split.
             ++ intros Hlt. right; right. split; [done|].
                exists front, (Some n). split; [done|]. by intros ? [= <-].
             ++ intros [?|[(n' & ? & ?)|(_ & front' & final' & [= Heq] & Hall)]];
                  [done|done|].
                apply app_inj_tail in Heq as [_ <-]. by apply Hall.
          -- split; [|done]. intros _. right; right. split; [done|].
             exists front, None. by split.
      + split; [done|].
        intros [?|[(n & ? & ?)|(_ & front & final & ? & _)]]; done. }
  split; [|split; [|split; [|split; [|split; [|done]]]]].
  - rewrite Hreq. destruct (child_min_occurs child) as [m|].
    + destruct (1 <=? m)%Z eqn:Hm.
      * apply Z.leb_le in Hm. split; [eauto|done].
      * apply Z.leb_gt in Hm. split; [done|]. intros (m' & [= <-] & ?). lia.
    + split; [done|]. by intros (m' & ? & _).
  - rewrite Hreq. destruct (child_min_occurs child) as [m|];
      [destruct (1 <=? m)%Z|]; auto.
  - rewrite Hmul, <- Hchar. by destruct (child_is_multivalued child).
  - rewrite Hmul. destruct (child_is_multivalued child); auto.
  - rewrite Hmul. intros Hrep.
    assert (child_is_multivalued child = true) as ->; [|done].
    apply Hchar. simpl in Hrep.
    destruct (child_max_occurs child) as [[n|s]|].
    + apply Z.ltb_lt in Hrep. right; left. eauto.
    + apply String.eqb_eq in Hrep as ->. by left.
    + right; right. split; [done|].
      destruct (child_occurs child) as [occurs_tuple|]; [|done].
      destruct (decide (occurs_tuple = [])) as [-> |Hne]; [done|].
      destruct (exists_last Hne) as (front & final & ->).
      rewrite last_snoc in Hrep.
      exists front, final. split; [done|]. by destruct final.
Qed.

Lemma build_child_element_slot_occurrence_witness :
  ∃ slot_def,
    build_child_element_slot "Dataset" (Some "{ns}Image") image_child
    = Some (slot_def, "Image", Some "Image")
    ∧ multivalued slot_def = Some true ∧ required slot_def = None.
Proof.
  eexists. split; [vm_compute; reflexivity|].
  destruct (build_child_element_slot_occurrence "Dataset" (Some "{ns}Image")
              image_child _ "Image" (Some "Image") eq_refl)
    as (_ & _ & Hmul & _).
  split; [|vm_compute; reflexivity].
  apply Hmul. right; right. split; [reflexivity|].
  exists [Some 0%Z], None. split; [reflexivity|]. intros n Hn. discriminate Hn.
Defined.


(** ** Local names *)

Lemma append_cons a (p q : string) : String a p +:+ q = String a (p +:+ q).
Proof. reflexivity. Qed.

Lemma append_nil (q : string) : "" +:+ q = q.
Proof. reflexivity. Qed.

Lemma contains_char_app c (p q : string) :
  PyStr.contains_char c (p +:+ q)
  = PyStr.contains_char c p || PyStr.contains_char c q.
Proof.
  induction p as [|a p IH]; [done|].
  rewrite append_cons. simpl. by destruct (Ascii.eqb a c).
Qed.

Lemma after_last_suffix c (s : string) :
  ∃ front, s = front +:+ PyStr.after_last c s.
Proof.
  induction s as [|a s IH]; [by exists ""|]. simpl.
  destruct (PyStr.contains_char c s).
  - destruct IH as [front Hf]. exists (String a front).
    rewrite append_cons. by f_equal.
  - destruct (Ascii.eqb a c); [by exists (String a "")|by exists ""].
Qed.

Lemma after_last_free c (s : string) :
  PyStr.contains_char c (PyStr.after_last c s) = false.
Proof.
  induction s as [|a s IH]; [done|]. simpl.
  destruct (PyStr.contains_char c s) eqn:Hs; [done|].
  destruct (Ascii.eqb a c) eqn:Ha; [done|]. simpl. by rewrite Ha.
Qed.

Lemma after_last_separator c (front name : string) :
  PyStr.contains_char c name = false →
  PyStr.after_last c (front +:+ String c name) = name.
Proof.
  intros Hn. induction front as [|a front IH].
  - rewrite append_nil. simpl. by rewrite Hn, Ascii.eqb_refl.
  - rewrite append_cons. simpl.
    by rewrite contains_char_app; simpl; rewrite Ascii.eqb_refl, orb_true_r.
Qed.

(** X26.  The local name of a text is an end piece of the text and never
    contains a closing brace; where the text has no closing brace, it
    contains no colon either. *)
Theorem local_name_end_piece (text : string) :
  (∃ front, text = front +:+ local_name (Some text))
  ∧ PyStr.contains_char "}" (local_name (Some text)) = false
  ∧ (PyStr.contains_char "}" text = false →
     PyStr.contains_char ":" (local_name (Some text)) = false).
Proof.
  unfold local_name. split; [|split].
  - destruct (PyStr.contains_char "}" text); [apply after_last_suffix|].
    destruct (PyStr.contains_char ":" text); [apply after_last_suffix|].
    by exists "".
  - destruct (PyStr.contains_char "}" text) eqn:Hb; [apply after_last_free|].
    destruct (PyStr.contains_char ":" text) eqn:Hc; [|done].
    destruct (after_last_suffix ":" text) as [front Hf].
    rewrite Hf, contains_char_app in Hb. by apply orb_false_elim in Hb as [_ ?].
  - intros ->. destruct (PyStr.contains_char ":" text) eqn:Hc; [|done].
    apply after_last_free.
Qed.

Lemma local_name_end_piece_witness :
  PyStr.contains_char "}" "OME:Image" = false
  ∧ PyStr.contains_char ":" (local_name (Some "OME:Image")) = false.
Proof.
  split; [reflexivity|].
  destruct (local_name_end_piece "OME:Image") as (_ & _ & Hcolon).
  apply Hcolon. reflexivity.
Defined.

(** X27.  [local_name] undoes qualification: of a name in braces notation,
    [{qualifier}name], it returns the name, whatever the qualifier and even
    if the name has a colon; and of a prefixed name, [qualifier:name], it
    returns the name, provided neither part has a closing brace and the name
    has no colon. *)
Theorem local_name_of_qualified (qualifier name : string) :
  PyStr.contains_char "}" name = false →
  local_name (Some ("{" +:+ qualifier +:+ "}" +:+ name)) = name
  ∧ (PyStr.contains_char "}" qualifier = false →
     PyStr.contains_char ":" name = false →
     local_name (Some (qualifier +:+ ":" +:+ name)) = name).
Proof.
  intros Hname. split.
  - change ("{" +:+ qualifier +:+ "}" +:+ name)
      with ("{" +:+ (qualifier +:+ String "}" name)).
    rewrite <- string_app_assoc. unfold local_name.
    rewrite contains_char_app. simpl PyStr.contains_char at 2.
    rewrite orb_true_r. by apply after_last_separator.
  - intros Hqualifier Hcolon.
    change (qualifier +:+ ":" +:+ name) with (qualifier +:+ String ":" name).
    unfold local_name. rewrite !contains_char_app, Hqualifier.
    assert (PyStr.contains_char "}" (String ":" name) = false) as ->
      by (by simpl).
    assert (PyStr.contains_char ":" (String ":" name) = true) as ->
      by reflexivity.
    rewrite orb_true_r. cbn [orb].
    by apply after_last_separator.
Qed.

Lemma local_name_of_qualified_witness :
  local_name (Some "{http://www.openmicroscopy.org/Schemas/OME/2016-06}Image")
  = "Image"
  ∧ local_name (Some "OME:Image") = "Image".
Proof.
  split.
  - by apply (local_name_of_qualified
                "http://www.openmicroscopy.org/Schemas/OME/2016-06" "Image").
  - by apply (local_name_of_qualified "OME" "Image").
Defined.


(** ** Constraint handler: processing a content model *)

Lemma foldl_choices cn self (items : list node) :
  foldl (λ self' item,
           if is_choice item
           then apply_choice_constraint self' cn
                  (extract_choice_branches item) (choice_is_repeating item)
           else self')
        self items
  = foldl (record_choice cn) self (filter (λ g, is_choice g = true) items).
Proof.
  revert self. induction items as [|item items IH]; intros self; [done|].
  simpl. destruct (is_choice item) eqn:Hc.
  - rewrite filter_cons_True by done. simpl. apply IH.
  - rewrite filter_cons_False by (by rewrite Hc). apply IH.
Qed.

(** Processing a content model records its choices one after the other. *)
Lemma collect_choice_constraints_choices self cn content :
  collect_choice_constraints self cn (Some content)
  = foldl (record_choice cn) self (choices_of content).
Proof.
  unfold choices_of.
  destruct content as [name ref min_occurs | model maxo occurs items |].
  - by rewrite filter_cons_False by done.
  - unfold collect_choice_constraints.
    set (content := XsdGroup model maxo occurs items).
    rewrite foldl_choices. destruct (is_choice content) eqn:Hc.
    + by rewrite filter_cons_True by done.
    + by rewrite filter_cons_False by (by rewrite Hc).
  - by rewrite filter_cons_False by done.
Qed.

Lemma record_choices_extends cn (groups : list node) self :
  handler_extends self (foldl (record_choice cn) self groups).
Proof.
  revert self. induction groups as [|g groups IH]; intros self;
    [apply handler_extends_refl|].
  simpl. eapply handler_extends_trans; [|apply IH].
  apply apply_choice_constraint_extends.
Qed.

Lemma record_choices_short cn (groups : list node) self :
  Forall (λ g, (length (extract_choice_branches g) < 2)%nat) groups →
  foldl (record_choice cn) self groups = self.
Proof.
  induction 1 as [|g groups Hg _ IH]; [done|].
  simpl. unfold record_choice at 2.
  by rewrite apply_choice_constraint_short.
Qed.

(** C2, as the code has it.  For every choice group that processing the
    content model visits (the content itself or one of its items), with at
    least two non-empty branches, each contributing exactly one slot name,
    [collect_choice_constraints] leaves on the owning class an
    [exactly_one_of] list that holds, for each branch slot, the expression
    requiring just that slot; if the group is the only choice visited, the
    list holds nothing else besides what it held before, and on a class with
    no earlier list and pairwise distinct branch slots it is one expression
    per branch, in branch order.  After the relaxation pass none of those
    slots carries a [required] key. *)
Theorem exactly_one_of_choice_two_branches
    (self : choice_constraint_handler) (cn : string)
    (content group : node) (names : list string) :
  group ∈ choices_of content →
  (2 ≤ length (extract_choice_branches group))%nat →
  Forall2 single_slot (extract_choice_branches group) names →
  let prior :=
    default [] (exactly_one_of
                  (default empty_class (classes (h_schema self) !! cn))) in
  let self1 := collect_choice_constraints self cn (Some content) in
  (∃ exprs,
      exactly_one_of_of self1 cn = Some exprs
      ∧ (∀ n, n ∈ names → required_expr n ∈ exprs)
      ∧ (choices_of content = [group] →
         (∀ e, e ∈ exprs ↔ e ∈ prior ∨ ∃ n, n ∈ names ∧ e = required_expr n)
         ∧ (prior = [] → NoDup names → exprs = map required_expr names)))
  ∧ (∀ n s, n ∈ names →
            slot_of (relax_choice_constraints self1) cn n = Some s →
            required s = None).
Proof.
  intros Hin Hlong Hsingle prior self1.
  unfold self1. rewrite collect_choice_constraints_choices.
  destruct (list_elem_of_split _ _ Hin) as (before & after & Hsplit).
  rewrite Hsplit, foldl_app. cbn [foldl].
  set (self0 := foldl (record_choice cn) self before).
  pose proof (record_choices_extends cn after (record_choice cn self0 group))
    as (_ & Hmembers & _ & Hclasses).
  set (final := foldl (record_choice cn) (record_choice cn self0 group) after)
    in *.
  destruct (apply_choice_constraint_single_slots self0 cn _ names
              (choice_is_repeating group) Hlong Hsingle)
    as (exprs1 & He1 & Hmem1 & Hexact1).
  fold (record_choice cn self0 group) in He1.
  unfold exactly_one_of_of in He1.
  destruct (classes (h_schema (record_choice cn self0 group)) !! cn)
    as [cls1|] eqn:Hc1; [|done].
  simpl in He1.
  destruct (Hclasses cn cls1 Hc1)
    as (cls' & more & Hc' & _ & _ & _ & _ & _ & _ & Heo).
  rewrite He1 in Heo. simpl in Heo.
  assert (∃ n0, n0 ∈ names) as [n0 Hn0].
  { destruct names as [|n0 names]; [|exists n0; constructor].
    apply Forall2_length in Hsingle. simpl in Hsingle. lia. }
  assert (exactly_one_of cls' = Some (exprs1 ++ more)) as Heo'.
  { destruct (exactly_one_of cls') as [l|]; simpl in Heo; [by rewrite Heo|].
    assert (required_expr n0 ∈ exprs1 ++ more) as Hbad
      by (apply elem_of_app; left; apply Hmem1; right; eauto).
    rewrite <- Heo in Hbad. by apply not_elem_of_nil in Hbad. }
  split.
  - exists (exprs1 ++ more). split; [|split].
    + unfold exactly_one_of_of. by rewrite Hc'.
    + intros n Hn. apply elem_of_app. left. apply Hmem1. right. eauto.
    + intros Hone.
      assert (before = [] ∧ after = []) as [-> ->].
      { clear -Hone. destruct before as [|g before]; simpl in Hone.
        - by injection Hone as ->.
        - injection Hone as _ Hone. by destruct before. }
      subst final self0. simpl in *.
      rewrite Hc1 in Hc'. injection Hc' as <-.
      rewrite He1 in Heo'. injection Heo' as Heo'.
      rewrite <- (app_nil_r exprs1) in Heo' at 1.
      apply app_inv_head in Heo' as <-. rewrite app_nil_r.
      split; [exact Hmem1|exact Hexact1].
  - intros n s Hn Hs. eapply relax_choice_member_required; [|exact Hs].
    apply Hmembers. by eapply single_slot_names_recorded.
Qed.

Lemma exactly_one_of_choice_two_branches_witness :
  let self1 := collect_choice_constraints sample_handler "Sample"
                 (Some abc_choice) in
  (∃ exprs,
      exactly_one_of_of self1 "Sample" = Some exprs
      ∧ (∀ n, n ∈ ["A"; "B"; "C"] → required_expr n ∈ exprs)
      ∧ (choices_of abc_choice = [abc_choice] →
         (∀ e, e ∈ exprs
               ↔ e ∈ [] ∨ ∃ n, n ∈ ["A"; "B"; "C"] ∧ e = required_expr n)
         ∧ (@nil expr = [] → NoDup ["A"; "B"; "C"] →
            exprs = map required_expr ["A"; "B"; "C"])))
  ∧ (∀ n s, n ∈ ["A"; "B"; "C"] →
            slot_of (relax_choice_constraints self1) "Sample" n = Some s →
            required s = None).
Proof.
  apply (exactly_one_of_choice_two_branches sample_handler "Sample"
           abc_choice abc_choice ["A"; "B"; "C"]).
  - apply list_elem_of_here.
  - simpl. lia.
  - repeat constructor; discriminate.
Defined.

(** C3, as the code has it.  For every repeatable choice group that
    processing the content model visits (the content itself or one of its
    items), with at least two non-empty branches, every slot touched by one
    of its branches that the owning class holds with some key besides
    [required] is marked multivalued after the relaxation pass.  Repeatable
    is what [choice_is_repeating] tests: an explicit count above one, or no
    upper bound. *)
Theorem repeating_choice_marks_multivalued
    (self : choice_constraint_handler) (cn : string) (content group : node)
    (n : string) (s : slot) :
  group ∈ choices_of content →
  repeatable group →
  (2 ≤ length (extract_choice_branches group))%nat →
  (∃ b, b ∈ extract_choice_branches group ∧ n ∈ b.*1) →
  slot_of self cn n = Some s →
  pop_required s ≠ empty_slot →
  (repeatable group ↔ choice_is_repeating group = true)
  ∧ ∃ s', slot_of (relax_choice_constraints
                     (collect_choice_constraints self cn (Some content)))
            cn n = Some s'
          ∧ multivalued s' = Some true.
Proof.
  intros Hin Hrep Hlong Htouched Hs Hkeys.
  split; [apply repeatable_is_repeating|].
  apply repeatable_is_repeating in Hrep.
  rewrite collect_choice_constraints_choices.
  set (final := foldl (record_choice cn) self (choices_of content)).
  assert (n ∈ members_of (choice_repeat_membership final) cn) as Hmember.
  { unfold final.
    destruct (list_elem_of_split _ _ Hin) as (before & after & ->).
    rewrite foldl_app. cbn [foldl].
    pose proof (record_choices_extends cn after
                  (record_choice cn (foldl (record_choice cn) self before) group))
      as (_ & _ & Hmembers & _).
    apply Hmembers. unfold record_choice at 1.
    rewrite apply_choice_constraint_repeat_members by done.
    by apply elem_of_union_r, elem_of_universe. }
  pose proof (record_choices_extends cn (choices_of content) self)
    as (_ & _ & _ & Hclasses).
  fold final in Hclasses.
  unfold slot_of in Hs.
  destruct (classes (h_schema self) !! cn) as [cls|] eqn:Hc; [|done].
  simpl in Hs. destruct (attributes cls) as [attrs|] eqn:Ha; [|done].
  simpl in Hs.
  destruct (Hclasses cn cls Hc) as (cls1 & more & Hc1 & _ & _ & Ha1 & _).
  rewrite Ha in Ha1.
  destruct (relax_choice_constraints_slot final cn cls1 attrs n s Hc1 Ha1 Hs)
    as (cls2 & attrs2 & Hc2 & Ha2 & Hn2).
  eexists. split.
  - unfold slot_of. rewrite Hc2. simpl. rewrite Ha2. simpl. exact Hn2.
  - rewrite (bool_decide_eq_true_2
               (n ∈ members_of (choice_repeat_membership final) cn)) by done.
    by apply relaxed_slot_multivalued.
Qed.

Lemma repeating_choice_marks_multivalued_witness :
  choice_is_repeating xy_unbounded_choice = true
  ∧ ∃ s', slot_of (relax_choice_constraints
                     (collect_choice_constraints sample_handler "Sample"
                        (Some sequence_with_choice)))
            "Sample" "X" = Some s'
          ∧ multivalued s' = Some true.
Proof.
  split; [reflexivity|].
  apply (repeating_choice_marks_multivalued sample_handler "Sample"
           sequence_with_choice xy_unbounded_choice "X" (string_slot None)).
  - apply list_elem_of_here.
  - reflexivity.
  - simpl. lia.
  - exists [("X", true)]. split; [constructor|]. simpl. constructor.
  - reflexivity.
  - discriminate.
Defined.

(** C10, as the code has it.  A call of [apply_choice_constraint] with
    fewer than two branches returns the handler as it was: classes and both
    membership maps are unchanged.  For a branch list without empty
    branches, as [extract_choice_branches] returns them, this is a list with
    fewer than two non-empty branches; so the call made for any choice group
    with fewer than two non-empty branches changes nothing, processing a
    content model all of whose choices are such changes nothing, and a
    [required] flag on a slot that is not already recorded as a choice
    member of the class then survives the relaxation pass. *)
Theorem fewer_than_two_branches_unchanged :
  (∀ self cn (branches : list branch) repeating,
     (length branches < 2)%nat →
     apply_choice_constraint self cn branches repeating = self)
  ∧ (∀ self cn (branches : list branch) repeating,
       Forall (λ b, b ≠ []) branches →
       (length (filter (λ b, branch_nonempty b = true) branches) < 2)%nat →
       apply_choice_constraint self cn branches repeating = self)
  ∧ (∀ self cn group,
       (length (extract_choice_branches group) < 2)%nat →
       apply_choice_constraint self cn (extract_choice_branches group)
         (choice_is_repeating group) = self)
  ∧ (∀ self cn content,
       Forall (λ g, (length (extract_choice_branches g) < 2)%nat)
              (choices_of content) →
       collect_choice_constraints self cn (Some content) = self)
  ∧ (∀ self cn content n s,
       Forall (λ g, (length (extract_choice_branches g) < 2)%nat)
              (choices_of content) →
       n ∉ members_of (choice_slot_membership self) cn →
       slot_of self cn n = Some s →
       ∃ s', slot_of (relax_choice_constraints
                        (collect_choice_constraints self cn (Some content)))
               cn n = Some s'
             ∧ required s' = required s).
Proof.
  split; [|split; [|split; [|split]]].
  - intros. by apply apply_choice_constraint_short.
  - intros self cn branches repeating Hall Hshort.
    apply apply_choice_constraint_short.
    assert (filter (λ b, branch_nonempty b = true) branches = branches) as Hsame.
    { clear Hshort. induction Hall as [|b branches Hb _ IH]; [done|].
      rewrite filter_cons_True by (by destruct b). by rewrite IH. }
    by rewrite Hsame in Hshort.
  - intros. by apply apply_choice_constraint_short.
  - intros self cn content Hshort.
    rewrite collect_choice_constraints_choices.
    by apply record_choices_short.
  - intros self cn content n s Hshort Hn Hs.
    rewrite collect_choice_constraints_choices, record_choices_short by done.
    by apply relax_unrecorded_slot.
Qed.

Lemma fewer_than_two_branches_unchanged_witness :
  apply_choice_constraint sample_handler "Sample"
    (extract_choice_branches one_branch_choice)
    (choice_is_repeating one_branch_choice) = sample_handler
  ∧ collect_choice_constraints sample_handler "Sample" (Some one_branch_choice)
    = sample_handler
  ∧ ∃ s', slot_of (relax_choice_constraints
                     (collect_choice_constraints sample_handler "Sample"
                        (Some one_branch_choice)))
            "Sample" "A" = Some s'
          ∧ required s' = Some true.
Proof.
  destruct fewer_than_two_branches_unchanged as (_ & H2 & _ & H4 & H5).
  assert (Forall (λ g, (length (extract_choice_branches g) < 2)%nat)
                 (choices_of one_branch_choice)) as Hshort
    by (repeat constructor).
  split; [|split].
  - apply (H2 sample_handler "Sample" (extract_choice_branches one_branch_choice)).
    + repeat constructor. discriminate.
    + simpl. lia.
  - by apply (H4 sample_handler "Sample" one_branch_choice).
  - apply (H5 sample_handler "Sample" one_branch_choice "A"
             (string_slot (Some true)) Hshort).
    + unfold members_of. simpl. rewrite lookup_empty. apply not_elem_of_empty.
    + reflexivity.
Defined.

(** C10 fails as stated on a call whose branch list holds an empty branch:
    with the branches [[]] and [[A]], one of them non-empty, [A] is recorded
    as a choice member and loses its [required] flag in the relaxation
    pass; and with two empty branches the call creates the class it is
    given. *)
Lemma empty_branch_counts_as_branch :
  let branches : list branch := [[]; [("A", true)]] in
  let h := apply_choice_constraint sample_handler "Sample" branches false in
  length (filter (λ b, branch_nonempty b = true) branches) = 1%nat
  ∧ (slot_of (relax_choice_constraints sample_handler) "Sample" "A" ≫= required)
    = Some true
  ∧ choice_slot_membership sample_handler !! "Sample" = None
  ∧ choice_slot_membership h !! "Sample" = Some {[ "A" ]}
  ∧ (slot_of (relax_choice_constraints h) "Sample" "A" ≫= required) = None
  ∧ classes (h_schema sample_handler) !! "Other" = None
  ∧ classes (h_schema (apply_choice_constraint sample_handler "Other"
                         [[]; []] false)) !! "Other"
    = Some empty_class.
Proof. vm_compute. repeat split; reflexivity. Qed.


(** A choice that lies deeper in the content than its items is not
    visited: nothing is recorded for it, and its slots keep their
    [required] flags. *)
Example nested_choice_not_visited :
  let h := relax_choice_constraints
             (collect_choice_constraints sample_handler "Sample"
                (Some nested_choice_content)) in
  choices_of nested_choice_content = []
  ∧ exactly_one_of_of h "Sample" = None
  ∧ (slot_of h "Sample" "A" ≫= required) = Some true.
Proof. vm_compute. repeat split; reflexivity. Qed.
